(** * A shallow embedding of the single-pass bytecode compiler (compiler.c)

    The compiler of [src/c/compiler.c] is a Pratt parser fused with a
    bytecode emitter.  It works on three pieces of global state: the
    [parser] (one token of look-ahead and the sticky [hadError] flag), the
    chain of [Compiler] frames (one per function being compiled) and the
    scanner.  The embedding threads them through a state monad; the
    mutually recursive parse functions take a [fuel] argument.

    C [int]s (offsets, counts, depths, lines) are integers of [Z]; they stay
    far below 2^31 on any input that fits in memory.  Bytes ([uint8_t]) are
    integers too, and every conversion to [uint8_t] of a value that can be
    out of range is written out as [uint8_t], the remainder modulo 256.
    Arrays are lists of their populated entries. *)

From Stdlib Require Import ZArith List String Ascii Bool Lia.
Import ListNotations.
Local Open Scope Z_scope.

(** ** Tokens (scanner.h) *)

(** The token kinds, in the order of the [rules] table of compiler.c. *)
Inductive TokenType : Set :=
| TOKEN_LEFT_PAREN | TOKEN_RIGHT_PAREN | TOKEN_LEFT_BRACKET
| TOKEN_RIGHT_BRACKET | TOKEN_LEFT_BRACE | TOKEN_RIGHT_BRACE
| TOKEN_BANG | TOKEN_BANG_EQUAL | TOKEN_COMMA | TOKEN_DOT | TOKEN_EQUAL
| TOKEN_EQUAL_EQUAL | TOKEN_GREATER | TOKEN_GREATER_EQUAL | TOKEN_LESS
| TOKEN_LESS_EQUAL | TOKEN_MINUS | TOKEN_PLUS | TOKEN_SEMICOLON
| TOKEN_SLASH | TOKEN_STAR
| TOKEN_IDENTIFIER | TOKEN_STRING | TOKEN_NUMBER
| TOKEN_AND | TOKEN_CLASS | TOKEN_ELSE | TOKEN_FALSE | TOKEN_FUN
| TOKEN_FOR | TOKEN_IF | TOKEN_NULL | TOKEN_OR | TOKEN_RETURN
| TOKEN_THIS | TOKEN_TRUE | TOKEN_VAR | TOKEN_WHILE
| TOKEN_ERROR | TOKEN_EOF.

Definition TokenType_eq_dec (a b : TokenType) : {a = b} + {a <> b}.
Proof. decide equality. Defined.

Definition TokenType_eqb (a b : TokenType) : bool :=
  if TokenType_eq_dec a b then true else false.

(** A token.  The C struct carries [start] and [length], a slice of the
    source text; the embedding keeps the slice itself as [lexeme]. *)
Record Token : Set := mkToken {
  type : TokenType;
  lexeme : string;
  line : Z
}.

(** [name->length == local->name.length && memcmp(...) == 0] *)
Definition sameLexeme (a b : Token) : bool :=
  String.eqb (lexeme a) (lexeme b).

(** ** Opcodes (vm.h) *)

(** The opcode enumeration is declared in a header that is not part of the
    source, so its numbering is a parameter of the whole development.
    [OP_CALL_0] is the first of a contiguous family of call opcodes. *)
Class OpCodes : Set := {
  OP_CONSTANT : Z;
  OP_NULL : Z;
  OP_POP : Z;
  OP_GET_LOCAL : Z;
  OP_SET_LOCAL : Z;
  OP_GET_GLOBAL : Z;
  OP_SET_GLOBAL : Z;
  OP_DEFINE_GLOBAL : Z;
  OP_EQUAL : Z;
  OP_GREATER : Z;
  OP_LESS : Z;
  OP_ADD : Z;
  OP_SUBTRACT : Z;
  OP_MULTIPLY : Z;
  OP_DIVIDE : Z;
  OP_NOT : Z;
  OP_NEGATE : Z;
  OP_JUMP : Z;
  OP_JUMP_IF_FALSE : Z;
  OP_LOOP : Z;
  OP_CALL_0 : Z;
  OP_RETURN : Z
}.

(** ** Values and functions (object.h) *)

(** [uint8_t]: the conversion of an [int] to a byte. *)
Definition uint8_t (n : Z) : Z := n mod 256.

Record ObjFunctionOf (V : Type) : Type := mkFunction {
  code : list Z;          (* the first [codeCount] bytes of [code] *)
  codeLines : list Z;     (* the first [codeCount] entries of [codeLines] *)
  codeCapacity : Z;
  constants : list V;     (* [constants.values], [constants.count] entries *)
  arity : Z
}.
Arguments mkFunction {V}.
Arguments code {V}.
Arguments codeLines {V}.
Arguments codeCapacity {V}.
Arguments constants {V}.
Arguments arity {V}.

(** A [Value] is a pointer to a heap object.  Numbers are produced by
    [strtod] from the lexeme; floating point is not interpreted here and
    the number object keeps the text that was converted. *)
#[warnings="-register-all"]
Inductive Value : Type :=
| NullValue                                  (* (Value)NULL *)
| ObjBool (value : bool)
| ObjNumber (text : string)
| ObjString (chars : string)
| ObjFun (f : ObjFunctionOf Value).

Definition ObjFunction : Type := ObjFunctionOf Value.

Definition codeCount (f : ObjFunction) : Z := Z.of_nat (List.length (code f)).

(** Modelled from the spec: the allocator's constructors ([newFunction],
    [newString], [newNumber], [newBool] of object.c, which is not part of the
    source).  [newFunction] yields a fresh function-in-progress with no
    code, no constants and no parameters. *)
Definition newFunction : ObjFunction := mkFunction [] [] 0 [] 0.
Definition newString (chars : string) : Value := ObjString chars.
Definition newNumber (text : string) : Value := ObjNumber text.
Definition newBool (b : bool) : Value := ObjBool b.

(** ** Compiler state *)

Definition MAX_LOCALS : Z := 256.

Record Parser : Type := mkParser {
  hadError : bool;
  current : Token;
  previous : Token
}.

Definition Precedence : Set := Z.
Definition PREC_NONE : Precedence := 0.
Definition PREC_ASSIGNMENT : Precedence := 1.
Definition PREC_OR : Precedence := 2.
Definition PREC_AND : Precedence := 3.
Definition PREC_EQUALITY : Precedence := 4.
Definition PREC_COMPARISON : Precedence := 5.
Definition PREC_TERM : Precedence := 6.
Definition PREC_FACTOR : Precedence := 7.
Definition PREC_UNARY : Precedence := 8.
Definition PREC_CALL : Precedence := 9.
Definition PREC_PRIMARY : Precedence := 10.

Record Local : Set := mkLocal {
  name : Token;
  depth : Z
}.

(** One frame of the compiler chain.  [locals] holds the [localCount]
    entries of the C array that are in use; the [enclosing] pointer is the
    tail of the list of frames in [State]. *)
Record Compiler : Type := mkCompiler {
  function : ObjFunction;
  locals : list Local;
  scopeDepth : Z
}.

Definition localCount (c : Compiler) : Z := Z.of_nat (List.length (locals c)).

(** Modelled from the spec: the state of the scanner (scanner.c is not
    part of the source), the tokens of the source text that have not been
    handed out yet and the line of the end of file. *)
Record Scanner : Set := mkScanner {
  pending : list Token;
  eofLine : Z
}.

Record State : Type := mkState {
  scanner : Scanner;
  parser : Parser;
  compiler : list Compiler;     (* innermost frame first; [nil] is NULL *)
  vmStack : list Value;         (* the VM stack used by push and pop *)
  stderr : list (Z * string)    (* the diagnostics printed so far *)
}.

(** ** The monad *)

Inductive Outcome (A : Type) : Type :=
| Ok (a : A) (s : State)
| OutOfFuel
| Undefined.    (* NULL dereference, access out of bounds, failed assert *)
Arguments Ok {A}.
Arguments OutOfFuel {A}.
Arguments Undefined {A}.

Definition M (A : Type) : Type := State -> Outcome A.

Definition ret {A} (a : A) : M A := fun s => Ok a s.

Definition bind {A B} (m : M A) (k : A -> M B) : M B :=
  fun s => match m s with
           | Ok a s' => k a s'
           | OutOfFuel => OutOfFuel
           | Undefined => Undefined
           end.

Definition outOfFuel {A} : M A := fun _ => OutOfFuel.
Definition undefined {A} : M A := fun _ => Undefined.

Declare Scope comp_scope.
Delimit Scope comp_scope with comp.
Notation "x <- m ;; k" := (bind m (fun x => k))
  (at level 61, m at next level, right associativity) : comp_scope.
Notation "m ;; k" := (bind m (fun _ => k))
  (at level 61, right associativity) : comp_scope.
Local Open Scope comp_scope.

Definition getParser : M Parser := fun s => Ok (parser s) s.

Definition setParser (p : Parser) : M unit := fun s =>
  Ok tt (mkState (scanner s) p (compiler s) (vmStack s) (stderr s)).

(** [*compiler]: the innermost frame. *)
Definition getCompiler : M Compiler := fun s =>
  match compiler s with
  | c :: _ => Ok c s
  | [] => Undefined
  end.

Definition setCompiler (c : Compiler) : M unit := fun s =>
  match compiler s with
  | _ :: enclosing =>
      Ok tt (mkState (scanner s) (parser s) (c :: enclosing) (vmStack s)
                     (stderr s))
  | [] => Undefined
  end.

Definition setFunction (f : ObjFunction) : M unit :=
  c <- getCompiler ;;
  setCompiler (mkCompiler f (locals c) (scopeDepth c)).

(** ** External collaborators: scanner and VM stack *)

(** Modelled from the spec: the scanner's two functions (scanner.c is not
    part of the source).  [initScanner] begins a new token stream over the
    source; [scanToken] produces the next token and, after the last real
    token, [TOKEN_EOF] indefinitely. *)
Definition initScanner (source : Scanner) : M unit := fun s =>
  Ok tt (mkState source (parser s) (compiler s) (vmStack s) (stderr s)).

Definition scanToken : M Token := fun s =>
  match pending (scanner s) with
  | t :: rest =>
      Ok t (mkState (mkScanner rest (eofLine (scanner s))) (parser s)
                    (compiler s) (vmStack s) (stderr s))
  | [] => Ok (mkToken TOKEN_EOF EmptyString (eofLine (scanner s))) s
  end.

(** Modelled from the spec: [push] and [pop] on the VM's value stack (vm.c
    is not part of the source), used to pin a value as a root. *)
Definition push (v : Value) : M unit := fun s =>
  Ok tt (mkState (scanner s) (parser s) (compiler s) (v :: vmStack s)
                 (stderr s)).

Definition pop : M Value := fun s =>
  match vmStack s with
  | v :: rest =>
      Ok v (mkState (scanner s) (parser s) (compiler s) rest (stderr s))
  | [] => Undefined
  end.

(** ** Token stream adapter *)

Definition advance : M unit :=
  p <- getParser ;;
  t <- scanToken ;;
  setParser (mkParser (hadError p) t (current p)).

Definition errorAt (line : Z) (message : string) : M unit := fun s =>
  Ok tt (mkState (scanner s)
                 (mkParser true (current (parser s)) (previous (parser s)))
                 (compiler s) (vmStack s)
                 (stderr s ++ [(line, message)])).

Definition error (message : string) : M unit :=
  p <- getParser ;;
  errorAt (line (previous p)) message.

Definition check (t : TokenType) : M bool :=
  p <- getParser ;;
  ret (TokenType_eqb (type (current p)) t).

Definition consume (t : TokenType) (message : string) : M unit :=
  p <- getParser ;;
  (if TokenType_eqb (type (current p)) t then ret tt else error message) ;;
  advance.

Definition match_ (t : TokenType) : M bool :=
  b <- check t ;;
  if b then advance ;; ret true else ret false.

(** ** Emitter *)

Section Emitter.
Context {ops : OpCodes}.

Definition emitByte (byte : Z) : M unit :=
  c <- getCompiler ;;
  p <- getParser ;;
  let function := function c in
  let capacity :=
    if codeCapacity function <? codeCount function + 1
    then (if codeCapacity function =? 0 then 4
          else codeCapacity function * 2)
    else codeCapacity function in
  setFunction (mkFunction (code function ++ [byte])
                          (codeLines function ++ [line (previous p)])
                          capacity (constants function) (arity function)).

Definition emitBytes (byte1 byte2 : Z) : M unit :=
  emitByte byte1 ;;
  emitByte byte2.

Definition emitLoop (loopStart : Z) : M unit :=
  emitByte OP_LOOP ;;
  c <- getCompiler ;;
  let offset := codeCount (function c) - loopStart + 2 in
  emitByte (Z.land (Z.shiftr offset 8) 255) ;;
  emitByte (Z.land offset 255).

Definition emitJump (instruction : Z) : M Z :=
  emitByte instruction ;;
  emitByte 255 ;;
  emitByte 255 ;;
  c <- getCompiler ;;
  ret (codeCount (function c) - 2).

(** [l[i] = v] on the populated part of an array. *)
Fixpoint writeAt {A} (l : list A) (i : nat) (v : A) : list A :=
  match l, i with
  | [], _ => []
  | _ :: rest, O => v :: rest
  | x :: rest, S i' => x :: writeAt rest i' v
  end.

(** [compiler->function->code[offset] = byte], an overwrite of a byte that
    has been emitted. *)
Definition storeCode (offset byte : Z) : M unit :=
  c <- getCompiler ;;
  let function := function c in
  if (0 <=? offset) && (offset <? codeCount function)
  then setFunction (mkFunction (writeAt (code function) (Z.to_nat offset) byte)
                               (codeLines function) (codeCapacity function)
                               (constants function) (arity function))
  else undefined.

Definition patchJump (offset : Z) : M unit :=
  c <- getCompiler ;;
  let jump := codeCount (function c) - offset - 2 in
  storeCode offset (Z.land (Z.shiftr jump 8) 255) ;;
  storeCode (offset + 1) (Z.land jump 255).

(** ** Compiler frames and scopes *)

Definition beginCompiler : M unit := fun s =>
  Ok tt (mkState (scanner s) (parser s)
                 (mkCompiler newFunction [] (-1) :: compiler s)
                 (vmStack s) (stderr s)).

(** [compiler = compiler->enclosing] *)
Definition leaveCompiler : M unit := fun s =>
  match compiler s with
  | _ :: enclosing =>
      Ok tt (mkState (scanner s) (parser s) enclosing (vmStack s) (stderr s))
  | [] => Undefined
  end.

(** The result is [None] for the NULL pointer. *)
Definition endCompiler : M (option ObjFunction) :=
  emitBytes OP_NULL OP_RETURN ;;
  c <- getCompiler ;;
  let function := function c in
  leaveCompiler ;;
  p <- getParser ;;
  ret (if hadError p then None else Some function).

Definition beginScope : M unit :=
  c <- getCompiler ;;
  setCompiler (mkCompiler (function c) (locals c) (scopeDepth c + 1)).

(** The loop of [endScope]; it runs at most [localCount] times, which is
    the bound [n]. *)
Fixpoint endScopeLoop (n : nat) : M unit :=
  match n with
  | O => ret tt
  | S n' =>
      c <- getCompiler ;;
      match nth_error (locals c) (List.length (locals c) - 1) with
      | Some top =>
          if (localCount c >? 0) && (depth top >? scopeDepth c)
          then emitByte OP_POP ;;
               c <- getCompiler ;;
               setCompiler (mkCompiler (function c) (removelast (locals c))
                                       (scopeDepth c)) ;;
               endScopeLoop n'
          else ret tt
      | None => ret tt
      end
  end.

Definition endScope : M unit :=
  c <- getCompiler ;;
  setCompiler (mkCompiler (function c) (locals c) (scopeDepth c - 1)) ;;
  endScopeLoop (List.length (locals c)).

(** ** Constants *)

Definition addConstant (value : Value) : M Z :=
  push value ;;
  c <- getCompiler ;;
  let function := function c in
  v <- pop ;;
  let function := mkFunction (code function) (codeLines function)
                             (codeCapacity function)
                             (constants function ++ [v]) (arity function) in
  setFunction function ;;
  ret (uint8_t (Z.of_nat (List.length (constants function)))).

Definition nameConstant : M Z :=
  p <- getParser ;;
  addConstant (newString (lexeme (previous p))).

Definition emitConstant (value : Value) : M unit :=
  constant <- addConstant value ;;
  emitBytes OP_CONSTANT constant.

(** ** Variables *)

(** The scan of [resolveLocal], from index [i - 1] down to 0; [tok] is the
    token the C code calls [name]. *)
Fixpoint resolveLocalFrom (ls : list Local) (i : nat) (tok : Token) : Z :=
  match i with
  | O => -1
  | S i' =>
      match nth_error ls i' with
      | Some local =>
          if sameLexeme (name local) tok then Z.of_nat i'
          else resolveLocalFrom ls i' tok
      | None => resolveLocalFrom ls i' tok
      end
  end.

Definition resolveLocal (tok : Token) : M Z :=
  c <- getCompiler ;;
  ret (resolveLocalFrom (locals c) (List.length (locals c)) tok).

(** [constant] is the value the caller's variable holds before the call;
    the result carries the value it holds afterwards. *)
Definition parseVariable (error : string) (constant : Z) : M (Token * Z) :=
  consume TOKEN_IDENTIFIER error ;;
  p <- getParser ;;
  let tok := previous p in
  c <- getCompiler ;;
  if scopeDepth c =? -1
  then constant <- nameConstant ;; ret (tok, constant)
  else ret (tok, constant).

Definition redeclared : string :=
  "Variable with this name already declared in this scope.".

(** The duplicate scan of [declareVariable], from index [i - 1] down. *)
Fixpoint declareScan (ls : list Local) (i : nat) (scopeDepth : Z)
         (tok : Token) : M unit :=
  match i with
  | O => ret tt
  | S i' =>
      match nth_error ls i' with
      | Some local =>
          if depth local <? scopeDepth then ret tt
          else
            (if sameLexeme tok (name local)
             then errorAt (line tok) redeclared
             else ret tt) ;;
            declareScan ls i' scopeDepth tok
      | None => undefined
      end
  end.

(** The table has [MAX_LOCALS] entries; writing entry number [MAX_LOCALS]
    is outside the array and undefined. *)
Definition declareVariable (tok : Token) (constant : Z) : M unit :=
  c <- getCompiler ;;
  if scopeDepth c =? -1
  then emitBytes OP_DEFINE_GLOBAL constant
  else
    declareScan (locals c) (List.length (locals c)) (scopeDepth c) tok ;;
    c <- getCompiler ;;
    if localCount c <? MAX_LOCALS
    then setCompiler (mkCompiler (function c)
                                 (locals c ++ [mkLocal tok (scopeDepth c)])
                                 (scopeDepth c))
    else undefined.

(** ** The parse rules *)

(** The handlers a [ParseFn] pointer of the [rules] table can point to. *)
Inductive ParseFn : Set :=
| fn_grouping | fn_call | fn_unary | fn_binary | fn_variable | fn_string
| fn_number | fn_and | fn_boolean | fn_null | fn_or.

Record ParseRule : Set := mkRule {
  prefix : option ParseFn;      (* [None] is NULL *)
  infix : option ParseFn;
  precedence : Precedence
}.

Definition rulePrecedence (r : ParseRule) : Precedence := precedence r.

Definition getRule (t : TokenType) : ParseRule :=
  match t with
  | TOKEN_LEFT_PAREN => mkRule (Some fn_grouping) (Some fn_call) PREC_CALL
  | TOKEN_RIGHT_PAREN => mkRule None None PREC_NONE
  | TOKEN_LEFT_BRACKET => mkRule None None PREC_NONE
  | TOKEN_RIGHT_BRACKET => mkRule None None PREC_NONE
  | TOKEN_LEFT_BRACE => mkRule None None PREC_NONE
  | TOKEN_RIGHT_BRACE => mkRule None None PREC_NONE
  | TOKEN_BANG => mkRule (Some fn_unary) None PREC_NONE
  | TOKEN_BANG_EQUAL => mkRule None (Some fn_binary) PREC_EQUALITY
  | TOKEN_COMMA => mkRule None None PREC_NONE
  | TOKEN_DOT => mkRule None None PREC_NONE
  | TOKEN_EQUAL => mkRule None None PREC_NONE
  | TOKEN_EQUAL_EQUAL => mkRule None (Some fn_binary) PREC_EQUALITY
  | TOKEN_GREATER => mkRule None (Some fn_binary) PREC_COMPARISON
  | TOKEN_GREATER_EQUAL => mkRule None (Some fn_binary) PREC_COMPARISON
  | TOKEN_LESS => mkRule None (Some fn_binary) PREC_COMPARISON
  | TOKEN_LESS_EQUAL => mkRule None (Some fn_binary) PREC_COMPARISON
  | TOKEN_MINUS => mkRule (Some fn_unary) (Some fn_binary) PREC_TERM
  | TOKEN_PLUS => mkRule None (Some fn_binary) PREC_TERM
  | TOKEN_SEMICOLON => mkRule None None PREC_NONE
  | TOKEN_SLASH => mkRule None (Some fn_binary) PREC_FACTOR
  | TOKEN_STAR => mkRule None (Some fn_binary) PREC_FACTOR
  | TOKEN_IDENTIFIER => mkRule (Some fn_variable) None PREC_NONE
  | TOKEN_STRING => mkRule (Some fn_string) None PREC_NONE
  | TOKEN_NUMBER => mkRule (Some fn_number) None PREC_NONE
  | TOKEN_AND => mkRule None (Some fn_and) PREC_AND
  | TOKEN_CLASS => mkRule None None PREC_NONE
  | TOKEN_ELSE => mkRule None None PREC_NONE
  | TOKEN_FALSE => mkRule (Some fn_boolean) None PREC_NONE
  | TOKEN_FUN => mkRule None None PREC_NONE
  | TOKEN_FOR => mkRule None None PREC_NONE
  | TOKEN_IF => mkRule None None PREC_NONE
  | TOKEN_NULL => mkRule (Some fn_null) None PREC_NONE
  | TOKEN_OR => mkRule None (Some fn_or) PREC_OR
  | TOKEN_RETURN => mkRule None None PREC_NONE
  | TOKEN_THIS => mkRule None None PREC_NONE
  | TOKEN_TRUE => mkRule (Some fn_boolean) None PREC_NONE
  | TOKEN_VAR => mkRule None None PREC_NONE
  | TOKEN_WHILE => mkRule None None PREC_NONE
  | TOKEN_ERROR => mkRule None None PREC_NONE
  | TOKEN_EOF => mkRule None None PREC_NONE
  end.

(** ** Expression handlers

    The handlers call [parsePrecedence], which calls them back through the
    rule table.  They are written over the recursive call, here a section
    variable, and the knot is tied by [parsePrecedence] below. *)

Section Handlers.
Variable parsePrecedence : Precedence -> M unit.

Definition expression : M unit := parsePrecedence PREC_ASSIGNMENT.

Definition and_ (canAssign : bool) : M unit :=
  endJump <- emitJump OP_JUMP_IF_FALSE ;;
  emitByte OP_POP ;;
  parsePrecedence PREC_AND ;;
  patchJump endJump.

Definition binary (canAssign : bool) : M unit :=
  p <- getParser ;;
  let operatorType := type (previous p) in
  let rule := getRule operatorType in
  parsePrecedence (precedence rule + 1) ;;
  match operatorType with
  | TOKEN_BANG_EQUAL => emitBytes OP_EQUAL OP_NOT
  | TOKEN_EQUAL_EQUAL => emitByte OP_EQUAL
  | TOKEN_GREATER => emitByte OP_GREATER
  | TOKEN_GREATER_EQUAL => emitBytes OP_LESS OP_NOT
  | TOKEN_LESS => emitByte OP_LESS
  | TOKEN_LESS_EQUAL => emitBytes OP_GREATER OP_NOT
  | TOKEN_PLUS => emitByte OP_ADD
  | TOKEN_MINUS => emitByte OP_SUBTRACT
  | TOKEN_STAR => emitByte OP_MULTIPLY
  | TOKEN_SLASH => emitByte OP_DIVIDE
  | _ => undefined
  end.

Definition boolean (canAssign : bool) : M unit :=
  p <- getParser ;;
  emitConstant (newBool (TokenType_eqb (type (previous p)) TOKEN_TRUE)).

(** [do { expression(); argCount++; } while (match(TOKEN_COMMA));] *)
Fixpoint callArguments (fuel : nat) (argCount : Z) : M Z :=
  match fuel with
  | O => outOfFuel
  | S fuel' =>
      expression ;;
      let argCount := uint8_t (argCount + 1) in
      more <- match_ TOKEN_COMMA ;;
      if more then callArguments fuel' argCount else ret argCount
  end.

Definition call (fuel : nat) (canAssign : bool) : M unit :=
  atParen <- check TOKEN_RIGHT_PAREN ;;
  argCount <- (if negb atParen then callArguments fuel 0 else ret 0) ;;
  consume TOKEN_RIGHT_PAREN "Expect ')' after arguments." ;;
  emitByte (uint8_t (OP_CALL_0 + argCount)).

Definition grouping (canAssign : bool) : M unit :=
  expression ;;
  consume TOKEN_RIGHT_PAREN "Expect ')' after expression.".

Definition null_ (canAssign : bool) : M unit :=
  emitByte OP_NULL.

Definition number (canAssign : bool) : M unit :=
  p <- getParser ;;
  emitConstant (newNumber (lexeme (previous p))).

Definition or_ (canAssign : bool) : M unit :=
  elseJump <- emitJump OP_JUMP_IF_FALSE ;;
  endJump <- emitJump OP_JUMP ;;
  patchJump elseJump ;;
  emitByte OP_POP ;;
  parsePrecedence PREC_OR ;;
  patchJump endJump.

(** [newString(start + 1, length - 2)]: the lexeme without its quotes. *)
Definition string_ (canAssign : bool) : M unit :=
  p <- getParser ;;
  let text := lexeme (previous p) in
  emitConstant (newString (substring 1 (String.length text - 2) text)).

Definition unary (canAssign : bool) : M unit :=
  p <- getParser ;;
  let operatorType := type (previous p) in
  parsePrecedence (PREC_UNARY + 1) ;;
  match operatorType with
  | TOKEN_BANG => emitByte OP_NOT
  | TOKEN_MINUS => emitByte OP_NEGATE
  | _ => undefined
  end.

Definition variable (canAssign : bool) : M unit :=
  p <- getParser ;;
  local <- resolveLocal (previous p) ;;
  if negb (local =? -1)
  then
    assign <- (if canAssign then match_ TOKEN_EQUAL else ret false) ;;
    if assign
    then expression ;; emitBytes OP_SET_LOCAL (uint8_t local)
    else emitBytes OP_GET_LOCAL (uint8_t local)
  else
    constant <- nameConstant ;;
    assign <- (if canAssign then match_ TOKEN_EQUAL else ret false) ;;
    if assign
    then expression ;; emitBytes OP_SET_GLOBAL constant
    else emitBytes OP_GET_GLOBAL constant.

(** Calling through a [ParseFn] pointer; NULL is not callable. *)
Definition callParseFn (fuel : nat) (fn : option ParseFn) (canAssign : bool)
  : M unit :=
  match fn with
  | None => undefined
  | Some fn_grouping => grouping canAssign
  | Some fn_call => call fuel canAssign
  | Some fn_unary => unary canAssign
  | Some fn_binary => binary canAssign
  | Some fn_variable => variable canAssign
  | Some fn_string => string_ canAssign
  | Some fn_number => number canAssign
  | Some fn_and => and_ canAssign
  | Some fn_boolean => boolean canAssign
  | Some fn_null => null_ canAssign
  | Some fn_or => or_ canAssign
  end.

(** The [while] loop of [parsePrecedence]. *)
Fixpoint infixLoop (fuel : nat) (precedence : Precedence) (canAssign : bool)
  : M unit :=
  match fuel with
  | O => outOfFuel
  | S fuel' =>
      p <- getParser ;;
      if precedence <=? rulePrecedence (getRule (type (current p)))
      then
        advance ;;
        p <- getParser ;;
        callParseFn fuel' (infix (getRule (type (previous p)))) canAssign ;;
        infixLoop fuel' precedence canAssign
      else ret tt
  end.

Definition parsePrecedenceBody (fuel : nat) (precedence : Precedence)
  : M unit :=
  advance ;;
  p <- getParser ;;
  let prefixRule := prefix (getRule (type (previous p))) in
  match prefixRule with
  | None => error ("Expected expression." ++ String (ascii_of_nat 10) EmptyString)
  | Some _ =>
      let canAssign := precedence <=? PREC_ASSIGNMENT in
      callParseFn fuel prefixRule canAssign ;;
      infixLoop fuel precedence canAssign
  end.

End Handlers.

Fixpoint parsePrecedence (fuel : nat) (precedence : Precedence) : M unit :=
  match fuel with
  | O => outOfFuel
  | S fuel' => parsePrecedenceBody (parsePrecedence fuel') fuel' precedence
  end.

(** ** Statements *)

(** [(Value)function], where [function] may be NULL. *)
Definition functionValue (function : option ObjFunction) : Value :=
  match function with
  | Some f => ObjFun f
  | None => NullValue
  end.

Definition returnStatement (fuel : nat) : M unit :=
  semicolon <- match_ TOKEN_SEMICOLON ;;
  (if semicolon then emitByte OP_NULL
   else expression (parsePrecedence fuel) ;;
        consume TOKEN_SEMICOLON "Expect ';' after return value.") ;;
  emitByte OP_RETURN.

Definition varStatement (fuel : nat) : M unit :=
  r <- parseVariable "Expect variable name." 255 ;;
  let '(tok, constant) := r in
  consume TOKEN_EQUAL "Expect '=' after variable name." ;;
  expression (parsePrecedence fuel) ;;
  consume TOKEN_SEMICOLON "Expect ';' after initializer." ;;
  declareVariable tok constant.

(** The parameter loop of [funStatement].  [paramConstant] is not
    initialised in C; it is only read at global scope, where
    [parseVariable] has assigned it. *)
Fixpoint parameters (fuel : nat) (paramConstant : Z) : M unit :=
  match fuel with
  | O => outOfFuel
  | S fuel' =>
      r <- parseVariable "Expect parameter name." paramConstant ;;
      let '(param, paramConstant) := r in
      declareVariable param paramConstant ;;
      c <- getCompiler ;;
      let f := function c in
      setFunction (mkFunction (code f) (codeLines f) (codeCapacity f)
                              (constants f) (arity f + 1)) ;;
      more <- match_ TOKEN_COMMA ;;
      if more then parameters fuel' paramConstant else ret tt
  end.

Section Statements.
Variable statement : M unit.

(** [while (!check(TOKEN_RIGHT_BRACE) && !check(TOKEN_EOF)) statement();] *)
Fixpoint blockLoop (fuel : nat) : M unit :=
  match fuel with
  | O => outOfFuel
  | S fuel' =>
      atBrace <- check TOKEN_RIGHT_BRACE ;;
      atEof <- check TOKEN_EOF ;;
      if negb atBrace && negb atEof
      then statement ;; blockLoop fuel'
      else ret tt
  end.

Definition block (fuel : nat) : M unit :=
  consume TOKEN_LEFT_BRACE "Expect '{' before block." ;;
  blockLoop fuel ;;
  consume TOKEN_RIGHT_BRACE "Expect '}' after block.".

Definition funStatement (fuel : nat) : M unit :=
  r <- parseVariable "Expect function name." 255 ;;
  let '(tok, nameConstant) := r in
  beginCompiler ;;
  beginScope ;;
  consume TOKEN_LEFT_PAREN "Expect '(' after function name." ;;
  atParen <- check TOKEN_RIGHT_PAREN ;;
  (if negb atParen then parameters fuel 0 else ret tt) ;;
  consume TOKEN_RIGHT_PAREN "Expect ')' after parameters." ;;
  block fuel ;;
  endScope ;;
  function <- endCompiler ;;
  emitConstant (functionValue function) ;;
  declareVariable tok nameConstant.

Definition ifStatement (fuel : nat) : M unit :=
  consume TOKEN_LEFT_PAREN "Expect '(' after 'if'." ;;
  expression (parsePrecedence fuel) ;;
  consume TOKEN_RIGHT_PAREN "Expect ')' after condition." ;;
  beginScope ;;
  elseJump <- emitJump OP_JUMP_IF_FALSE ;;
  emitByte OP_POP ;;
  statement ;;
  endJump <- emitJump OP_JUMP ;;
  patchJump elseJump ;;
  emitByte OP_POP ;;
  hasElse <- match_ TOKEN_ELSE ;;
  (if hasElse then statement else ret tt) ;;
  patchJump endJump ;;
  endScope.

Definition whileStatement (fuel : nat) : M unit :=
  c <- getCompiler ;;
  let loopStart := codeCount (function c) in
  consume TOKEN_LEFT_PAREN "Expect '(' after 'if'." ;;
  expression (parsePrecedence fuel) ;;
  consume TOKEN_RIGHT_PAREN "Expect ')' after condition." ;;
  beginScope ;;
  exitJump <- emitJump OP_JUMP_IF_FALSE ;;
  emitByte OP_POP ;;
  statement ;;
  emitLoop loopStart ;;
  patchJump exitJump ;;
  endScope.

Definition statementBody (fuel : nat) : M unit :=
  isFun <- match_ TOKEN_FUN ;;
  if isFun then funStatement fuel else
  isIf <- match_ TOKEN_IF ;;
  if isIf then ifStatement fuel else
  isReturn <- match_ TOKEN_RETURN ;;
  if isReturn then returnStatement fuel else
  isVar <- match_ TOKEN_VAR ;;
  if isVar then varStatement fuel else
  isWhile <- match_ TOKEN_WHILE ;;
  if isWhile then whileStatement fuel else
  atBrace <- check TOKEN_LEFT_BRACE ;;
  if atBrace
  then beginScope ;; block fuel ;; endScope
  else expression (parsePrecedence fuel) ;;
       emitByte OP_POP ;;
       consume TOKEN_SEMICOLON "Expect ';' after expression.".

End Statements.

Fixpoint statement (fuel : nat) : M unit :=
  match fuel with
  | O => outOfFuel
  | S fuel' => statementBody (statement fuel') fuel'
  end.

(** ** The entry point *)

(** [do { statement(); } while (!match(TOKEN_EOF));] *)
Fixpoint compileLoop (fuel : nat) : M unit :=
  match fuel with
  | O => outOfFuel
  | S fuel' =>
      statement fuel' ;;
      atEof <- match_ TOKEN_EOF ;;
      if negb atEof then compileLoop fuel' else ret tt
  end.

Definition compile (fuel : nat) (source : Scanner) : M (option ObjFunction) :=
  initScanner source ;;
  beginCompiler ;;
  p <- getParser ;;
  setParser (mkParser false (current p) (previous p)) ;;
  advance ;;
  atEof <- match_ TOKEN_EOF ;;
  (if negb atEof then compileLoop fuel else ret tt) ;;
  endCompiler.

End Emitter.

(** ** The functions a compilation produces *)

(** The function objects reachable from a value: a function constant and,
    through its constant pool, the functions declared inside it. *)
Fixpoint functionsOfValue (v : Value) : list ObjFunction :=
  match v with
  | ObjFun f =>
      f :: (fix pool (vs : list Value) : list ObjFunction :=
              match vs with
              | [] => []
              | v' :: rest => functionsOfValue v' ++ pool rest
              end) (constants f)
  | _ => []
  end.

Definition functionsOf (f : ObjFunction) : list ObjFunction :=
  functionsOfValue (ObjFun f).

(** ** Concrete inputs *)

(** A numbering of the opcodes, in the order the VM's contract lists them,
    with nine call opcodes.  It instantiates the parameter for the concrete
    runs below; the general theorems hold for every numbering. *)
#[local] Instance sampleOps : OpCodes := {|
  OP_CONSTANT := 0; OP_NULL := 1; OP_POP := 2; OP_GET_LOCAL := 3;
  OP_SET_LOCAL := 4; OP_GET_GLOBAL := 5; OP_SET_GLOBAL := 6;
  OP_DEFINE_GLOBAL := 7; OP_EQUAL := 8; OP_GREATER := 9; OP_LESS := 10;
  OP_ADD := 11; OP_SUBTRACT := 12; OP_MULTIPLY := 13; OP_DIVIDE := 14;
  OP_NOT := 15; OP_NEGATE := 16; OP_JUMP := 17; OP_JUMP_IF_FALSE := 18;
  OP_LOOP := 19; OP_CALL_0 := 20; OP_RETURN := 29
|}.

(** The state of the globals before the first call of [compile]: a zeroed
    [parser], no compiler frame, an empty VM stack. *)
Definition zeroToken : Token := mkToken TOKEN_LEFT_PAREN EmptyString 0.

Definition initialState : State :=
  mkState (mkScanner [] 0) (mkParser false zeroToken zeroToken) [] [] [].

Definition tok (t : TokenType) (text : string) : Token := mkToken t text 1.

(** The tokens of [fun f(a, b) { return a + b; } f(1, 2);], all on line 1. *)
Definition funSource : Scanner :=
  mkScanner
    [ tok TOKEN_FUN "fun"; tok TOKEN_IDENTIFIER "f"; tok TOKEN_LEFT_PAREN "(";
      tok TOKEN_IDENTIFIER "a"; tok TOKEN_COMMA ","; tok TOKEN_IDENTIFIER "b";
      tok TOKEN_RIGHT_PAREN ")"; tok TOKEN_LEFT_BRACE "{";
      tok TOKEN_RETURN "return"; tok TOKEN_IDENTIFIER "a"; tok TOKEN_PLUS "+";
      tok TOKEN_IDENTIFIER "b"; tok TOKEN_SEMICOLON ";";
      tok TOKEN_RIGHT_BRACE "}";
      tok TOKEN_IDENTIFIER "f"; tok TOKEN_LEFT_PAREN "(";
      tok TOKEN_NUMBER "1"; tok TOKEN_COMMA ","; tok TOKEN_NUMBER "2";
      tok TOKEN_RIGHT_PAREN ")"; tok TOKEN_SEMICOLON ";" ]
    1.

(** The tokens of [1 + 2 * 3;]. *)
Definition arithmeticSource : Scanner :=
  mkScanner
    [ tok TOKEN_NUMBER "1"; tok TOKEN_PLUS "+"; tok TOKEN_NUMBER "2";
      tok TOKEN_STAR "*"; tok TOKEN_NUMBER "3"; tok TOKEN_SEMICOLON ";" ]
    1.

(** The tokens of [if (true) 1; else 2;]. *)
Definition ifSource : Scanner :=
  mkScanner
    [ tok TOKEN_IF "if"; tok TOKEN_LEFT_PAREN "("; tok TOKEN_TRUE "true";
      tok TOKEN_RIGHT_PAREN ")"; tok TOKEN_NUMBER "1"; tok TOKEN_SEMICOLON ";";
      tok TOKEN_ELSE "else"; tok TOKEN_NUMBER "2"; tok TOKEN_SEMICOLON ";" ]
    1.

(** The tokens of [while (false) 1;]. *)
Definition whileSource : Scanner :=
  mkScanner
    [ tok TOKEN_WHILE "while"; tok TOKEN_LEFT_PAREN "(";
      tok TOKEN_FALSE "false"; tok TOKEN_RIGHT_PAREN ")";
      tok TOKEN_NUMBER "1"; tok TOKEN_SEMICOLON ";" ]
    1.

(** The tokens of [{ var a = 1; var a = 2; }]. *)
Definition redeclareSource : Scanner :=
  mkScanner
    [ tok TOKEN_LEFT_BRACE "{";
      tok TOKEN_VAR "var"; tok TOKEN_IDENTIFIER "a"; tok TOKEN_EQUAL "=";
      tok TOKEN_NUMBER "1"; tok TOKEN_SEMICOLON ";";
      tok TOKEN_VAR "var"; tok TOKEN_IDENTIFIER "a"; tok TOKEN_EQUAL "=";
      tok TOKEN_NUMBER "2"; tok TOKEN_SEMICOLON ";";
      tok TOKEN_RIGHT_BRACE "}" ]
    1.

(** The tokens of [1;] repeated [n] times. *)
Fixpoint constantStatements (n : nat) : list Token :=
  match n with
  | O => []
  | S n' => tok TOKEN_NUMBER "1" :: tok TOKEN_SEMICOLON ";"
            :: constantStatements n'
  end.

Section EmitRepeat.
Context {ops : OpCodes}.

(** The code of the function [compile] returns from the initial state. *)
Definition compiledCode (fuel : nat) (source : Scanner) : option (list Z) :=
  match compile fuel source initialState with
  | Ok (Some f) _ => Some (code f)
  | _ => None
  end.

(** The diagnostics of a run of [compile] that returns no function. *)
Definition rejected (fuel : nat) (source : Scanner)
  : option (list (Z * string)) :=
  match compile fuel source initialState with
  | Ok None s => Some (stderr s)
  | _ => None
  end.

(** [n] calls of [emitByte(byte)] in a row. *)
Fixpoint emitRepeat (n : nat) (byte : Z) : M unit :=
  match n with
  | O => ret tt
  | S n' => emitByte byte ;; emitRepeat n' byte
  end.

(** A jump over [n] bytes: a fresh frame, [emitJump], [n] more bytes, then
    [patchJump] on the offset [emitJump] returned.  The result is that
    offset with the function before and after the patch. *)
Definition jumpOver (n : nat) : M (Z * ObjFunction * ObjFunction) :=
  beginCompiler ;;
  offset <- emitJump OP_JUMP_IF_FALSE ;;
  emitRepeat n OP_POP ;;
  before <- getCompiler ;;
  patchJump offset ;;
  after <- getCompiler ;;
  ret (offset, function before, function after).

(** A loop over [n] bytes: a fresh frame, [n] bytes, then [emitLoop] back
    to offset 0.  The result is the function before and after. *)
Definition loopOver (n : nat) : M (ObjFunction * ObjFunction) :=
  beginCompiler ;;
  emitRepeat n OP_POP ;;
  before <- getCompiler ;;
  emitLoop 0 ;;
  after <- getCompiler ;;
  ret (function before, function after).

End EmitRepeat.

Definition localA : Local := mkLocal (mkToken TOKEN_IDENTIFIER "a" 1) 0.

(** Inside a block at depth 0, after [var a] on line 1. *)
Definition blockState : State :=
  mkState (mkScanner [] 3) (mkParser false zeroToken zeroToken)
          [mkCompiler newFunction [localA] 0] [] [].

Definition secondA : Token := mkToken TOKEN_IDENTIFIER "a" 2.

(** A frame whose code is a jump with its placeholder and two more bytes. *)
Definition jumpState : State :=
  mkState (mkScanner [] 1) (mkParser false zeroToken zeroToken)
          [mkCompiler (mkFunction [OP_JUMP_IF_FALSE; 255; 255; OP_POP; OP_POP]
                                  [1; 1; 1; 1; 1] 8 [] 0) [] (-1)] [] [].

(** A frame whose code is two bytes long. *)
Definition loopState : State :=
  mkState (mkScanner [] 1) (mkParser false zeroToken zeroToken)
          [mkCompiler (mkFunction [OP_POP; OP_POP] [1; 1] 4 [] 0) [] (-1)]
          [] [].

(** ** Vocabulary of the specification *)

(** Hoare triples over the monad: from a state satisfying [I], a run of [m]
    that returns ends in a state satisfying [I] with a result satisfying
    [Q]. *)
Definition hoare {A} (I : State -> Prop) (m : M A) (Q : A -> Prop) : Prop :=
  forall s a s', I s -> m s = Ok a s' -> I s' /\ Q a.

Abbreviation keeps I m := (hoare I m (fun _ => True)).

(** The operation leaves the chain of compiler frames alone. *)
Definition framesUnchanged {A} (m : M A) : Prop :=
  forall s a s', m s = Ok a s' -> compiler s' = compiler s.

Definition withFrames (s : State) (frames : list Compiler) : State :=
  mkState (scanner s) (parser s) frames (vmStack s) (stderr s).

Definition withFunction (c : Compiler) (f : ObjFunction) : Compiler :=
  mkCompiler f (locals c) (scopeDepth c).

(** The function after [emitByte(byte)] with [parser.previous.line = ln]. *)
Definition emitted (f : ObjFunction) (byte ln : Z) : ObjFunction :=
  mkFunction (code f ++ [byte]) (codeLines f ++ [ln])
             (if codeCapacity f <? codeCount f + 1
              then (if codeCapacity f =? 0 then 4 else codeCapacity f * 2)
              else codeCapacity f)
             (constants f) (arity f).

(** The function after [v] has been appended to its constant pool. *)
Definition pooled (f : ObjFunction) (v : Value) : ObjFunction :=
  mkFunction (code f) (codeLines f) (codeCapacity f) (constants f ++ [v])
             (arity f).

(** [code] and [codeLines] have the same number of entries. *)
Definition balanced (f : ObjFunction) : Prop :=
  List.length (code f) = List.length (codeLines f).

Section Vocabulary.
Context {ops : OpCodes}.

(** The code ends with [OP_NULL], [OP_RETURN]. *)
Definition terminated (f : ObjFunction) : Prop :=
  exists body, code f = body ++ [OP_NULL; OP_RETURN].

(** Every function reachable from the value is balanced and terminated. *)
Definition complete (v : Value) : Prop :=
  forall g, In g (functionsOfValue v) -> balanced g /\ terminated g.

(** The depths of the locals never decrease from the bottom of the table
    to its top. *)
Definition depthsSorted (ls : list Local) : Prop :=
  forall i j li lj, (i <= j)%nat ->
    nth_error ls i = Some li -> nth_error ls j = Some lj ->
    depth li <= depth lj.

Record frameSound (c : Compiler) : Prop := mkFrameSound {
  sound_balanced : balanced (function c);
  sound_constants : Forall complete (constants (function c));
  sound_sorted : depthsSorted (locals c)
}.

Record frameOK (c : Compiler) : Prop := mkFrameOK {
  ok_sound : frameSound c;
  ok_scoped : Forall (fun l => depth l <= scopeDepth c) (locals c)
}.

(** The invariant of a compilation in progress. *)
Definition consistent (s : State) : Prop := Forall frameOK (compiler s).

End Vocabulary.

(** [refines m m'] says that every result of [m] is a result of [m']. *)
Definition refines {A} (m m' : M A) : Prop :=
  forall s a s', m s = Ok a s' -> m' s = Ok a s'.

(** The unsigned big-endian value of the two bytes at [offset]. *)
Definition operandAt (code : list Z) (offset : Z) : Z :=
  nth (Z.to_nat offset) code 0 * 256 + nth (Z.to_nat (offset + 1)) code 0.

(** The function after [patchJump(offset)]. *)
Definition patched (f : ObjFunction) (offset : Z) : ObjFunction :=
  let jump := codeCount f - offset - 2 in
  mkFunction
    (writeAt (writeAt (code f) (Z.to_nat offset)
                      (Z.land (Z.shiftr jump 8) 255))
             (Z.to_nat (offset + 1)) (Z.land jump 255))
    (codeLines f) (codeCapacity f) (constants f) (arity f).

(** The function after [n] calls of [emitByte(byte)]. *)
Fixpoint emittedRepeat (n : nat) (f : ObjFunction) (byte ln : Z)
  : ObjFunction :=
  match n with
  | O => f
  | S n' => emittedRepeat n' (emitted f byte ln) byte ln
  end.

(** The state after [n] calls of [errorAt(ln, message)]. *)
Definition reported (s : State) (ln : Z) (message : string) (n : nat)
  : State :=
  mkState (scanner s)
          (mkParser (hadError (parser s) || negb (n =? 0)%nat)
                    (current (parser s)) (previous (parser s)))
          (compiler s) (vmStack s)
          (stderr s ++ repeat (ln, message) n).

(** The locals of the current scope (or of a deeper one) that have the
    lexeme of [t]. *)
Definition clashes (c : Compiler) (t : Token) : list Local :=
  filter (fun l => negb (depth l <? scopeDepth c) && sameLexeme t (name l))
         (locals c).

(** How many times the scan of [declareVariable], started below index [i],
    meets the lexeme of [t] before it stops. *)
Fixpoint duplicates (ls : list Local) (i : nat) (d : Z) (t : Token) : nat :=
  match i with
  | O => 0
  | S i' =>
      match nth_error ls i' with
      | Some local =>
          if depth local <? d then 0%nat
          else ((if sameLexeme t (name local) then 1 else 0)
                + duplicates ls i' d t)%nat
      | None => 0%nat
      end
  end.

(** The function of the innermost frame. *)
Definition topFunction (s : State) : option ObjFunction :=
  match compiler s with
  | c :: _ => Some (function c)
  | [] => None
  end.

(** A compiler that has just begun: one frame, nothing emitted. *)
Definition freshState : State :=
  mkState (mkScanner [] 1) (mkParser false zeroToken zeroToken)
          [mkCompiler newFunction [] (-1)] [] [].

(** ** Vocabulary of the further properties *)

Definition nonEmpty {A} (l : list A) : bool :=
  match l with
  | [] => false
  | _ :: _ => true
  end.

(** [follows s s']: what the state outside the compiler frames looks like
    after a run of the parser from [s] to [s'].  The VM stack is as it was;
    the scanner has only handed out tokens; diagnostics have only been
    added, and [hadError] is what it was, or true if one was added. *)
Definition follows (s s' : State) : Prop :=
  vmStack s' = vmStack s /\
  eofLine (scanner s') = eofLine (scanner s) /\
  (exists consumed, pending (scanner s) = consumed ++ pending (scanner s')) /\
  (exists printed,
      stderr s' = stderr s ++ printed /\
      hadError (parser s') = hadError (parser s) || nonEmpty printed).

Definition tracks {A} (m : M A) : Prop :=
  forall s a s', m s = Ok a s' -> follows s s'.

(** [grows f f']: constants have only been appended, the code is not
    shorter, the arity is the same. *)
Definition grows (f f' : ObjFunction) : Prop :=
  (exists more, constants f' = constants f ++ more) /\
  codeCount f <= codeCount f' /\
  arity f' = arity f.

(** [safeRun m s]: from [s], where a frame is current, [m] does nothing
    undefined, and when it returns only the function of the current frame
    has changed among the frames, and it has grown. *)
Definition safeRun {A} (m : M A) (s : State) : Prop :=
  forall c rest,
    compiler s = c :: rest ->
    match m s with
    | Ok _ s' =>
        exists f', compiler s' = withFunction c f' :: rest /\
                   grows (function c) f'
    | OutOfFuel => True
    | Undefined => False
    end.

(** [placeholderAt offset s]: the code of the current function has two
    bytes at [offset]. *)
Definition placeholderAt (offset : Z) (s : State) : Prop :=
  exists c rest,
    compiler s = c :: rest /\
    0 <= offset /\ offset + 2 <= codeCount (function c).

(** [m] is safe wherever there is a placeholder at [offset], and everywhere
    when [offset] is [None]. *)
Definition exprSafe {A} (offset : option Z) (m : M A) : Prop :=
  forall s,
    match offset with
    | Some o => placeholderAt o s
    | None => True
    end -> safeRun m s.

(** The operation always returns. *)
Definition alwaysOk {A} (m : M A) : Prop :=
  forall s, exists a s', m s = Ok a s'.

(** [extends f f']: constants have only been appended and the code is not
    shorter. *)
Definition extends (f f' : ObjFunction) : Prop :=
  (exists more, constants f' = constants f ++ more) /\
  codeCount f <= codeCount f'.

(** [movesRun d m s]: when [m] returns from [s], the enclosing frames are
    as they were, the scope depth of the current frame has moved by [d]
    and its function has been extended. *)
Definition movesRun {A} (d : Z) (m : M A) (s : State) : Prop :=
  forall a s' c rest,
    compiler s = c :: rest -> m s = Ok a s' ->
    exists c',
      compiler s' = c' :: rest /\
      scopeDepth c' = scopeDepth c + d /\
      extends (function c) (function c').

Definition moves {A} (d : Z) (m : M A) : Prop := forall s, movesRun d m s.

(** The table without its last [k] entries. *)
Fixpoint dropLast {A} (k : nat) (l : list A) : list A :=
  match k with
  | O => l
  | S k' => dropLast k' (removelast l)
  end.

(** How many locals the loop of [endScope] removes within [n] rounds when
    the scope depth is [d]. *)
Fixpoint popCount (n : nat) (d : Z) (ls : list Local) : nat :=
  match n with
  | O => 0
  | S n' =>
      match nth_error ls (List.length ls - 1) with
      | Some top =>
          if (Z.of_nat (List.length ls) >? 0) && (depth top >? d)
          then S (popCount n' d (removelast ls))
          else 0%nat
      | None => 0%nat
      end
  end.

(** The state of [compile] just before its first statement: the scanner
    is initialised, the frame of the top-level code is pushed and the first
    token is read. *)
Definition primed (source : Scanner) : State :=
  mkState (mkScanner (tl (pending source)) (eofLine source))
          (mkParser false
                    (hd (mkToken TOKEN_EOF EmptyString (eofLine source))
                        (pending source))
                    zeroToken)
          [mkCompiler newFunction [] (-1)] [] [].

Definition localB : Local := mkLocal (mkToken TOKEN_IDENTIFIER "b" 2) 1.

(** Inside a block at depth 1 that has declared [b], within a block at
    depth 0 that has declared [a]. *)
Definition nestedState : State :=
  mkState (mkScanner [] 3) (mkParser false zeroToken zeroToken)
          [mkCompiler newFunction [localA; localB] 1] [] [].

(** [step s] is 1 when the look-ahead token is a token of the source and 0
    when it is [TOKEN_EOF]; [remaining s] counts the tokens still to be
    read: the look-ahead token, unless it is EOF, and those the scanner
    holds. *)
Definition step (s : State) : Z :=
  if TokenType_eqb (type (current (parser s))) TOKEN_EOF then 0 else 1.

Definition remaining (s : State) : Z :=
  Z.of_nat (List.length (pending (scanner s))) + step s.

(** [runs F L m Q s]: run from [s], the operation returns in a state that
    satisfies [Q]; it runs out of fuel only if [F] and does something
    undefined only if [L]. *)
Definition runs {A} (F L : Prop) (m : M A) (Q : A -> State -> Prop)
           (s : State) : Prop :=
  match m s with
  | Ok a s' => Q a s'
  | OutOfFuel => F
  | Undefined => L
  end.

(** [within rest r n k s]: a frame is current, above the frames [rest]; at
    most [r] tokens remain; the locals of the current frame and the
    remaining tokens are at most [n] together; the current function has at
    least [k] bytes of code. *)
Definition within (rest : list Compiler) (r n k : Z) (s : State) : Prop :=
  exists c,
    compiler s = c :: rest /\
    remaining s <= r /\
    localCount c + remaining s <= n /\
    k <= codeCount (function c).

Definition sameTokens (s s' : State) : Prop :=
  current (parser s') = current (parser s) /\
  previous (parser s') = previous (parser s).

(** An operation that reads no token and declares no local: it always
    returns, and [within] holds afterwards as it did before. *)
Definition steady {A} (m : M A) : Prop :=
  forall F L rest r n k s (Q : A -> State -> Prop),
    within rest r n k s ->
    (forall a s', within rest r n k s' -> sameTokens s s' -> Q a s') ->
    runs F L m Q s.

(** An operation that may read tokens, from a state where at most [R]
    remain. *)
Definition consumes {A} (L : Prop) (R : Z) (m : M A) : Prop :=
  forall rest r n k s (Q : A -> State -> Prop),
    within rest r n k s -> r <= R ->
    (forall a s', within rest r n k s' -> Q a s') ->
    runs False L m Q s.

(** [parsePrecedence] with enough fuel for [R] remaining tokens: it reads
    the look-ahead token, if that is not EOF. *)
Definition parses (L : Prop) (R : Z) (pp : Precedence -> M unit) : Prop :=
  forall precedence rest r n k s (Q : unit -> State -> Prop),
    1 <= precedence ->
    within rest r n k s -> r <= R ->
    (forall s', within rest (r - step s) n k s' -> Q tt s') ->
    runs False L (pp precedence) Q s.

(** [statement] with enough fuel for [R] remaining tokens.  It is undefined
    only where the table of locals is full, which [L] accounts for. *)
Definition executes (L : Prop) (R : Z) (st : M unit) : Prop :=
  forall rest r n k s (Q : unit -> State -> Prop),
    within rest r n k s -> r <= R ->
    (MAX_LOCALS <= n -> L) ->
    (forall s', within rest (r - step s) n k s' -> Q tt s') ->
    runs False L st Q s.


(** [scope rest d ls s]: the current frame, above the frames [rest], is at
    scope depth [d] and its locals are [ls]. *)
Definition scope (rest : list Compiler) (d : Z) (ls : list Local)
           (s : State) : Prop :=
  exists c, compiler s = c :: rest /\ scopeDepth c = d /\ locals c = ls.

(** The depths of the locals are sorted and none is deeper than [d]. *)
Definition tidy (d : Z) (ls : list Local) : Prop :=
  depthsSorted ls /\ Forall (fun l => depth l <= d) ls.

Definition atDepth (d : Z) (ls : list Local) : Prop :=
  Forall (fun l => depth l = d) ls.

(** An operation that leaves the scope depth and the locals alone, when it
    returns. *)
Definition scoped {A} (m : M A) : Prop :=
  forall rest d ls s (Q : A -> State -> Prop),
    scope rest d ls s ->
    (forall a s', scope rest d ls s' -> Q a s') ->
    runs True True m Q s.

(** A statement, when it returns, has only added locals of the depth it
    ran at. *)
Definition declares (st : M unit) : Prop :=
  forall rest d ls s (Q : unit -> State -> Prop),
    scope rest d ls s -> tidy d ls ->
    (forall s' added,
        scope rest d (ls ++ added) s' -> atDepth d added -> Q tt s') ->
    runs True True st Q s.

(** Whether a statement that starts on the look-ahead token of [s] declares
    a local: it is a [var] or [fun] declaration, inside a scope. *)
Definition declaring (d : Z) (s : State) : bool :=
  negb (d =? -1) &&
  (TokenType_eqb (type (current (parser s))) TOKEN_FUN ||
   TokenType_eqb (type (current (parser s))) TOKEN_VAR).


(** [sound P v]: every function reachable from the value has the property
    [P]; [invariant P s]: so has every function reachable from a frame. *)
Definition sound (P : ObjFunction -> Prop) (v : Value) : Prop :=
  forall g, In g (functionsOfValue v) -> P g.

Definition invariant (P : ObjFunction -> Prop) (s : State) : Prop :=
  Forall (fun c => sound P (ObjFun (function c))) (compiler s).

(** The code fits the capacity of its array, and the array is at most
    about twice as large as the code. *)
Definition roomy (f : ObjFunction) : Prop :=
  codeCount f <= codeCapacity f < 2 * codeCount f + 4.


(** The two bytes of a jump operand, high byte first. *)
Definition operandBytes (x : Z) : list Z :=
  [Z.land (Z.shiftr x 8) 255; Z.land x 255].

(** [coded rest cd s]: the code of the current function, in the frame above
    [rest], is [cd]. *)
Definition coded (rest : list Compiler) (cd : list Z) (s : State) : Prop :=
  exists c, compiler s = c :: rest /\ code (function c) = cd.

(** An operation that, when it returns, has only added code at the end of
    the current function. *)
Definition appending {A} (m : M A) : Prop :=
  forall rest cd s (Q : A -> State -> Prop),
    coded rest cd s ->
    (forall a s' more, coded rest (cd ++ more) s' -> Q a s') ->
    runs True True m Q s.


(** Inside the block of [nestedState], with the first token of the source
    read. *)
Definition inBlock (source : Scanner) : State :=
  mkState (mkScanner (tl (pending source)) (eofLine source))
          (mkParser false
                    (hd (mkToken TOKEN_EOF EmptyString (eofLine source))
                        (pending source))
                    zeroToken)
          [mkCompiler newFunction [localA; localB] 1] [] [].


(** A list of lines that never decreases. *)
Fixpoint ascending (l : list Z) : Prop :=
  match l with
  | [] => True
  | x :: rest => Forall (Z.le x) rest /\ ascending rest
  end.

(** The lines of the tokens in the order the parser meets them: the
    previous token, the look-ahead token, the tokens the scanner holds and
    the EOF tokens that follow. *)
Definition tokenLines (s : State) : list Z :=
  line (previous (parser s))
  :: line (current (parser s))
  :: map line (pending (scanner s)) ++ [eofLine (scanner s)].

(** The line table of [f] is ascending and ends at line [ln] at most; the
    line tables of the functions in its constants are ascending. *)
Definition linesUpTo (ln : Z) (f : ObjFunction) : Prop :=
  ascending (codeLines f ++ [ln]) /\
  Forall (sound (fun g => ascending (codeLines g))) (constants f).

Definition linesOK (s : State) : Prop :=
  ascending (tokenLines s) /\
  Forall (fun c => linesUpTo (line (previous (parser s))) (function c))
         (compiler s).

Definition keepsLines {A} (m : M A) : Prop :=
  forall s (Q : A -> State -> Prop),
    linesOK s -> (forall a s', linesOK s' -> Q a s') ->
    runs True True m Q s.

(** No constant of the function is the NULL value. *)
Definition nullFree (f : ObjFunction) : Prop := ~ In NullValue (constants f).

(** Either an error has been reported, or no function reachable from a
    frame has a NULL constant. *)
Definition nullSafe (s : State) : Prop :=
  hadError (parser s) = true \/ invariant nullFree s.

Definition keepsNullSafe {A} (m : M A) : Prop :=
  forall s (Q : A -> State -> Prop),
    nullSafe s -> (forall a s', nullSafe s' -> Q a s') ->
    runs True True m Q s.

(** ** The monad and the primitive operations *)

Lemma bind_Ok {A B} (m : M A) (k : A -> M B) s b s' :
  bind m k s = Ok b s' <-> exists a s1, m s = Ok a s1 /\ k a s1 = Ok b s'.
Proof.
  unfold bind. split.
  - destruct (m s) as [a s1| |] eqn:E; try discriminate.
    intros H. exists a, s1. auto.
  - intros (a & s1 & E & H). rewrite E. exact H.
Qed.

Lemma hoare_ret {A} (I : State -> Prop) (a : A) (Q : A -> Prop) :
  Q a -> hoare I (ret a) Q.
Proof. intros q s a' s' i H. inversion H; subst. auto. Qed.

Lemma hoare_bind {A B} (I : State -> Prop) (m : M A) (k : A -> M B) Q R :
  hoare I m Q -> (forall a, Q a -> hoare I (k a) R) -> hoare I (bind m k) R.
Proof.
  intros Hm Hk s b s' i H. apply bind_Ok in H as (a & s1 & E & H).
  destruct (Hm _ _ _ i E) as [i1 q]. exact (Hk a q _ _ _ i1 H).
Qed.

Lemma hoare_weaken {A} (I : State -> Prop) (m : M A) (Q R : A -> Prop) :
  hoare I m Q -> (forall a, Q a -> R a) -> hoare I m R.
Proof. intros H W s a s' i E. destruct (H _ _ _ i E). auto. Qed.

Lemma hoare_undefined {A} (I : State -> Prop) (Q : A -> Prop) :
  hoare I undefined Q.
Proof. intros s a s' _ H. discriminate. Qed.

Lemma hoare_outOfFuel {A} (I : State -> Prop) (Q : A -> Prop) :
  hoare I outOfFuel Q.
Proof. intros s a s' _ H. discriminate. Qed.

Lemma framesUnchanged_ret {A} (a : A) : framesUnchanged (ret a).
Proof. intros s a' s' H. inversion H; subst. reflexivity. Qed.

Lemma framesUnchanged_bind {A B} (m : M A) (k : A -> M B) :
  framesUnchanged m -> (forall a, framesUnchanged (k a)) ->
  framesUnchanged (bind m k).
Proof.
  intros Hm Hk s b s' H. apply bind_Ok in H as (a & s1 & E & H).
  rewrite (Hk _ _ _ _ H). exact (Hm _ _ _ E).
Qed.

Lemma framesUnchanged_keeps {A} (I : State -> Prop) (m : M A) :
  (forall s s', compiler s' = compiler s -> I s -> I s') ->
  framesUnchanged m -> keeps I m.
Proof. intros HI Hm s a s' i E. split; [|exact Logic.I]. eauto. Qed.

(** Operations of the token stream adapter do not touch the frames. *)

Ltac frames_prim :=
  let s := fresh "s" in let a := fresh "a" in let s' := fresh "s'" in
  let H := fresh "H" in
  intros s a s' H;
  repeat match type of H with
         | context [match ?x with _ => _ end] => destruct x eqn:?
         end;
  try discriminate; inversion H; subst; simpl; congruence.

Lemma framesUnchanged_getParser : framesUnchanged getParser.
Proof. unfold getParser. frames_prim. Qed.

Lemma framesUnchanged_setParser p : framesUnchanged (setParser p).
Proof. unfold setParser. frames_prim. Qed.

Lemma framesUnchanged_getCompiler : framesUnchanged getCompiler.
Proof. unfold getCompiler. frames_prim. Qed.

Lemma framesUnchanged_initScanner source : framesUnchanged (initScanner source).
Proof. unfold initScanner. frames_prim. Qed.

Lemma framesUnchanged_scanToken : framesUnchanged scanToken.
Proof. unfold scanToken. frames_prim. Qed.

Lemma framesUnchanged_push v : framesUnchanged (push v).
Proof. unfold push. frames_prim. Qed.

Lemma framesUnchanged_pop : framesUnchanged pop.
Proof. unfold pop. frames_prim. Qed.

Lemma framesUnchanged_errorAt ln message : framesUnchanged (errorAt ln message).
Proof. unfold errorAt. frames_prim. Qed.

Create HintDb frames.
#[export] Hint Resolve framesUnchanged_ret framesUnchanged_getParser
  framesUnchanged_setParser framesUnchanged_getCompiler
  framesUnchanged_initScanner framesUnchanged_scanToken framesUnchanged_push
  framesUnchanged_pop framesUnchanged_errorAt : frames.

Ltac frames_auto :=
  repeat first
    [ apply framesUnchanged_bind; [ | intros ]
    | match goal with
      | |- framesUnchanged (if ?b then _ else _) => destruct b
      end
    | solve [ auto with frames ] ].

Lemma framesUnchanged_advance : framesUnchanged advance.
Proof. unfold advance. frames_auto. Qed.
#[export] Hint Resolve framesUnchanged_advance : frames.

Lemma framesUnchanged_error message : framesUnchanged (error message).
Proof. unfold error. frames_auto. Qed.
#[export] Hint Resolve framesUnchanged_error : frames.

Lemma framesUnchanged_check t : framesUnchanged (check t).
Proof. unfold check. frames_auto. Qed.
#[export] Hint Resolve framesUnchanged_check : frames.

Lemma framesUnchanged_consume t message : framesUnchanged (consume t message).
Proof. unfold consume. frames_auto. Qed.
#[export] Hint Resolve framesUnchanged_consume : frames.

Lemma framesUnchanged_match t : framesUnchanged (match_ t).
Proof. unfold match_. frames_auto. Qed.
#[export] Hint Resolve framesUnchanged_match : frames.

Section Primitives.
Context {ops : OpCodes}.

Lemma framesUnchanged_resolveLocal t : framesUnchanged (resolveLocal t).
Proof. unfold resolveLocal. frames_auto. Qed.

Lemma framesUnchanged_declareScan ls i d t :
  framesUnchanged (declareScan ls i d t).
Proof.
  induction i as [|i IH]; simpl.
  - auto with frames.
  - destruct (nth_error ls i) as [local|].
    + destruct (depth local <? d); frames_auto; exact IH.
    + intros s a s' H. discriminate.
Qed.

(** What the operations on the current frame do to the state. *)

Lemma getCompiler_Ok s c rest :
  compiler s = c :: rest -> getCompiler s = Ok c s.
Proof. unfold getCompiler. intros ->. reflexivity. Qed.

Lemma getCompiler_inv s c s' :
  getCompiler s = Ok c s' -> s' = s /\ exists rest, compiler s = c :: rest.
Proof.
  unfold getCompiler. destruct (compiler s) as [|c' rest] eqn:E; try discriminate.
  intros H. inversion H; subst. eauto.
Qed.

Lemma setCompiler_Ok s c c' rest :
  compiler s = c :: rest -> setCompiler c' s = Ok tt (withFrames s (c' :: rest)).
Proof. unfold setCompiler. intros ->. reflexivity. Qed.

Lemma setFunction_Ok s c f rest :
  compiler s = c :: rest ->
  setFunction f s = Ok tt (withFrames s (withFunction c f :: rest)).
Proof.
  intros E. unfold setFunction, bind. rewrite (getCompiler_Ok _ _ _ E).
  exact (setCompiler_Ok _ _ _ _ E).
Qed.

Lemma emitByte_Ok s c rest byte :
  compiler s = c :: rest ->
  emitByte byte s =
  Ok tt (withFrames s
           (withFunction c (emitted (function c) byte
                                    (line (previous (parser s)))) :: rest)).
Proof.
  intros E. unfold emitByte, bind, getParser.
  rewrite (getCompiler_Ok _ _ _ E). exact (setFunction_Ok _ _ _ _ E).
Qed.

Lemma emitByte_inv s byte a s' :
  emitByte byte s = Ok a s' ->
  exists c rest, compiler s = c :: rest /\
    s' = withFrames s
           (withFunction c (emitted (function c) byte
                                    (line (previous (parser s)))) :: rest).
Proof.
  destruct (compiler s) as [|c rest] eqn:E.
  - unfold emitByte, bind, getCompiler. rewrite E. discriminate.
  - rewrite (emitByte_Ok _ _ _ _ E). intros H. inversion H. eauto.
Qed.

End Primitives.
#[export] Hint Resolve framesUnchanged_resolveLocal
  framesUnchanged_declareScan : frames.

(** ** The invariant is kept by the emitter *)

Section EmitterInvariant.
Context {ops : OpCodes}.

Lemma consistent_frames s s' :
  compiler s' = compiler s -> consistent s -> consistent s'.
Proof. unfold consistent. intros ->. auto. Qed.

Lemma keeps_unchanged {A} (m : M A) :
  framesUnchanged m -> keeps consistent m.
Proof. apply framesUnchanged_keeps. exact consistent_frames. Qed.

Lemma consistent_top s c c' rest :
  compiler s = c :: rest -> consistent s -> frameOK c' ->
  consistent (withFrames s (c' :: rest)).
Proof.
  unfold consistent. intros E H ok. rewrite E in H. inversion H; subst.
  simpl. constructor; assumption.
Qed.

Lemma frameSound_withFunction c f :
  frameSound c -> balanced f -> Forall complete (constants f) ->
  frameSound (withFunction c f).
Proof. intros [b k d] bf kf. constructor; simpl; assumption. Qed.

Lemma frameOK_withFunction c f :
  frameOK c -> balanced f -> Forall complete (constants f) ->
  frameOK (withFunction c f).
Proof.
  intros [sd sc] bf kf. constructor.
  - apply frameSound_withFunction; assumption.
  - exact sc.
Qed.

Lemma balanced_emitted f byte ln : balanced f -> balanced (emitted f byte ln).
Proof.
  unfold balanced, emitted. simpl. intros H.
  rewrite !length_app, H. reflexivity.
Qed.

Lemma writeAt_length {A} (l : list A) i v :
  List.length (writeAt l i v) = List.length l.
Proof.
  revert i. induction l as [|x l IH]; intros [|i]; simpl; auto.
Qed.

Lemma keeps_emitByte byte : keeps consistent (emitByte byte).
Proof.
  intros s a s' i H. apply emitByte_inv in H as (c & rest & E & ->).
  split; [|exact I].
  apply (consistent_top _ _ _ _ E i).
  unfold consistent in i. rewrite E in i. inversion i; subst.
  apply frameOK_withFunction; auto.
  - apply balanced_emitted. apply H1.
  - apply H1.
Qed.

Lemma keeps_getCompiler : hoare consistent getCompiler frameOK.
Proof.
  intros s c s' i H. apply getCompiler_inv in H as (-> & rest & E).
  split; [exact i|]. unfold consistent in i. rewrite E in i.
  inversion i; assumption.
Qed.

Lemma keeps_setFunction f :
  balanced f -> Forall complete (constants f) ->
  keeps consistent (setFunction f).
Proof.
  intros bf kf s a s' i H.
  destruct (compiler s) as [|c rest] eqn:E.
  - unfold setFunction, bind, getCompiler in H. rewrite E in H. discriminate.
  - rewrite (setFunction_Ok _ _ _ _ E) in H. inversion H; subst.
    split; [|exact I]. apply (consistent_top _ _ _ _ E i).
    unfold consistent in i. rewrite E in i. inversion i; subst.
    apply frameOK_withFunction; assumption.
Qed.

Lemma keeps_setCompiler c : frameOK c -> keeps consistent (setCompiler c).
Proof.
  intros ok s a s' i H. unfold setCompiler in H.
  destruct (compiler s) as [|c0 rest] eqn:E; try discriminate.
  inversion H; subst. split; [|exact I].
  exact (consistent_top _ _ _ _ E i ok).
Qed.

End EmitterInvariant.

Create HintDb hoare.
#[export] Hint Resolve hoare_undefined hoare_outOfFuel keeps_emitByte
  keeps_getCompiler : hoare.
#[export] Hint Extern 1 (hoare consistent _ _) =>
  (apply keeps_unchanged; solve [ auto with frames ]) : hoare.

(** One step of a proof of a triple: split a [bind], take a branch, or
    close the goal with a triple that is already known. *)
Ltac hoare_step :=
  match goal with
  | |- hoare _ (bind _ _) _ => eapply hoare_bind; [ | intros ]
  | |- hoare _ (ret _) _ => apply hoare_ret
  | |- hoare _ (if ?b then _ else _) _ => destruct b eqn:?
  | |- hoare _ (let '(_, _) := ?r in _) _ => destruct r
  | |- hoare _ _ (fun _ => True) => solve [ eauto with hoare ]
  | |- hoare _ _ ?Q =>
      solve [ eauto with hoare
            | eapply hoare_weaken; [ solve [ eauto with hoare ] | auto ] ]
  | |- True => exact I
  end.

Ltac hoare_auto := repeat hoare_step.

Section EmitterTriples.
Context {ops : OpCodes}.

Lemma keeps_emitBytes byte1 byte2 : keeps consistent (emitBytes byte1 byte2).
Proof. unfold emitBytes. hoare_auto. Qed.

Lemma keeps_emitLoop loopStart : keeps consistent (emitLoop loopStart).
Proof. unfold emitLoop. hoare_auto. Qed.

Lemma keeps_emitJump instruction : keeps consistent (emitJump instruction).
Proof. unfold emitJump. hoare_auto. Qed.

Lemma keeps_storeCode offset byte : keeps consistent (storeCode offset byte).
Proof.
  unfold storeCode. hoare_auto.
  apply keeps_setFunction.
  - unfold balanced. simpl. rewrite writeAt_length. apply H.
  - apply H.
Qed.
#[local] Hint Resolve keeps_storeCode : hoare.

Lemma keeps_patchJump offset : keeps consistent (patchJump offset).
Proof. unfold patchJump. hoare_auto. Qed.

Lemma frameOK_fresh : frameOK (mkCompiler newFunction [] (-1)).
Proof.
  repeat constructor; simpl.
  intros i j li lj _ H. destruct i; discriminate.
Qed.

Lemma keeps_beginCompiler : keeps consistent beginCompiler.
Proof.
  intros s a s' i H. unfold beginCompiler in H. inversion H; subst.
  split; [|exact I]. unfold consistent. simpl.
  constructor; [exact frameOK_fresh | exact i].
Qed.

Lemma keeps_leaveCompiler : keeps consistent leaveCompiler.
Proof.
  intros s a s' i H. unfold leaveCompiler in H.
  destruct (compiler s) as [|c rest] eqn:E; try discriminate.
  inversion H; subst. split; [|exact I].
  unfold consistent in *. simpl. rewrite E in i. inversion i; assumption.
Qed.

Lemma keeps_beginScope : keeps consistent beginScope.
Proof.
  unfold beginScope. hoare_auto. apply keeps_setCompiler.
  destruct H as [sd sc]. constructor.
  - destruct sd. constructor; assumption.
  - simpl. eapply Forall_impl; [|exact sc]. simpl. intros. lia.
Qed.

End EmitterTriples.
#[export] Hint Resolve keeps_emitBytes keeps_emitLoop keeps_emitJump
  keeps_storeCode keeps_patchJump keeps_beginCompiler keeps_leaveCompiler
  keeps_beginScope : hoare.

(** ** Constants and finished functions *)

Section ConstantsInvariant.
Context {ops : OpCodes}.

Lemma functionsOf_unfold f :
  functionsOf f = f :: flat_map functionsOfValue (constants f).
Proof.
  unfold functionsOf. simpl.
  apply (f_equal (cons f)).
  generalize (constants f). intros vs.
  induction vs as [|v vs IH]; simpl; [reflexivity|].
  rewrite IH. reflexivity.
Qed.

Lemma complete_function f :
  balanced f -> terminated f -> Forall complete (constants f) ->
  complete (ObjFun f).
Proof.
  intros b t k g Hg. change (In g (functionsOf f)) in Hg.
  rewrite functionsOf_unfold in Hg. destruct Hg as [<-|Hg]; [auto|].
  apply in_flat_map in Hg as (v & Hv & Hg).
  rewrite Forall_forall in k. exact (k v Hv g Hg).
Qed.

Lemma complete_atom v :
  functionsOfValue v = [] -> complete v.
Proof. intros E g Hg. rewrite E in Hg. destruct Hg. Qed.

Lemma addConstant_Ok s c rest v :
  compiler s = c :: rest ->
  addConstant v s =
  Ok (uint8_t (Z.of_nat (List.length (constants (function c) ++ [v]))))
     (withFrames s (withFunction c (pooled (function c) v) :: rest)).
Proof.
  intros E. unfold addConstant, bind, push, getCompiler, pop. simpl.
  rewrite E. unfold setFunction, bind, getCompiler, setCompiler. simpl.
  reflexivity.
Qed.

Lemma keeps_addConstant v : complete v -> keeps consistent (addConstant v).
Proof.
  intros kv s a s' i H. destruct (compiler s) as [|c rest] eqn:E.
  - unfold addConstant, bind, push, getCompiler in H. simpl in H.
    rewrite E in H. discriminate.
  - rewrite (addConstant_Ok _ _ _ _ E) in H. inversion H; subst.
    split; [|exact I]. apply (consistent_top _ _ _ _ E i).
    unfold consistent in i. rewrite E in i. inversion i; subst.
    apply frameOK_withFunction; auto.
    + apply H2.
    + simpl. apply Forall_app. split; [apply H2|]. constructor; auto.
Qed.

Lemma keeps_nameConstant : keeps consistent nameConstant.
Proof.
  unfold nameConstant. hoare_auto. apply keeps_addConstant.
  apply complete_atom. reflexivity.
Qed.

Lemma keeps_emitConstant v : complete v -> keeps consistent (emitConstant v).
Proof.
  intros kv. unfold emitConstant. hoare_auto. apply keeps_addConstant, kv.
Qed.

Lemma endCompiler_Ok s c rest :
  compiler s = c :: rest ->
  endCompiler s =
  Ok (if hadError (parser s) then None
      else Some (emitted (emitted (function c) OP_NULL
                                  (line (previous (parser s))))
                         OP_RETURN (line (previous (parser s)))))
     (withFrames s rest).
Proof.
  intros E. unfold endCompiler, emitBytes.
  unfold bind at 1. unfold bind at 1.
  rewrite (emitByte_Ok _ _ _ _ E).
  erewrite emitByte_Ok by reflexivity.
  unfold bind, getCompiler, leaveCompiler, getParser. simpl.
  destruct (hadError (parser s)); reflexivity.
Qed.

Lemma terminated_emitted f ln ln' :
  terminated (emitted (emitted f OP_NULL ln) OP_RETURN ln').
Proof.
  exists (code f). simpl. rewrite <- app_assoc. reflexivity.
Qed.

Lemma keeps_endCompiler :
  hoare consistent endCompiler (fun r => complete (functionValue r)).
Proof.
  intros s a s' i H. destruct (compiler s) as [|c rest] eqn:E.
  - unfold endCompiler, emitBytes, emitByte, bind, getCompiler in H.
    rewrite E in H. discriminate.
  - rewrite (endCompiler_Ok _ _ _ E) in H. inversion H; subst. clear H.
    unfold consistent in *. rewrite E in i. inversion i; subst.
    split; [assumption|].
    destruct (hadError (parser s)); simpl.
    + apply complete_atom. reflexivity.
    + apply complete_function.
      * apply balanced_emitted, balanced_emitted, H1.
      * apply terminated_emitted.
      * simpl. apply H1.
Qed.

End ConstantsInvariant.
#[export] Hint Resolve keeps_nameConstant keeps_endCompiler : hoare.
#[export] Hint Resolve keeps_emitConstant keeps_addConstant : hoare.

(** ** Scopes and declarations *)

Section ScopeInvariant.
Context {ops : OpCodes}.

Lemma nth_error_removelast {A} (l : list A) i x :
  nth_error (removelast l) i = Some x -> nth_error l i = Some x.
Proof.
  revert i. induction l as [|y l IH]; intros i H; [destruct i; discriminate|].
  destruct l as [|z l]; [destruct i; discriminate|].
  destruct i as [|i]; [exact H|]. simpl in H |- *. apply IH. exact H.
Qed.

Lemma length_removelast {A} (l : list A) :
  List.length (removelast l) = (List.length l - 1)%nat.
Proof.
  induction l as [|y l IH]; [reflexivity|].
  destruct l as [|z l]; [reflexivity|].
  change (S (List.length (removelast (z :: l))) = (S (S (List.length l)) - 1)%nat).
  rewrite IH. simpl. lia.
Qed.

Lemma depthsSorted_removelast ls :
  depthsSorted ls -> depthsSorted (removelast ls).
Proof.
  intros H i j li lj le Hi Hj.
  apply nth_error_removelast in Hi, Hj. exact (H i j li lj le Hi Hj).
Qed.

Lemma depthsSorted_below_top ls top d :
  depthsSorted ls ->
  nth_error ls (List.length ls - 1) = Some top -> depth top <= d ->
  Forall (fun l => depth l <= d) ls.
Proof.
  intros H T le. apply Forall_forall. intros l Hl.
  apply In_nth_error in Hl as [i Hi].
  assert (i < List.length ls)%nat
    by (apply nth_error_Some; rewrite Hi; discriminate).
  assert (depth l <= depth top) by (apply (H i (List.length ls - 1)%nat); auto; lia).
  lia.
Qed.

Lemma depthsSorted_app ls l :
  depthsSorted ls -> Forall (fun l' => depth l' <= depth l) ls ->
  depthsSorted (ls ++ [l]).
Proof.
  intros H B i j li lj le Hi Hj.
  destruct (Nat.lt_ge_cases j (List.length ls)) as [lt|ge].
  - rewrite nth_error_app1 in Hi, Hj by lia. exact (H i j li lj le Hi Hj).
  - rewrite nth_error_app2 in Hj by lia.
    destruct (j - List.length ls)%nat as [|k] eqn:K;
      [|destruct k; discriminate].
    inversion Hj; subst lj.
    destruct (Nat.lt_ge_cases i (List.length ls)) as [lti|gei].
    + rewrite nth_error_app1 in Hi by lia.
      rewrite Forall_forall in B. apply B. eapply nth_error_In, Hi.
    + rewrite nth_error_app2 in Hi by lia.
      destruct (i - List.length ls)%nat as [|k'] eqn:K';
        [|destruct k'; discriminate].
      inversion Hi; subst. lia.
Qed.

Lemma endScopeLoop_consistent n :
  forall s c rest a s',
    compiler s = c :: rest -> frameSound c -> Forall frameOK rest ->
    (List.length (locals c) <= n)%nat ->
    endScopeLoop n s = Ok a s' -> consistent s'.
Proof.
  induction n as [|n IH]; intros s c rest a s' E sd okr len H.
  - simpl in H. inversion H; subst. unfold consistent. rewrite E.
    constructor; [|exact okr]. constructor; [exact sd|].
    destruct (locals c); [constructor|simpl in len; lia].
  - simpl in H. unfold bind at 1 in H. rewrite (getCompiler_Ok _ _ _ E) in H.
    destruct (nth_error (locals c) (List.length (locals c) - 1))
      as [top|] eqn:T.
    + destruct ((localCount c >? 0) && (depth top >? scopeDepth c)) eqn:C.
      * unfold bind at 1 in H. rewrite (emitByte_Ok _ _ _ _ E) in H.
        unfold bind at 1 in H.
        erewrite getCompiler_Ok in H by reflexivity.
        unfold bind at 1 in H.
        erewrite setCompiler_Ok in H by reflexivity.
        eapply IH in H; [exact H|reflexivity| |exact okr|].
        -- destruct sd as [b k d]. constructor; simpl.
           ++ apply balanced_emitted, b.
           ++ exact k.
           ++ apply depthsSorted_removelast, d.
        -- simpl. rewrite length_removelast. lia.
      * inversion H; subst. unfold consistent. rewrite E.
        constructor; [|exact okr]. constructor; [exact sd|].
        apply (depthsSorted_below_top _ top); [apply sd|exact T|].
        apply andb_false_iff in C as [C|C].
        -- assert (List.length (locals c) <> 0)%nat.
           { intros Z0. destruct (locals c); [discriminate|discriminate]. }
           unfold localCount in C. lia.
        -- lia.
    + inversion H; subst. unfold consistent. rewrite E.
      constructor; [|exact okr]. constructor; [exact sd|].
      apply nth_error_None in T.
      destruct (locals c); [constructor|simpl in T; lia].
Qed.

Lemma keeps_endScope : keeps consistent endScope.
Proof.
  intros s a s' i H. split; [|exact I]. unfold endScope in H.
  destruct (compiler s) as [|c rest] eqn:E.
  - unfold bind, getCompiler in H. rewrite E in H. discriminate.
  - unfold bind at 1 in H. rewrite (getCompiler_Ok _ _ _ E) in H.
    unfold bind at 1 in H. rewrite (setCompiler_Ok _ _ _ _ E) in H.
    unfold consistent in i. rewrite E in i. inversion i; subst.
    eapply endScopeLoop_consistent in H; [exact H|reflexivity| |assumption|].
    + destruct H2 as [[b k d] _]. constructor; assumption.
    + simpl. lia.
Qed.

Lemma keeps_declareVariable t constant :
  keeps consistent (declareVariable t constant).
Proof.
  unfold declareVariable. hoare_auto.
  apply keeps_setCompiler. destruct H1 as [[b k d] sc].
  constructor; [constructor|]; simpl; try assumption.
  - apply depthsSorted_app; assumption.
  - apply Forall_app. split; [assumption|]. constructor; [simpl; lia|constructor].
Qed.

Lemma keeps_parseVariable message constant :
  keeps consistent (parseVariable message constant).
Proof. unfold parseVariable. hoare_auto. Qed.

End ScopeInvariant.
#[export] Hint Resolve keeps_endScope keeps_declareVariable
  keeps_parseVariable : hoare.

(** ** The invariant is kept by the parser *)

Ltac hoare_cases :=
  repeat first
    [ hoare_step
    | match goal with
      | |- hoare _ (match ?x with _ => _ end) _ => destruct x eqn:?
      end ].

Section ExpressionInvariant.
Context {ops : OpCodes}.
Variable parsePrecedence : Precedence -> M unit.
Hypothesis keeps_recursive :
  forall precedence, keeps consistent (parsePrecedence precedence).

Lemma keeps_expression : keeps consistent (expression parsePrecedence).
Proof. apply keeps_recursive. Qed.
Hint Resolve keeps_expression : hoare.

Lemma keeps_and canAssign : keeps consistent (and_ parsePrecedence canAssign).
Proof. unfold and_. hoare_cases. Qed.

Lemma keeps_binary canAssign :
  keeps consistent (binary parsePrecedence canAssign).
Proof. unfold binary. hoare_cases. Qed.

Lemma keeps_boolean canAssign : keeps consistent (boolean canAssign).
Proof.
  unfold boolean. hoare_cases. apply keeps_emitConstant, complete_atom.
  reflexivity.
Qed.

Lemma keeps_callArguments fuel :
  forall argCount,
    keeps consistent (callArguments parsePrecedence fuel argCount).
Proof.
  induction fuel as [|fuel IH]; intros argCount; simpl; hoare_cases.
Qed.
Hint Resolve keeps_callArguments : hoare.

Lemma keeps_call fuel canAssign :
  keeps consistent (call parsePrecedence fuel canAssign).
Proof. unfold call. hoare_cases. Qed.

Lemma keeps_grouping canAssign :
  keeps consistent (grouping parsePrecedence canAssign).
Proof. unfold grouping. hoare_cases. Qed.

Lemma keeps_null canAssign : keeps consistent (null_ canAssign).
Proof. unfold null_. hoare_cases. Qed.

Lemma keeps_number canAssign : keeps consistent (number canAssign).
Proof.
  unfold number. hoare_cases. apply keeps_emitConstant, complete_atom.
  reflexivity.
Qed.

Lemma keeps_or canAssign : keeps consistent (or_ parsePrecedence canAssign).
Proof. unfold or_. hoare_cases. Qed.

Lemma keeps_string canAssign : keeps consistent (string_ canAssign).
Proof.
  unfold string_. hoare_cases. apply keeps_emitConstant, complete_atom.
  reflexivity.
Qed.

Lemma keeps_unary canAssign :
  keeps consistent (unary parsePrecedence canAssign).
Proof. unfold unary. hoare_cases. Qed.

Lemma keeps_variable canAssign :
  keeps consistent (variable parsePrecedence canAssign).
Proof. unfold variable. hoare_cases. Qed.

Hint Resolve keeps_and keeps_binary keeps_boolean keeps_call keeps_grouping
  keeps_null keeps_number keeps_or keeps_string keeps_unary keeps_variable
  : hoare.

Lemma keeps_callParseFn fuel fn canAssign :
  keeps consistent (callParseFn parsePrecedence fuel fn canAssign).
Proof. unfold callParseFn. hoare_cases. Qed.
Hint Resolve keeps_callParseFn : hoare.

Lemma keeps_infixLoop fuel :
  forall precedence canAssign,
    keeps consistent (infixLoop parsePrecedence fuel precedence canAssign).
Proof.
  induction fuel as [|fuel IH]; intros precedence canAssign; simpl;
    hoare_cases.
Qed.
Hint Resolve keeps_infixLoop : hoare.

Lemma keeps_parsePrecedenceBody fuel precedence :
  keeps consistent (parsePrecedenceBody parsePrecedence fuel precedence).
Proof. unfold parsePrecedenceBody. hoare_cases. Qed.

End ExpressionInvariant.

Section ParserInvariant.
Context {ops : OpCodes}.

Lemma keeps_parsePrecedence fuel :
  forall precedence, keeps consistent (parsePrecedence fuel precedence).
Proof.
  induction fuel as [|fuel IH]; intros precedence; simpl.
  - apply hoare_outOfFuel.
  - apply keeps_parsePrecedenceBody. exact IH.
Qed.

End ParserInvariant.
#[export] Hint Resolve keeps_parsePrecedence : hoare.

Section StatementInvariant.
Context {ops : OpCodes}.

Lemma keeps_returnStatement fuel : keeps consistent (returnStatement fuel).
Proof. unfold returnStatement, expression. hoare_cases. Qed.

Lemma keeps_varStatement fuel : keeps consistent (varStatement fuel).
Proof. unfold varStatement, expression. hoare_cases. Qed.

Lemma keeps_parameters fuel :
  forall paramConstant, keeps consistent (parameters fuel paramConstant).
Proof.
  induction fuel as [|fuel IH]; intros paramConstant; simpl; hoare_cases.
  apply keeps_setFunction; simpl; apply H1.
Qed.
Hint Resolve keeps_returnStatement keeps_varStatement keeps_parameters
  : hoare.

Variable statement : M unit.
Hypothesis keeps_recursive : keeps consistent statement.

Lemma keeps_blockLoop fuel : keeps consistent (blockLoop statement fuel).
Proof. induction fuel as [|fuel IH]; simpl; hoare_cases. Qed.
Hint Resolve keeps_blockLoop : hoare.

Lemma keeps_block fuel : keeps consistent (block statement fuel).
Proof. unfold block. hoare_cases. Qed.
Hint Resolve keeps_block : hoare.

Lemma keeps_funStatement fuel :
  keeps consistent (funStatement statement fuel).
Proof. unfold funStatement. hoare_cases. Qed.

Lemma keeps_ifStatement fuel : keeps consistent (ifStatement statement fuel).
Proof. unfold ifStatement, expression. hoare_cases. Qed.

Lemma keeps_whileStatement fuel :
  keeps consistent (whileStatement statement fuel).
Proof. unfold whileStatement, expression. hoare_cases. Qed.
Hint Resolve keeps_funStatement keeps_ifStatement keeps_whileStatement
  : hoare.

Lemma keeps_statementBody fuel :
  keeps consistent (statementBody statement fuel).
Proof. unfold statementBody, expression. hoare_cases. Qed.

End StatementInvariant.

Section CompileInvariant.
Context {ops : OpCodes}.

Lemma keeps_statement fuel : keeps consistent (statement fuel).
Proof.
  induction fuel as [|fuel IH]; simpl.
  - apply hoare_outOfFuel.
  - apply keeps_statementBody. exact IH.
Qed.
Hint Resolve keeps_statement : hoare.

Lemma keeps_compileLoop fuel : keeps consistent (compileLoop fuel).
Proof. induction fuel as [|fuel IH]; simpl; hoare_cases. Qed.
Hint Resolve keeps_compileLoop : hoare.

Lemma compile_complete fuel source :
  hoare consistent (compile fuel source)
        (fun r => complete (functionValue r)).
Proof. unfold compile. hoare_cases. Qed.

End CompileInvariant.
#[export] Hint Resolve keeps_statement keeps_compileLoop : hoare.

(** ** More fuel does not change a result

    The recursive functions with less fuel are refined by the same
    functions with more fuel, so a result found with some fuel is the
    result for every larger fuel. *)

Lemma refines_refl {A} (m : M A) : refines m m.
Proof. intros s a s' H. exact H. Qed.

Lemma refines_bind {A B} (m m' : M A) (k k' : A -> M B) :
  refines m m' -> (forall a, refines (k a) (k' a)) ->
  refines (bind m k) (bind m' k').
Proof.
  intros Hm Hk s b s' H. apply bind_Ok in H as (a & s1 & E & H).
  apply bind_Ok. exists a, s1. split; [apply Hm, E|apply Hk, H].
Qed.

Lemma refines_outOfFuel {A} (m : M A) : refines outOfFuel m.
Proof. intros s a s' H. discriminate. Qed.

Create HintDb refines.
#[export] Hint Resolve refines_refl refines_outOfFuel : refines.

Ltac refines_step :=
  match goal with
  | |- refines ?m ?m => apply refines_refl
  | |- refines (bind _ _) (bind _ _) => apply refines_bind; [ | intros ]
  | |- refines (if ?b then _ else _) (if ?b then _ else _) => destruct b
  | |- refines (match ?x with _ => _ end) (match ?x with _ => _ end) =>
      destruct x
  | |- refines _ _ => solve [ eauto with refines ]
  end.

Ltac refines_auto := repeat refines_step.

Section ExpressionFuel.
Context {ops : OpCodes}.
Variables pp pp' : Precedence -> M unit.
Hypothesis pp_refines : forall precedence, refines (pp precedence) (pp' precedence).

Lemma refines_callArguments fuel :
  forall fuel' argCount, (fuel <= fuel')%nat ->
    refines (callArguments pp fuel argCount) (callArguments pp' fuel' argCount).
Proof.
  induction fuel as [|fuel IH]; intros fuel' argCount le; simpl.
  - apply refines_outOfFuel.
  - destruct fuel' as [|fuel']; [lia|]. simpl. unfold expression.
    refines_auto. apply IH. lia.
Qed.

Lemma refines_callParseFn fuel fuel' fn canAssign :
  (fuel <= fuel')%nat ->
  refines (callParseFn pp fuel fn canAssign) (callParseFn pp' fuel' fn canAssign).
Proof.
  intros le. pose proof (refines_callArguments fuel fuel') as Hargs.
  unfold callParseFn, grouping, call, unary, binary, variable, and_, or_,
    expression.
  refines_auto.
Qed.

Lemma refines_infixLoop fuel :
  forall fuel' precedence canAssign, (fuel <= fuel')%nat ->
    refines (infixLoop pp fuel precedence canAssign)
            (infixLoop pp' fuel' precedence canAssign).
Proof.
  induction fuel as [|fuel IH]; intros fuel' precedence canAssign le; simpl.
  - apply refines_outOfFuel.
  - destruct fuel' as [|fuel']; [lia|]. simpl.
    assert (fuel <= fuel')%nat by lia.
    pose proof (refines_callParseFn fuel fuel').
    refines_auto.
Qed.

Lemma refines_parsePrecedenceBody fuel fuel' precedence :
  (fuel <= fuel')%nat ->
  refines (parsePrecedenceBody pp fuel precedence)
          (parsePrecedenceBody pp' fuel' precedence).
Proof.
  intros le. unfold parsePrecedenceBody.
  pose proof (refines_callParseFn fuel fuel').
  pose proof (refines_infixLoop fuel fuel').
  refines_auto.
Qed.

End ExpressionFuel.

Section ParserFuel.
Context {ops : OpCodes}.

Lemma refines_parsePrecedence fuel :
  forall fuel' precedence, (fuel <= fuel')%nat ->
    refines (parsePrecedence fuel precedence)
            (parsePrecedence fuel' precedence).
Proof.
  induction fuel as [|fuel IH]; intros fuel' precedence le; simpl.
  - apply refines_outOfFuel.
  - destruct fuel' as [|fuel']; [lia|]. simpl.
    apply refines_parsePrecedenceBody; [|lia].
    intros precedence'. apply IH. lia.
Qed.

End ParserFuel.

Section StatementFuel.
Context {ops : OpCodes}.

Lemma refines_parameters fuel :
  forall fuel' paramConstant, (fuel <= fuel')%nat ->
    refines (parameters fuel paramConstant) (parameters fuel' paramConstant).
Proof.
  induction fuel as [|fuel IH]; intros fuel' paramConstant le; simpl.
  - apply refines_outOfFuel.
  - destruct fuel' as [|fuel']; [lia|]. simpl. refines_auto.
    apply IH. lia.
Qed.

Variables st st' : M unit.
Hypothesis st_refines : refines st st'.

Lemma refines_blockLoop fuel :
  forall fuel', (fuel <= fuel')%nat ->
    refines (blockLoop st fuel) (blockLoop st' fuel').
Proof.
  induction fuel as [|fuel IH]; intros fuel' le; simpl.
  - apply refines_outOfFuel.
  - destruct fuel' as [|fuel']; [lia|]. simpl. refines_auto.
    apply IH. lia.
Qed.

Lemma refines_statementBody fuel fuel' :
  (fuel <= fuel')%nat ->
  refines (statementBody st fuel) (statementBody st' fuel').
Proof.
  intros le.
  pose proof (refines_blockLoop fuel fuel' le).
  pose proof (refines_parameters fuel fuel').
  pose proof (refines_parsePrecedence fuel fuel').
  unfold statementBody, funStatement, ifStatement, returnStatement,
    varStatement, whileStatement, block, expression.
  refines_auto.
Qed.

End StatementFuel.

Section CompileFuel.
Context {ops : OpCodes}.

Lemma refines_statement fuel :
  forall fuel', (fuel <= fuel')%nat ->
    refines (statement fuel) (statement fuel').
Proof.
  induction fuel as [|fuel IH]; intros fuel' le; simpl.
  - apply refines_outOfFuel.
  - destruct fuel' as [|fuel']; [lia|]. simpl.
    apply refines_statementBody; [|lia]. apply IH. lia.
Qed.

Lemma refines_compileLoop fuel :
  forall fuel', (fuel <= fuel')%nat ->
    refines (compileLoop fuel) (compileLoop fuel').
Proof.
  induction fuel as [|fuel IH]; intros fuel' le; simpl.
  - apply refines_outOfFuel.
  - destruct fuel' as [|fuel']; [lia|]. simpl.
    assert (fuel <= fuel')%nat as le' by lia.
    pose proof (refines_statement fuel fuel' le').
    pose proof (IH fuel' le').
    refines_auto.
Qed.

(** A result of [compile] does not depend on the fuel that found it. *)
Lemma compile_fuel fuel fuel' source s r s' :
  (fuel <= fuel')%nat ->
  compile fuel source s = Ok r s' -> compile fuel' source s = Ok r s'.
Proof.
  intros le. revert s r s'. change (refines (compile fuel source) (compile fuel' source)).
  unfold compile. pose proof (refines_compileLoop fuel fuel' le).
  refines_auto.
Qed.

End CompileFuel.

(** ** Jump operands *)

Lemma nth_writeAt_same {A} (l : list A) i v d :
  (i < List.length l)%nat -> nth i (writeAt l i v) d = v.
Proof.
  revert i. induction l as [|x l IH]; intros [|i] lt; simpl in *;
    try lia; auto. apply IH. lia.
Qed.

Lemma nth_writeAt_other {A} (l : list A) i j v d :
  i <> j -> nth j (writeAt l i v) d = nth j l d.
Proof.
  revert i j. induction l as [|x l IH]; intros [|i] [|j] ne; simpl;
    try reflexivity; try congruence. apply IH. congruence.
Qed.

Lemma two_bytes_big_endian n :
  Z.land (Z.shiftr n 8) 255 * 256 + Z.land n 255 = n mod 65536.
Proof.
  change 255 with (Z.ones 8). rewrite !Z.land_ones by lia.
  rewrite Z.shiftr_div_pow2 by lia.
  change (2 ^ 8) with 256. change 65536 with (256 * 256).
  rewrite Z.rem_mul_r by lia. lia.
Qed.

Lemma operandAt_writes code offset hi lo :
  0 <= offset -> offset + 2 <= Z.of_nat (List.length code) ->
  operandAt (writeAt (writeAt code (Z.to_nat offset) hi)
                     (Z.to_nat (offset + 1)) lo) offset
  = hi * 256 + lo.
Proof.
  intros ge le. unfold operandAt.
  rewrite nth_writeAt_other by lia.
  rewrite nth_writeAt_same by lia.
  rewrite nth_writeAt_same by (rewrite writeAt_length; lia).
  reflexivity.
Qed.

Section JumpOperands.
Context {ops : OpCodes}.

Lemma storeCode_Ok s c rest offset byte :
  compiler s = c :: rest ->
  0 <= offset < codeCount (function c) ->
  storeCode offset byte s =
  Ok tt (withFrames s
           (withFunction c
              (mkFunction (writeAt (code (function c)) (Z.to_nat offset) byte)
                          (codeLines (function c)) (codeCapacity (function c))
                          (constants (function c)) (arity (function c)))
            :: rest)).
Proof.
  intros E range. unfold storeCode, bind.
  rewrite (getCompiler_Ok _ _ _ E).
  replace ((0 <=? offset) && (offset <? codeCount (function c))) with true
    by (symmetry; apply andb_true_iff; lia).
  exact (setFunction_Ok _ _ _ _ E).
Qed.

Lemma patchJump_Ok s c rest offset :
  compiler s = c :: rest ->
  0 <= offset -> offset + 2 <= codeCount (function c) ->
  patchJump offset s =
  Ok tt (withFrames s (withFunction c (patched (function c) offset) :: rest)).
Proof.
  intros E ge le. unfold patchJump, bind at 1.
  rewrite (getCompiler_Ok _ _ _ E). unfold bind.
  rewrite (storeCode_Ok _ _ _ _ _ E) by lia.
  match goal with
  | |- storeCode _ _ (withFrames ?s0 (?c' :: ?r)) = _ =>
      rewrite (storeCode_Ok (withFrames s0 (c' :: r)) c' r _ _ eq_refl)
  end; [reflexivity|].
  simpl. unfold codeCount in *. simpl. rewrite writeAt_length. lia.
Qed.

Lemma patched_operand f offset :
  0 <= offset -> offset + 2 <= codeCount f ->
  operandAt (code (patched f offset)) offset
  = (codeCount f - offset - 2) mod 65536.
Proof.
  intros ge le. unfold patched. simpl.
  rewrite operandAt_writes by assumption.
  apply two_bytes_big_endian.
Qed.

Lemma emitJump_Ok s c rest instruction :
  compiler s = c :: rest ->
  let ln := line (previous (parser s)) in
  emitJump instruction s =
  Ok (codeCount (function c) + 1)
     (withFrames s
        (withFunction c
           (emitted (emitted (emitted (function c) instruction ln) 255 ln)
                    255 ln) :: rest)).
Proof.
  intros E ln. unfold emitJump.
  unfold bind at 1. rewrite (emitByte_Ok _ _ _ _ E).
  unfold bind at 1. erewrite emitByte_Ok by reflexivity.
  unfold bind at 1. erewrite emitByte_Ok by reflexivity.
  unfold bind, getCompiler, ret. simpl. f_equal.
  unfold codeCount. simpl. rewrite !length_app. simpl. lia.
Qed.

(** The offset [emitJump] returns is that of a two-byte placeholder at the
    end of the code. *)
Lemma emitJump_placeholder s instruction offset s' :
  emitJump instruction s = Ok offset s' ->
  exists c rest f',
    compiler s = c :: rest /\
    compiler s' = withFunction c f' :: rest /\
    0 <= offset /\
    offset + 2 = codeCount f' /\
    code f' = code (function c) ++ [instruction; 255; 255].
Proof.
  intros H. destruct (compiler s) as [|c rest] eqn:E.
  - unfold emitJump, emitByte, bind, getCompiler in H. rewrite E in H.
    discriminate.
  - rewrite (emitJump_Ok _ _ _ _ E) in H. inversion H; subst.
    exists c, rest. eexists. split; [reflexivity|]. split; [reflexivity|].
    split; [unfold codeCount; lia|].
    split.
    + unfold codeCount. simpl. rewrite !length_app. simpl. lia.
    + simpl. rewrite <- !app_assoc. reflexivity.
Qed.

Lemma emitRepeat_Ok n :
  forall s c rest byte,
    compiler s = c :: rest ->
    emitRepeat n byte s =
    Ok tt (withFrames s
             (withFunction c
                (emittedRepeat n (function c) byte
                               (line (previous (parser s)))) :: rest)).
Proof.
  induction n as [|n IH]; intros s c rest byte E; simpl.
  - unfold ret, withFrames, withFunction. destruct s, c. simpl in *.
    subst. reflexivity.
  - unfold bind. rewrite (emitByte_Ok _ _ _ _ E).
    erewrite IH by reflexivity. reflexivity.
Qed.

Lemma code_emittedRepeat n :
  forall f byte ln,
    code (emittedRepeat n f byte ln) = code f ++ repeat byte n.
Proof.
  induction n as [|n IH]; intros f byte ln; simpl.
  - rewrite app_nil_r. reflexivity.
  - rewrite IH. simpl. rewrite <- app_assoc. reflexivity.
Qed.

End JumpOperands.

Section LoopOperands.
Context {ops : OpCodes}.

Lemma emitLoop_Ok s c rest loopStart :
  compiler s = c :: rest ->
  let ln := line (previous (parser s)) in
  let offset := codeCount (function c) + 1 - loopStart + 2 in
  emitLoop loopStart s =
  Ok tt (withFrames s
           (withFunction c
              (emitted (emitted (emitted (function c) OP_LOOP ln)
                                (Z.land (Z.shiftr offset 8) 255) ln)
                       (Z.land offset 255) ln) :: rest)).
Proof.
  intros E ln offset. unfold emitLoop.
  unfold bind at 1. rewrite (emitByte_Ok _ _ _ _ E).
  unfold bind at 1. erewrite getCompiler_Ok by reflexivity.
  cbn [function withFunction]. subst ln.
  assert (codeCount (emitted (function c) OP_LOOP (line (previous (parser s))))
          - loopStart + 2 = offset) as ->.
  { unfold offset, codeCount. simpl. rewrite length_app. simpl. lia. }
  unfold bind. erewrite emitByte_Ok by reflexivity.
  erewrite emitByte_Ok by reflexivity. reflexivity.
Qed.

Lemma codeCount_emitted f byte ln :
  codeCount (emitted f byte ln) = codeCount f + 1.
Proof. unfold codeCount. simpl. rewrite length_app. simpl. lia. Qed.

Lemma codeCount_emittedRepeat n f byte ln :
  codeCount (emittedRepeat n f byte ln) = codeCount f + Z.of_nat n.
Proof.
  unfold codeCount. rewrite code_emittedRepeat, length_app, repeat_length.
  lia.
Qed.

Lemma codeCount_patched f offset : codeCount (patched f offset) = codeCount f.
Proof. unfold codeCount, patched. simpl. rewrite !writeAt_length. reflexivity. Qed.

Lemma operandAt_app code hi lo :
  operandAt (code ++ [hi; lo]) (Z.of_nat (List.length code)) = hi * 256 + lo.
Proof.
  unfold operandAt.
  rewrite !app_nth2 by lia.
  replace (Z.to_nat (Z.of_nat (List.length code)) - List.length code)%nat
    with 0%nat by lia.
  replace (Z.to_nat (Z.of_nat (List.length code) + 1) - List.length code)%nat
    with 1%nat by lia.
  reflexivity.
Qed.

End LoopOperands.

(** ** Declaring locals *)

Lemma reported_zero s ln message : reported s ln message 0 = s.
Proof.
  destruct s as [sc [e c p] cs st err]. unfold reported. simpl.
  rewrite orb_false_r, app_nil_r. reflexivity.
Qed.

Lemma reported_succ s ln message n :
  reported (reported s ln message 1) ln message n
  = reported s ln message (S n).
Proof.
  unfold reported. simpl. rewrite orb_true_r, <- app_assoc. reflexivity.
Qed.

Lemma errorAt_Ok s ln message :
  errorAt ln message s = Ok tt (reported s ln message 1).
Proof. unfold errorAt, reported. simpl. rewrite orb_true_r. reflexivity. Qed.

Lemma declareScan_Ok ls d t i :
  forall s, (i <= List.length ls)%nat ->
    declareScan ls i d t s
    = Ok tt (reported s (line t) redeclared (duplicates ls i d t)).
Proof.
  induction i as [|i IH]; intros s le; simpl.
  - rewrite reported_zero. reflexivity.
  - destruct (nth_error ls i) as [local|] eqn:E.
    + destruct (depth local <? d).
      * rewrite reported_zero. reflexivity.
      * unfold bind. destruct (sameLexeme t (name local)).
        -- rewrite errorAt_Ok, IH by lia. rewrite reported_succ. reflexivity.
        -- unfold ret. rewrite IH by lia. reflexivity.
    + apply nth_error_None in E. lia.
Qed.

Section Declarations.
Context {ops : OpCodes}.

Lemma duplicates_inner ls d t i j l :
  depthsSorted ls -> (j < i <= List.length ls)%nat ->
  nth_error ls j = Some l -> depth l >= d -> lexeme (name l) = lexeme t ->
  (0 < duplicates ls i d t)%nat.
Proof.
  intros sorted range Hj deep same.
  induction i as [|i IH]; [lia|]. simpl.
  destruct (nth_error ls i) as [local|] eqn:E.
  - assert (depth l <= depth local) by (apply (sorted j i); auto; lia).
    replace (depth local <? d) with false by (symmetry; apply Z.ltb_ge; lia).
    destruct (Nat.eq_dec j i) as [->|ne].
    + rewrite Hj in E. inversion E; subst local.
      unfold sameLexeme. rewrite same, String.eqb_refl. lia.
    + assert (0 < duplicates ls i d t)%nat by (apply IH; lia). lia.
  - apply nth_error_None in E. lia.
Qed.

Lemma duplicates_prefix ls x d t i :
  (i <= List.length ls)%nat ->
  duplicates (ls ++ [x]) i d t = duplicates ls i d t.
Proof.
  induction i as [|i IH]; intros le; simpl; [reflexivity|].
  rewrite nth_error_app1 by lia.
  destruct (nth_error ls i) as [local|]; [|reflexivity].
  rewrite IH by lia. reflexivity.
Qed.

Lemma depthsSorted_prefix ls x :
  depthsSorted (ls ++ [x]) ->
  depthsSorted ls /\ Forall (fun l => depth l <= depth x) ls.
Proof.
  intros sorted. split.
  - intros i j li lj le Hi Hj. apply (sorted i j); auto.
    + rewrite nth_error_app1; [exact Hi|].
      apply nth_error_Some. rewrite Hi. discriminate.
    + rewrite nth_error_app1; [exact Hj|].
      apply nth_error_Some. rewrite Hj. discriminate.
  - apply Forall_forall. intros l Hl. apply In_nth_error in Hl as [i Hi].
    assert (i < List.length ls)%nat
      by (apply nth_error_Some; rewrite Hi; discriminate).
    apply (sorted i (List.length ls)); [lia| |].
    + rewrite nth_error_app1 by lia. exact Hi.
    + rewrite nth_error_app2 by lia. rewrite Nat.sub_diag. reflexivity.
Qed.

Lemma filter_outer ls d t :
  Forall (fun l => depth l < d) ls ->
  filter (fun l => negb (depth l <? d) && sameLexeme t (name l)) ls = [].
Proof.
  induction 1 as [|y ls lt _ IH]; [reflexivity|]. simpl.
  replace (depth y <? d) with true by (symmetry; apply Z.ltb_lt; lia).
  exact IH.
Qed.

(** With sorted depths the scan meets every local of the current scope:
    it counts the clashes. *)
Lemma duplicates_count ls d t :
  depthsSorted ls ->
  duplicates ls (List.length ls) d t
  = List.length
      (filter (fun l => negb (depth l <? d) && sameLexeme t (name l)) ls).
Proof.
  induction ls as [|x ls IH] using rev_ind; intros sorted; [reflexivity|].
  apply depthsSorted_prefix in sorted as [sorted below].
  rewrite length_app, Nat.add_1_r. simpl.
  rewrite nth_error_app2 by lia. rewrite Nat.sub_diag. simpl.
  rewrite filter_app, length_app. simpl.
  destruct (depth x <? d) eqn:D; simpl.
  - rewrite filter_outer; [reflexivity|].
    apply Z.ltb_lt in D. eapply Forall_impl; [|exact below].
    simpl. intros l le. lia.
  - rewrite duplicates_prefix by lia. rewrite IH by assumption.
    destruct (sameLexeme t (name x)); simpl; lia.
Qed.

Lemma declareVariable_Ok s c rest t constant :
  compiler s = c :: rest ->
  scopeDepth c <> -1 -> localCount c < MAX_LOCALS ->
  declareVariable t constant s =
  Ok tt (withFrames
           (reported s (line t) redeclared
              (duplicates (locals c) (List.length (locals c)) (scopeDepth c) t))
           (mkCompiler (function c)
                       (locals c ++ [mkLocal t (scopeDepth c)])
                       (scopeDepth c) :: rest)).
Proof.
  intros E local room. unfold declareVariable.
  unfold bind at 1. rewrite (getCompiler_Ok _ _ _ E).
  replace (scopeDepth c =? -1) with false by (symmetry; apply Z.eqb_neq; lia).
  unfold bind at 1. rewrite declareScan_Ok by lia.
  unfold bind. erewrite getCompiler_Ok by exact E.
  replace (localCount c <? MAX_LOCALS) with true
    by (symmetry; apply Z.ltb_lt; lia).
  erewrite setCompiler_Ok by exact E. reflexivity.
Qed.

Lemma resolveLocalFrom_top ls t d :
  resolveLocalFrom (ls ++ [mkLocal t d]) (List.length (ls ++ [mkLocal t d])) t
  = Z.of_nat (List.length ls).
Proof.
  rewrite length_app. simpl. rewrite Nat.add_1_r. simpl.
  rewrite nth_error_app2 by lia. rewrite Nat.sub_diag. simpl.
  unfold sameLexeme. simpl. rewrite String.eqb_refl. reflexivity.
Qed.

End Declarations.

(** ** Scenarios

    The end-to-end scenarios of the specification, run on the embedding,
    for every numbering of the opcodes.  The one-byte pool operands are
    the count of constants after the append (see [addConstant]). *)

Section Scenarios.
Context {ops : OpCodes}.

Example scenario_arithmetic :
  compiledCode 20 arithmeticSource
  = Some [OP_CONSTANT; 1; OP_CONSTANT; 2; OP_CONSTANT; 3; OP_MULTIPLY;
          OP_ADD; OP_POP; OP_NULL; OP_RETURN].
Proof. vm_compute. reflexivity. Qed.

Example scenario_if_else :
  compiledCode 20 ifSource
  = Some [OP_CONSTANT; 1; OP_JUMP_IF_FALSE; 0; 7; OP_POP; OP_CONSTANT; 2;
          OP_POP; OP_JUMP; 0; 4; OP_POP; OP_CONSTANT; 3; OP_POP;
          OP_NULL; OP_RETURN].
Proof. vm_compute. reflexivity. Qed.

Example scenario_while :
  compiledCode 20 whileSource
  = Some [OP_CONSTANT; 1; OP_JUMP_IF_FALSE; 0; 7; OP_POP; OP_CONSTANT; 2;
          OP_POP; OP_LOOP; 0; 12; OP_NULL; OP_RETURN].
Proof. vm_compute. reflexivity. Qed.

Example scenario_function :
  compiledCode 20 funSource
  = Some [OP_CONSTANT; 2; OP_DEFINE_GLOBAL; 1; OP_GET_GLOBAL; 3;
          OP_CONSTANT; 4; OP_CONSTANT; 5; uint8_t (OP_CALL_0 + 2); OP_POP;
          OP_NULL; OP_RETURN].
Proof. vm_compute. reflexivity. Qed.

Example scenario_redeclaration :
  rejected 20 redeclareSource = Some [(1, redeclared)].
Proof. vm_compute. reflexivity. Qed.

End Scenarios.

(** ** Properties of the specification *)

Section Claims.
Context {ops : OpCodes}.

(** C1 (as the code behaves): [addConstant] appends the value to the pool,
    so the value sits at the index that was the pool's length before the
    call, but the byte it returns is the pool's length after the append,
    one more than that index (modulo 256).  [emitConstant] therefore emits
    [OP_CONSTANT] followed by the index of the value plus one. *)
Theorem addConstant_returns_count :
  forall s c rest v,
    compiler s = c :: rest ->
    let index := List.length (constants (function c)) in
    exists s1 s2 f1 f2,
      addConstant v s = Ok (uint8_t (Z.of_nat index + 1)) s1 /\
      topFunction s1 = Some f1 /\
      nth_error (constants f1) index = Some v /\
      emitConstant v s = Ok tt s2 /\
      topFunction s2 = Some f2 /\
      nth_error (constants f2) index = Some v /\
      code f2 = code (function c)
                ++ [OP_CONSTANT; uint8_t (Z.of_nat index + 1)].
Proof.
  intros s c rest v E index.
  pose proof (addConstant_Ok s c rest v E) as A.
  rewrite length_app, Nat2Z.inj_add in A. simpl (Z.of_nat (List.length [v])) in A.
  fold index in A.
  assert (nth_error (constants (function c) ++ [v]) index = Some v) as N.
  { unfold index. rewrite nth_error_app2 by lia. rewrite Nat.sub_diag.
    reflexivity. }
  do 4 eexists. split; [exact A|]. split; [reflexivity|].
  split; [exact N|].
  split.
  - unfold emitConstant, bind at 1. rewrite A. unfold emitBytes, bind.
    erewrite emitByte_Ok by reflexivity.
    erewrite emitByte_Ok by reflexivity. reflexivity.
  - split; [reflexivity|]. split; [exact N|].
    simpl. rewrite <- app_assoc. reflexivity.
Qed.

(** C2 (as the code behaves): no capacity limit is checked.  Compiling
    257 statements [1;] puts 257 constants into the pool of the top-level
    function; no diagnostic is printed, [hadError] stays false and
    [compile] returns the function. *)
Theorem constant_pool_overflow_unreported :
  forall fuel, (300 <= fuel)%nat ->
    exists f s',
      compile fuel (mkScanner (constantStatements 257) 1) initialState
      = Ok (Some f) s' /\
      List.length (constants f) = 257%nat /\
      stderr s' = [] /\
      hadError (parser s') = false.
Proof.
  intros fuel le.
  destruct (compile 300 (mkScanner (constantStatements 257) 1) initialState)
    as [[f|] s'| |] eqn:E;
    try (exfalso; vm_compute in E; discriminate).
  exists f, s'. split; [exact (compile_fuel 300 fuel _ _ _ _ le E)|].
  vm_compute in E. inversion E; subst. repeat split; reflexivity.
Qed.

(** C3 (amended): for [fun f(a, b) { return a + b; } f(1, 2);] the body of
    the inner function is GET_LOCAL 0, GET_LOCAL 1, ADD, RETURN, then one
    POP for each of the two parameters (emitted by [endScope]), then NULL,
    RETURN.  The outer function is CONSTANT, DEFINE_GLOBAL, GET_GLOBAL,
    CONSTANT, CONSTANT, CALL_2, POP, NULL, RETURN over the pool "f", the
    inner function, "f", 1, 2; the pool operands are left open here. *)
Theorem compile_fun_declaration :
  forall fuel, (20 <= fuel)%nat ->
    exists outer inner s' k1 k2 k3 k4 k5,
      compile fuel funSource initialState = Ok (Some outer) s' /\
      stderr s' = [] /\
      constants outer =
        [ObjString "f"; ObjFun inner; ObjString "f"; ObjNumber "1";
         ObjNumber "2"] /\
      code outer =
        [OP_CONSTANT; k1; OP_DEFINE_GLOBAL; k2; OP_GET_GLOBAL; k3;
         OP_CONSTANT; k4; OP_CONSTANT; k5; uint8_t (OP_CALL_0 + 2);
         OP_POP; OP_NULL; OP_RETURN] /\
      code inner =
        [OP_GET_LOCAL; 0; OP_GET_LOCAL; 1; OP_ADD; OP_RETURN;
         OP_POP; OP_POP; OP_NULL; OP_RETURN] /\
      arity inner = 2 /\
      constants inner = [].
Proof.
  intros fuel le.
  destruct (compile 20 funSource initialState) as [[f|] s'| |] eqn:E;
    try (exfalso; vm_compute in E; discriminate).
  pose proof (compile_fuel 20 fuel _ _ _ _ le E) as F.
  vm_compute in E. inversion E; subst. clear E.
  do 8 eexists. split; [exact F|].
  repeat split; reflexivity.
Qed.

(** C9: compiling a source without tokens succeeds for every fuel and from
    every state: no diagnostic is printed, and the function returned has
    the code [OP_NULL], [OP_RETURN], no parameters and no constants. *)
Theorem compile_no_tokens :
  forall fuel eofLine s,
    exists f s',
      compile fuel (mkScanner [] eofLine) s = Ok (Some f) s' /\
      code f = [OP_NULL; OP_RETURN] /\
      arity f = 0 /\
      constants f = [] /\
      stderr s' = stderr s /\
      hadError (parser s') = false.
Proof.
  intros fuel eofLine s. do 2 eexists. split.
  - unfold compile, bind, initScanner, beginCompiler, getParser, setParser,
      advance, match_, check, scanToken. simpl.
    unfold bind, getParser, scanToken, setParser, ret. simpl.
    erewrite endCompiler_Ok by reflexivity. simpl. reflexivity.
  - simpl. repeat split; reflexivity.
Qed.

(** C6: [code] and [codeLines] stay in step.  [emitByte], the one operation
    that appends, appends one entry to each; a statement or an expression
    compiled in a consistent state leaves a consistent state, in which the
    function of every frame is balanced; and every function reachable from
    the function [compile] returns is balanced. *)
Theorem code_and_lines_in_step :
  (forall byte s s',
      emitByte byte s = Ok tt s' ->
      exists c rest f',
        compiler s = c :: rest /\
        compiler s' = withFunction c f' :: rest /\
        code f' = code (function c) ++ [byte] /\
        codeLines f' = codeLines (function c) ++ [line (previous (parser s))])
  /\ (forall fuel s s',
        consistent s -> statement fuel s = Ok tt s' ->
        consistent s' /\
        forall c, In c (compiler s') ->
          List.length (code (function c))
          = List.length (codeLines (function c)))
  /\ (forall fuel precedence s s',
        consistent s -> parsePrecedence fuel precedence s = Ok tt s' ->
        consistent s' /\
        forall c, In c (compiler s') ->
          List.length (code (function c))
          = List.length (codeLines (function c)))
  /\ (forall fuel source s f s',
        compiler s = [] -> compile fuel source s = Ok (Some f) s' ->
        forall g, In g (functionsOf f) ->
          List.length (code g) = List.length (codeLines g)).
Proof.
  assert (forall s, consistent s ->
            forall c, In c (compiler s) -> balanced (function c)) as B.
  { intros s i c Hc. unfold consistent in i. rewrite Forall_forall in i.
    apply (i c Hc). }
  split; [|split; [|split]].
  - intros byte s s' H. apply emitByte_inv in H as (c & rest & E & ->).
    exists c, rest. eexists. split; [exact E|].
    split; [reflexivity|]. split; reflexivity.
  - intros fuel s s' i H.
    pose proof (proj1 (keeps_statement fuel s tt s' i H)) as i'.
    split; [exact i'|exact (B s' i')].
  - intros fuel precedence s s' i H.
    pose proof (proj1 (keeps_parsePrecedence fuel precedence s tt s' i H))
      as i'.
    split; [exact i'|exact (B s' i')].
  - intros fuel source s f s' E H g Hg.
    assert (consistent s) as i by (unfold consistent; rewrite E; constructor).
    destruct (compile_complete fuel source s _ s' i H) as [_ k].
    apply (k g Hg).
Qed.

(** C7: every function produced by a compilation that succeeds, the
    top-level function and each function declared inside it, has code
    that ends with [OP_NULL], [OP_RETURN]. *)
Theorem functions_end_with_null_return :
  forall fuel source s f s',
    compiler s = [] ->
    compile fuel source s = Ok (Some f) s' ->
    forall g, In g (functionsOf f) ->
      exists body, code g = body ++ [OP_NULL; OP_RETURN].
Proof.
  intros fuel source s f s' E H g Hg.
  assert (consistent s) as i by (unfold consistent; rewrite E; constructor).
  destruct (compile_complete fuel source s _ s' i H) as [_ k].
  apply (k g Hg).
Qed.

(** C4 (amended): [patchJump(offset)] on a placeholder, two bytes inside
    the code at [offset], overwrites them with the big-endian encoding of
    (length of the code) - [offset] - 2, provided that this distance is at
    most 65535. *)
Theorem patchJump_operand :
  forall s c rest offset,
    compiler s = c :: rest ->
    0 <= offset ->
    offset + 2 <= codeCount (function c) ->
    codeCount (function c) - offset - 2 <= 65535 ->
    exists f',
      patchJump offset s = Ok tt (withFrames s (withFunction c f' :: rest)) /\
      codeCount f' = codeCount (function c) /\
      0 <= nth (Z.to_nat offset) (code f') 0 < 256 /\
      0 <= nth (Z.to_nat (offset + 1)) (code f') 0 < 256 /\
      operandAt (code f') offset = codeCount (function c) - offset - 2.
Proof.
  intros s c rest offset E ge le small.
  exists (patched (function c) offset).
  split; [exact (patchJump_Ok _ _ _ _ E ge le)|].
  split; [apply codeCount_patched|].
  unfold codeCount in *.
  assert (forall n, 0 <= Z.land n 255 < 256) as byte.
  { intros n. change 255 with (Z.ones 8). rewrite Z.land_ones by lia.
    apply Z.mod_pos_bound. lia. }
  split; [|split].
  - unfold patched. simpl. rewrite nth_writeAt_other by lia.
    rewrite nth_writeAt_same by lia. apply byte.
  - unfold patched. simpl.
    rewrite nth_writeAt_same by (rewrite writeAt_length; lia). apply byte.
  - rewrite patched_operand by assumption.
    apply Z.mod_small. unfold codeCount. lia.
Qed.

(** C5 (amended): [emitLoop(loopStart)] appends [OP_LOOP] and two operand
    bytes.  Provided that the distance is at most 65535, the operand is the
    big-endian encoding of (length of the code once [OP_LOOP] is emitted)
    - [loopStart] + 2, which is the distance from the byte after the
    operand back to [loopStart]. *)
Theorem emitLoop_operand :
  forall s c rest loopStart,
    compiler s = c :: rest ->
    0 <= loopStart <= codeCount (function c) ->
    codeCount (function c) + 1 - loopStart + 2 <= 65535 ->
    exists f' hi lo,
      emitLoop loopStart s = Ok tt (withFrames s (withFunction c f' :: rest)) /\
      code f' = code (function c) ++ [OP_LOOP; hi; lo] /\
      0 <= hi < 256 /\ 0 <= lo < 256 /\
      hi * 256 + lo = (codeCount (function c) + 1) - loopStart + 2 /\
      hi * 256 + lo = codeCount f' - loopStart.
Proof.
  intros s c rest loopStart E range small.
  pose proof (emitLoop_Ok s c rest loopStart E) as H. simpl in H.
  do 3 eexists. split; [exact H|].
  assert (forall n, 0 <= Z.land n 255 < 256) as byte.
  { intros n. change 255 with (Z.ones 8). rewrite Z.land_ones by lia.
    apply Z.mod_pos_bound. lia. }
  split; [simpl; rewrite <- !app_assoc; reflexivity|].
  split; [apply byte|]. split; [apply byte|].
  rewrite two_bytes_big_endian, !codeCount_emitted.
  rewrite Z.mod_small by lia. lia.
Qed.

(** C8: declaring a local in a consistent state, inside a scope and with
    room in the table, prints the redeclaration diagnostic at the line of
    the declared name once for each local of the current scope that has
    the same lexeme, and nothing else.  If there is a local with that
    lexeme at a depth that is at least [scopeDepth], the diagnostic is
    printed and [hadError] is set; if every local with that lexeme belongs
    to an outer scope, nothing is printed and [hadError] is unchanged. *)
Theorem redeclaration_diagnostic :
  forall s c rest t constant,
    consistent s ->
    compiler s = c :: rest ->
    scopeDepth c <> -1 ->
    localCount c < MAX_LOCALS ->
    exists s',
      declareVariable t constant s = Ok tt s' /\
      stderr s' = stderr s
                  ++ repeat (line t, redeclared) (List.length (clashes c t)) /\
      ((exists l, In l (locals c) /\ depth l >= scopeDepth c /\
                  lexeme (name l) = lexeme t) ->
       In (line t, redeclared) (stderr s') /\
       hadError (parser s') = true) /\
      ((forall l, In l (locals c) -> lexeme (name l) = lexeme t ->
                  depth l < scopeDepth c) ->
       stderr s' = stderr s /\
       hadError (parser s') = hadError (parser s)).
Proof.
  intros s c rest t constant i E local room.
  assert (depthsSorted (locals c)) as sorted.
  { unfold consistent in i. rewrite E in i. inversion i; subst. apply H1. }
  pose proof (declareVariable_Ok s c rest t constant E local room) as H.
  rewrite (duplicates_count _ _ t sorted) in H. fold (clashes c t) in H.
  eexists. split; [exact H|]. split; [reflexivity|]. split.
  - intros (l & Hl & deep & same).
    assert (In l (clashes c t)) as Hc.
    { apply filter_In. split; [exact Hl|]. apply andb_true_iff. split.
      - apply negb_true_iff, Z.ltb_ge. lia.
      - unfold sameLexeme. rewrite same. apply String.eqb_refl. }
    destruct (clashes c t) as [|l' ls]; [destruct Hc|]. simpl. split.
    + apply in_or_app. right. left. reflexivity.
    + apply orb_true_r.
  - intros outer.
    assert (clashes c t = []) as ->.
    { destruct (clashes c t) as [|l ls] eqn:K; [reflexivity|].
      assert (In l (clashes c t)) as Hc by (rewrite K; left; reflexivity).
      apply filter_In in Hc as [Hl Hc]. apply andb_true_iff in Hc as [deep same].
      apply negb_true_iff, Z.ltb_ge in deep. apply String.eqb_eq in same.
      specialize (outer l Hl (eq_sym same)). lia. }
    simpl. rewrite app_nil_r, orb_false_r. split; reflexivity.
Qed.

(** C10: whether or not the redeclaration diagnostic is printed, declaring
    a local appends the new entry to the table, [localCount] grows by
    one, and [resolveLocal] on that lexeme then returns the index of the
    new entry, the topmost one. *)
Theorem redeclared_local_is_added :
  forall s c rest t constant,
    compiler s = c :: rest ->
    scopeDepth c <> -1 ->
    localCount c < MAX_LOCALS ->
    exists s' c',
      declareVariable t constant s = Ok tt s' /\
      compiler s' = c' :: rest /\
      locals c' = locals c ++ [mkLocal t (scopeDepth c)] /\
      localCount c' = localCount c + 1 /\
      resolveLocal t s' = Ok (localCount c) s' /\
      (depthsSorted (locals c) ->
       (exists l, In l (locals c) /\ depth l >= scopeDepth c /\
                  lexeme (name l) = lexeme t) ->
       hadError (parser s') = true /\
       In (line t, redeclared) (stderr s')).
Proof.
  intros s c rest t constant E local room.
  do 2 eexists. split; [exact (declareVariable_Ok _ _ _ _ _ E local room)|].
  split; [reflexivity|]. split; [reflexivity|].
  split; [unfold localCount; simpl; rewrite length_app; simpl; lia|].
  split.
  - unfold resolveLocal, bind. erewrite getCompiler_Ok by reflexivity.
    unfold ret. simpl locals. rewrite resolveLocalFrom_top. reflexivity.
  - intros sorted (l & Hl & deep & same).
    apply In_nth_error in Hl as [j Hj].
    assert (j < List.length (locals c))%nat
      by (apply nth_error_Some; rewrite Hj; discriminate).
    pose proof (duplicates_inner (locals c) (scopeDepth c) t
                  (List.length (locals c)) j l sorted
                  ltac:(lia) Hj deep same) as pos.
    simpl.
    destruct (duplicates (locals c) (List.length (locals c)) (scopeDepth c) t)
      as [|k]; [lia|].
    simpl. split; [apply orb_true_r|].
    apply in_or_app. right. left. reflexivity.
Qed.

Lemma jumpOver_Ok n s :
  exists before after s',
    jumpOver n s = Ok (1, before, after) s' /\
    codeCount before - 1 - 2 = Z.of_nat n /\
    operandAt (code after) 1 = Z.of_nat n mod 65536.
Proof.
  unfold jumpOver, bind at 1, beginCompiler.
  unfold bind at 1. erewrite emitJump_Ok by reflexivity.
  unfold bind at 1. erewrite emitRepeat_Ok by reflexivity.
  unfold bind at 1. erewrite getCompiler_Ok by reflexivity.
  cbn [function withFunction codeCount code newFunction List.length Z.of_nat
       Z.add].
  set (before := emittedRepeat n _ _ _).
  assert (codeCount before = Z.of_nat n + 3) as L.
  { unfold before. rewrite codeCount_emittedRepeat, !codeCount_emitted.
    change (codeCount newFunction) with 0. lia. }
  unfold bind at 1.
  erewrite patchJump_Ok; [|reflexivity|lia|cbn; lia].
  unfold bind. erewrite getCompiler_Ok by reflexivity.
  unfold ret. cbn [function withFunction].
  do 3 eexists. split; [reflexivity|]. split; [lia|].
  rewrite patched_operand by lia. f_equal. lia.
Qed.

Lemma loopOver_Ok n s :
  exists before after s',
    loopOver n s = Ok (before, after) s' /\
    codeCount before = Z.of_nat n /\
    operandAt (code after) (codeCount before + 1)
    = (Z.of_nat n + 3) mod 65536.
Proof.
  unfold loopOver, bind at 1, beginCompiler.
  unfold bind at 1. erewrite emitRepeat_Ok by reflexivity.
  unfold bind at 1. erewrite getCompiler_Ok by reflexivity.
  cbn [function withFunction].
  set (before := emittedRepeat n _ _ _).
  assert (codeCount before = Z.of_nat n) as L.
  { unfold before. rewrite codeCount_emittedRepeat. reflexivity. }
  unfold bind at 1. erewrite emitLoop_Ok by reflexivity.
  unfold bind. erewrite getCompiler_Ok by reflexivity.
  unfold ret. cbn [function withFunction].
  do 3 eexists. split; [reflexivity|]. split; [exact L|].
  cbn [code emitted]. rewrite <- !app_assoc. cbn [app].
  change (code before ++ OP_LOOP :: ?x) with (code before ++ [OP_LOOP] ++ x).
  rewrite app_assoc.
  replace (codeCount before + 1)
    with (Z.of_nat (List.length (code before ++ [OP_LOOP])))
    by (rewrite length_app; unfold codeCount; simpl; lia).
  rewrite operandAt_app, two_bytes_big_endian. f_equal.
  rewrite ?length_app. unfold codeCount in L. simpl. lia.
Qed.

(** Two results of [compile] on the same input are the same result. *)
Lemma compile_deterministic fuel fuel' source s r r' s1 s2 :
  compile fuel source s = Ok r s1 -> compile fuel' source s = Ok r' s2 ->
  r = r' /\ s1 = s2.
Proof.
  intros H H'.
  apply (compile_fuel fuel (Nat.max fuel fuel')) in H; [|lia].
  apply (compile_fuel fuel' (Nat.max fuel fuel')) in H'; [|lia].
  rewrite H in H'. inversion H'. auto.
Qed.

Lemma funSource_inner fuel outer s' inner :
  compile fuel funSource initialState = Ok (Some outer) s' ->
  In (ObjFun inner) (constants outer) ->
  List.length (code inner) = 10%nat.
Proof.
  intros H Hin.
  destruct (compile 20 funSource initialState) as [r s20| |] eqn:E;
    try (exfalso; vm_compute in E; discriminate).
  destruct (compile_deterministic _ _ _ _ _ _ _ _ H E) as [<- _].
  vm_compute in E. inversion E; subst. clear E.
  simpl in Hin.
  repeat (destruct Hin as [Hin|Hin]; [try discriminate|]);
    [|destruct Hin].
  inversion Hin; subst. reflexivity.
Qed.

Lemma depthsSorted_single l : depthsSorted [l].
Proof.
  intros i j li lj _ Hi Hj.
  destruct i as [|[|i]]; try discriminate.
  destruct j as [|[|j]]; try discriminate.
  inversion Hi; inversion Hj; subst. lia.
Qed.

End Claims.

(** ** Counterexamples and instances *)

Lemma addConstant_returns_count_witness :
  exists s1 s2 f1 f2,
    addConstant (newNumber "1") freshState = Ok 1 s1 /\
    topFunction s1 = Some f1 /\
    nth_error (constants f1) 0 = Some (newNumber "1") /\
    emitConstant (newNumber "1") freshState = Ok tt s2 /\
    topFunction s2 = Some f2 /\
    nth_error (constants f2) 0 = Some (newNumber "1") /\
    code f2 = [OP_CONSTANT; 1].
Proof.
  exact (addConstant_returns_count freshState _ [] (newNumber "1") eq_refl).
Defined.

Lemma constant_pool_overflow_unreported_witness :
  exists f s',
    compile 300 (mkScanner (constantStatements 257) 1) initialState
    = Ok (Some f) s' /\
    List.length (constants f) = 257%nat /\
    stderr s' = [] /\
    hadError (parser s') = false.
Proof. apply (constant_pool_overflow_unreported 300). lia. Defined.

(** C3 (as stated, refuted): whatever the numbering of the opcodes, no run
    of [compile] on [fun f(a, b) { return a + b; } f(1, 2);] yields an inner
    function whose code is GET_LOCAL 0, GET_LOCAL 1, ADD, RETURN, NULL,
    RETURN: the two POPs of [endScope] stand before NULL, RETURN. *)
Lemma compile_fun_declaration_counterexample :
  ~ exists (ops : OpCodes) fuel outer inner s',
      compile fuel funSource initialState = Ok (Some outer) s' /\
      In (ObjFun inner) (constants outer) /\
      code inner = [OP_GET_LOCAL; 0; OP_GET_LOCAL; 1; OP_ADD; OP_RETURN;
                    OP_NULL; OP_RETURN].
Proof.
  intros (ops & fuel & outer & inner & s' & H & Hin & C).
  pose proof (funSource_inner fuel outer s' inner H Hin) as L.
  rewrite C in L. discriminate L.
Qed.

Lemma compile_fun_declaration_witness :
  exists outer inner s' k1 k2 k3 k4 k5,
    compile 20 funSource initialState = Ok (Some outer) s' /\
    stderr s' = [] /\
    constants outer =
      [ObjString "f"; ObjFun inner; ObjString "f"; ObjNumber "1";
       ObjNumber "2"] /\
    code outer =
      [OP_CONSTANT; k1; OP_DEFINE_GLOBAL; k2; OP_GET_GLOBAL; k3;
       OP_CONSTANT; k4; OP_CONSTANT; k5; uint8_t (OP_CALL_0 + 2);
       OP_POP; OP_NULL; OP_RETURN] /\
    code inner =
      [OP_GET_LOCAL; 0; OP_GET_LOCAL; 1; OP_ADD; OP_RETURN;
       OP_POP; OP_POP; OP_NULL; OP_RETURN] /\
    arity inner = 2 /\
    constants inner = [].
Proof. apply (compile_fun_declaration 20). lia. Defined.

(** C4 (as stated, refuted): a jump over 65536 bytes.  The placeholder
    that [emitJump] returned is patched when 65536 bytes follow it; the
    two bytes then encode 0, not the distance. *)
Lemma patchJump_operand_counterexample :
  exists before after s',
    jumpOver (Z.to_nat 65536) initialState = Ok (1, before, after) s' /\
    codeCount before - 1 - 2 = 65536 /\
    operandAt (code after) 1 = 0 /\
    operandAt (code after) 1 <> codeCount before - 1 - 2.
Proof.
  destruct (jumpOver_Ok (Z.to_nat 65536) initialState)
    as (before & after & s' & E & D & O).
  rewrite Z2Nat.id in D, O by lia.
  exists before, after, s'. split; [exact E|]. split; [exact D|].
  split; [exact O|]. rewrite O, D. discriminate.
Qed.

Lemma patchJump_operand_witness :
  exists f',
    patchJump 1 jumpState
    = Ok tt (withFrames jumpState
               (withFunction (mkCompiler (mkFunction
                    [OP_JUMP_IF_FALSE; 255; 255; OP_POP; OP_POP]
                    [1; 1; 1; 1; 1] 8 [] 0) [] (-1)) f' :: [])) /\
    codeCount f' = 5 /\
    0 <= nth 1 (code f') 0 < 256 /\
    0 <= nth 2 (code f') 0 < 256 /\
    operandAt (code f') 1 = 2.
Proof.
  apply (patchJump_operand jumpState _ [] 1 eq_refl);
    unfold codeCount; simpl; lia.
Defined.

(** C5 (as stated, refuted): a loop over 65533 bytes.  [emitLoop(0)] is
    called when the code is 65533 bytes long; once [OP_LOOP] is emitted the
    length is 65534 and the distance is 65536, but the two operand bytes,
    at offset 65534, encode 0. *)
Lemma emitLoop_operand_counterexample :
  exists before after s',
    loopOver (Z.to_nat 65533) initialState = Ok (before, after) s' /\
    codeCount before = 65533 /\
    operandAt (code after) (codeCount before + 1) = 0 /\
    operandAt (code after) (codeCount before + 1)
    <> (codeCount before + 1) - 0 + 2.
Proof.
  destruct (loopOver_Ok (Z.to_nat 65533) initialState)
    as (before & after & s' & E & D & O).
  rewrite Z2Nat.id in D, O by lia.
  exists before, after, s'. split; [exact E|]. split; [exact D|].
  split; [exact O|]. rewrite O, D. discriminate.
Qed.

Lemma emitLoop_operand_witness :
  exists f' hi lo,
    emitLoop 0 loopState
    = Ok tt (withFrames loopState
               (withFunction (mkCompiler (mkFunction [OP_POP; OP_POP] [1; 1]
                                                     4 [] 0) [] (-1)) f'
                :: [])) /\
    code f' = [OP_POP; OP_POP] ++ [OP_LOOP; hi; lo] /\
    0 <= hi < 256 /\ 0 <= lo < 256 /\
    hi * 256 + lo = (2 + 1) - 0 + 2 /\
    hi * 256 + lo = codeCount f' - 0.
Proof.
  apply (emitLoop_operand loopState _ [] 0 eq_refl);
    unfold codeCount; simpl; lia.
Defined.

Lemma code_and_lines_in_step_witness :
  compiler initialState = [] /\
  exists f s',
    compile 20 funSource initialState = Ok (Some f) s' /\
    forall g, In g (functionsOf f) ->
      List.length (code g) = List.length (codeLines g).
Proof.
  split; [reflexivity|].
  destruct (compile 20 funSource initialState) as [[f|] s'| |] eqn:E;
    try (exfalso; vm_compute in E; discriminate).
  exists f, s'. split; [reflexivity|].
  exact (proj2 (proj2 (proj2 code_and_lines_in_step))
           20%nat funSource initialState f s' eq_refl E).
Defined.

Lemma functions_end_with_null_return_witness :
  compiler initialState = [] /\
  exists f s',
    compile 20 funSource initialState = Ok (Some f) s' /\
    forall g, In g (functionsOf f) ->
      exists body, code g = body ++ [OP_NULL; OP_RETURN].
Proof.
  split; [reflexivity|].
  destruct (compile 20 funSource initialState) as [[f|] s'| |] eqn:E;
    try (exfalso; vm_compute in E; discriminate).
  exists f, s'. split; [reflexivity|].
  exact (functions_end_with_null_return 20%nat funSource initialState f s'
           eq_refl E).
Defined.

Lemma blockState_consistent : consistent blockState.
Proof.
  unfold consistent, blockState. simpl. constructor; [|constructor].
  constructor; [constructor|]; simpl.
  - reflexivity.
  - constructor.
  - apply depthsSorted_single.
  - constructor; [simpl; lia|constructor].
Defined.

Lemma redeclaration_diagnostic_witness :
  exists s',
    declareVariable secondA 255 blockState = Ok tt s' /\
    stderr s' = [] ++ repeat (2, redeclared) 1 /\
    ((exists l, In l [localA] /\ depth l >= 0 /\
                lexeme (name l) = lexeme secondA) ->
     In (2, redeclared) (stderr s') /\
     hadError (parser s') = true) /\
    ((forall l, In l [localA] -> lexeme (name l) = lexeme secondA ->
                depth l < 0) ->
     stderr s' = [] /\
     hadError (parser s') = false).
Proof.
  apply (redeclaration_diagnostic blockState _ [] secondA 255
           blockState_consistent eq_refl).
  - simpl. lia.
  - unfold localCount, MAX_LOCALS. simpl. lia.
Defined.

Lemma redeclared_local_is_added_witness :
  exists s' c',
    declareVariable secondA 255 blockState = Ok tt s' /\
    compiler s' = c' :: [] /\
    locals c' = [localA] ++ [mkLocal secondA 0] /\
    localCount c' = 1 + 1 /\
    resolveLocal secondA s' = Ok 1 s' /\
    (depthsSorted [localA] ->
     (exists l, In l [localA] /\ depth l >= 0 /\
                lexeme (name l) = lexeme secondA) ->
     hadError (parser s') = true /\
     In (2, redeclared) (stderr s')).
Proof.
  apply (redeclared_local_is_added blockState _ [] secondA 255 eq_refl).
  - simpl. lia.
  - unfold localCount, MAX_LOCALS. simpl. lia.
Defined.

(** * Further properties of the compiler *)

(** ** Diagnostics, the token stream and the VM stack *)

Lemma follows_refl s : follows s s.
Proof.
  repeat split; try reflexivity.
  - exists []. reflexivity.
  - exists []. rewrite app_nil_r, orb_false_r. auto.
Qed.

Lemma follows_trans s1 s2 s3 : follows s1 s2 -> follows s2 s3 -> follows s1 s3.
Proof.
  intros (v1 & e1 & (c1 & H1) & (p1 & E1 & h1))
         (v2 & e2 & (c2 & H2) & (p2 & E2 & h2)).
  repeat split; try congruence.
  - exists (c1 ++ c2). rewrite H1, H2, app_assoc. reflexivity.
  - exists (p1 ++ p2). split.
    + rewrite E2, E1, app_assoc. reflexivity.
    + rewrite h2, h1, <- orb_assoc. f_equal.
      destruct p1; reflexivity.
Qed.

(** A step that touches neither scanner, parser, VM stack nor [stderr]. *)
Lemma follows_outside s s' :
  scanner s' = scanner s -> parser s' = parser s ->
  vmStack s' = vmStack s -> stderr s' = stderr s -> follows s s'.
Proof.
  intros sc p v e. unfold follows. rewrite sc, p, v, e.
  apply (follows_refl s).
Qed.

Lemma tracks_ret {A} (a : A) : tracks (ret a).
Proof. intros s a' s' H. inversion H; subst. apply follows_refl. Qed.

Lemma tracks_bind {A B} (m : M A) (k : A -> M B) :
  tracks m -> (forall a, tracks (k a)) -> tracks (bind m k).
Proof.
  intros Hm Hk s b s' H. apply bind_Ok in H as (a & s1 & E & H).
  exact (follows_trans _ _ _ (Hm _ _ _ E) (Hk _ _ _ _ H)).
Qed.

Lemma tracks_undefined {A} : tracks (@undefined A).
Proof. intros s a s' H. discriminate. Qed.

Lemma tracks_outOfFuel {A} : tracks (@outOfFuel A).
Proof. intros s a s' H. discriminate. Qed.

Ltac tracks_prim :=
  let s := fresh "s" in let a := fresh "a" in let s' := fresh "s'" in
  let H := fresh "H" in
  intros s a s' H;
  repeat match type of H with
         | context [match ?x with _ => _ end] => destruct x eqn:?
         end;
  try discriminate; inversion H; subst;
  first [ apply follows_refl | apply follows_outside; reflexivity ].

Lemma tracks_getParser : tracks getParser.
Proof. unfold getParser. tracks_prim. Qed.

Lemma tracks_getCompiler : tracks getCompiler.
Proof. unfold getCompiler. tracks_prim. Qed.

Lemma tracks_setCompiler c : tracks (setCompiler c).
Proof. unfold setCompiler. tracks_prim. Qed.

Lemma tracks_beginCompiler : tracks beginCompiler.
Proof. unfold beginCompiler. tracks_prim. Qed.

Lemma tracks_leaveCompiler : tracks leaveCompiler.
Proof. unfold leaveCompiler. tracks_prim. Qed.

Lemma tracks_errorAt ln message : tracks (errorAt ln message).
Proof.
  intros s a s' H. unfold errorAt in H. inversion H; subst.
  repeat split; simpl.
  - exists []. reflexivity.
  - exists [(ln, message)]. split; [reflexivity|]. symmetry. apply orb_true_r.
Qed.

Lemma tracks_advance : tracks advance.
Proof.
  intros s a s' H. unfold advance, bind, getParser, scanToken, setParser in H.
  destruct (pending (scanner s)) as [|t rest] eqn:P; inversion H; subst;
    repeat split; simpl.
  - exists []. rewrite P. reflexivity.
  - exists []. rewrite app_nil_r, orb_false_r. auto.
  - exists [t]. rewrite P. reflexivity.
  - exists []. rewrite app_nil_r, orb_false_r. auto.
Qed.

(** [addConstant] pushes the value and pops it again. *)
Lemma tracks_addConstant {ops : OpCodes} v : tracks (addConstant v).
Proof.
  intros s a s' H. destruct (compiler s) as [|c rest] eqn:E.
  - unfold addConstant, bind, push, getCompiler in H. simpl in H.
    rewrite E in H. discriminate.
  - rewrite (addConstant_Ok _ _ _ _ E) in H. inversion H; subst.
    apply follows_outside; reflexivity.
Qed.

Create HintDb tracks.
#[export] Hint Resolve tracks_ret tracks_undefined tracks_outOfFuel
  tracks_getParser tracks_getCompiler tracks_setCompiler tracks_beginCompiler
  tracks_leaveCompiler tracks_errorAt tracks_advance tracks_addConstant
  : tracks.

Ltac tracks_auto :=
  repeat first
    [ solve [ auto with tracks ]
    | match goal with
      | |- tracks (bind _ _) => apply tracks_bind; [ | intros ]
      | |- tracks (let _ := _ in _) => cbv zeta
      | |- tracks (if ?b then _ else _) => destruct b
      | |- tracks (match ?x with _ => _ end) => destruct x
      end ].

(** The functions that are defined by composing others, without a loop. *)
Ltac unfold_composites :=
  unfold statementBody, funStatement, ifStatement, whileStatement,
    returnStatement, varStatement, block, parsePrecedenceBody, callParseFn,
    and_, binary, boolean, call, grouping, null_, number, or_, string_,
    unary, variable, expression, declareVariable, parseVariable,
    resolveLocal, emitConstant, nameConstant, endScope, beginScope,
    endCompiler, patchJump, storeCode, emitJump, emitLoop, emitBytes,
    emitByte, setFunction, match_, consume, check, error.

Section Tracking.
Context {ops : OpCodes}.

Lemma tracks_emitByte byte : tracks (emitByte byte).
Proof. unfold_composites. tracks_auto. Qed.
Hint Resolve tracks_emitByte : tracks.

Lemma tracks_endScopeLoop n : tracks (endScopeLoop n).
Proof. induction n as [|n IH]; simpl; tracks_auto. Qed.

Lemma tracks_declareScan ls i d t : tracks (declareScan ls i d t).
Proof. induction i as [|i IH]; simpl; tracks_auto. Qed.
Hint Resolve tracks_endScopeLoop tracks_declareScan : tracks.

Section Expressions.
Variable pp : Precedence -> M unit.
Hypothesis tracks_pp : forall precedence, tracks (pp precedence).

Lemma tracks_callArguments fuel :
  forall argCount, tracks (callArguments pp fuel argCount).
Proof.
  induction fuel as [|fuel IH]; intros argCount; simpl; unfold_composites;
    tracks_auto.
Qed.
Hint Resolve tracks_callArguments : tracks.

Lemma tracks_callParseFn fuel fn canAssign :
  tracks (callParseFn pp fuel fn canAssign).
Proof. unfold_composites. tracks_auto. Qed.
Hint Resolve tracks_callParseFn : tracks.

Lemma tracks_infixLoop fuel :
  forall precedence canAssign,
    tracks (infixLoop pp fuel precedence canAssign).
Proof.
  induction fuel as [|fuel IH]; intros precedence canAssign; simpl;
    tracks_auto.
Qed.
Hint Resolve tracks_infixLoop : tracks.

Lemma tracks_parsePrecedenceBody fuel precedence :
  tracks (parsePrecedenceBody pp fuel precedence).
Proof. unfold parsePrecedenceBody, error. tracks_auto. Qed.

End Expressions.

Lemma tracks_parsePrecedence fuel :
  forall precedence, tracks (parsePrecedence fuel precedence).
Proof.
  induction fuel as [|fuel IH]; intros precedence; simpl.
  - apply tracks_outOfFuel.
  - apply tracks_parsePrecedenceBody. exact IH.
Qed.
Hint Resolve tracks_parsePrecedence : tracks.

Lemma tracks_parameters fuel :
  forall paramConstant, tracks (parameters fuel paramConstant).
Proof.
  induction fuel as [|fuel IH]; intros paramConstant; simpl;
    unfold_composites; tracks_auto.
Qed.
Hint Resolve tracks_parameters : tracks.

Section Statements.
Variable st : M unit.
Hypothesis tracks_st : tracks st.

Lemma tracks_blockLoop fuel : tracks (blockLoop st fuel).
Proof. induction fuel as [|fuel IH]; simpl; unfold_composites; tracks_auto. Qed.
Hint Resolve tracks_blockLoop : tracks.

Lemma tracks_statementBody fuel : tracks (statementBody st fuel).
Proof. unfold_composites. tracks_auto. Qed.

End Statements.

Lemma tracks_statement fuel : tracks (statement fuel).
Proof.
  induction fuel as [|fuel IH]; simpl.
  - apply tracks_outOfFuel.
  - apply tracks_statementBody. exact IH.
Qed.
Hint Resolve tracks_statement : tracks.

Lemma tracks_compileLoop fuel : tracks (compileLoop fuel).
Proof. induction fuel as [|fuel IH]; simpl; unfold_composites; tracks_auto. Qed.

End Tracking.

Section DiagnosticsProperties.
Context {ops : OpCodes}.

Lemma endCompiler_result s r s' :
  endCompiler s = Ok r s' ->
  scanner s' = scanner s /\ parser s' = parser s /\
  vmStack s' = vmStack s /\ stderr s' = stderr s /\
  (r = None <-> hadError (parser s) = true).
Proof.
  intros H. destruct (compiler s) as [|c rest] eqn:E.
  - unfold endCompiler, emitBytes, emitByte, bind, getCompiler in H.
    rewrite E in H. discriminate.
  - rewrite (endCompiler_Ok _ _ _ E) in H. inversion H; subst.
    repeat split; try reflexivity;
      destruct (hadError (parser s)); congruence.
Qed.

(** X1: [compile] returns no function exactly when it printed a
    diagnostic.  It clears [hadError] first, so diagnostics of an earlier
    compilation do not count; what was printed before stays in front of
    what it prints; it leaves the VM stack as it found it and hands out the
    tokens of its source in order. *)
Theorem compile_fails_iff_diagnostic :
  forall fuel source s r s',
    compile fuel source s = Ok r s' ->
    vmStack s' = vmStack s /\
    (exists consumed, pending source = consumed ++ pending (scanner s')) /\
    exists printed,
      stderr s' = stderr s ++ printed /\
      (r = None <-> printed <> []) /\
      hadError (parser s') = nonEmpty printed.
Proof.
  intros fuel source s r s' H. unfold compile in H.
  apply bind_Ok in H as ([] & s1 & H1 & H).
  apply bind_Ok in H as ([] & s2 & H2 & H).
  apply bind_Ok in H as (p & s3 & H3 & H).
  apply bind_Ok in H as ([] & s4 & H4 & H).
  apply bind_Ok in H as ([] & s5 & H5 & H).
  apply bind_Ok in H as (atEof & s6 & H6 & H).
  apply bind_Ok in H as ([] & s7 & H7 & H).
  unfold initScanner in H1. unfold beginCompiler in H2.
  unfold getParser in H3. unfold setParser in H4.
  inversion H1; subst s1; clear H1. inversion H2; subst s2; clear H2.
  inversion H3; subst p s3; clear H3. inversion H4; subst s4; clear H4.
  apply tracks_advance in H5.
  assert (tracks (match_ TOKEN_EOF)) as T by (unfold_composites; tracks_auto).
  apply T in H6. clear T.
  assert (follows s6 s7) as F7.
  { destruct (negb atEof).
    - exact (tracks_compileLoop fuel _ _ _ H7).
    - inversion H7; subst. apply follows_refl. }
  apply endCompiler_result in H as (sc & pa & vm & er & R).
  pose proof (follows_trans _ _ _ H5
                (follows_trans _ _ _ H6 F7)) as F.
  destruct F as (v & _ & (consumed & C) & (printed & P & h)).
  simpl in v, C, P, h.
  split; [congruence|]. split.
  - exists consumed. rewrite sc. exact C.
  - exists printed. split; [congruence|].
    rewrite pa. split; [|exact h].
    rewrite R, h. destruct printed; simpl; split; congruence.
Qed.

(** X2: a statement, and an expression, never clear [hadError]: after
    either, [hadError] is what it was or true if a diagnostic was printed,
    and [stderr] is what it was followed by the new diagnostics. *)
Theorem hadError_is_sticky :
  (forall fuel s s',
      statement fuel s = Ok tt s' ->
      exists printed,
        stderr s' = stderr s ++ printed /\
        hadError (parser s') = hadError (parser s) || nonEmpty printed)
  /\ (forall fuel precedence s s',
        parsePrecedence fuel precedence s = Ok tt s' ->
        exists printed,
          stderr s' = stderr s ++ printed /\
          hadError (parser s') = hadError (parser s) || nonEmpty printed).
Proof.
  split.
  - intros fuel s s' H. apply (tracks_statement fuel s tt s' H).
  - intros fuel precedence s s' H.
    apply (tracks_parsePrecedence fuel precedence s tt s' H).
Qed.

(** X3: a statement, and an expression, leave the VM stack as they found
    it (every [push] of [addConstant] is popped again) and only move
    forward in the token stream: the tokens still to come are a suffix of
    those that were to come. *)
Theorem stack_and_tokens_preserved :
  (forall fuel s s',
      statement fuel s = Ok tt s' ->
      vmStack s' = vmStack s /\
      exists consumed, pending (scanner s) = consumed ++ pending (scanner s'))
  /\ (forall fuel precedence s s',
        parsePrecedence fuel precedence s = Ok tt s' ->
        vmStack s' = vmStack s /\
        exists consumed,
          pending (scanner s) = consumed ++ pending (scanner s')).
Proof.
  split.
  - intros fuel s s' H.
    destruct (tracks_statement fuel s tt s' H) as (v & _ & C & _). auto.
  - intros fuel precedence s s' H.
    destruct (tracks_parsePrecedence fuel precedence s tt s' H)
      as (v & _ & C & _). auto.
Qed.

End DiagnosticsProperties.

(** ** Resolving locals *)

Lemma resolveLocalFrom_range ls t i :
  -1 <= resolveLocalFrom ls i t < Z.of_nat i.
Proof.
  induction i as [|i IH]; simpl; [lia|].
  destruct (nth_error ls i) as [l|]; [destruct (sameLexeme (name l) t)|]; lia.
Qed.

Lemma resolveLocalFrom_none ls t i :
  (i <= List.length ls)%nat ->
  (resolveLocalFrom ls i t = -1 <->
   forall k l, (k < i)%nat -> nth_error ls k = Some l ->
               lexeme (name l) <> lexeme t).
Proof.
  induction i as [|i IH]; intros le; simpl.
  - split; [intros _ k l lt; lia|reflexivity].
  - destruct (nth_error ls i) as [l|] eqn:E.
    + destruct (sameLexeme (name l) t) eqn:S.
      * apply String.eqb_eq in S. split; [lia|].
        intros H. exfalso. exact (H i l ltac:(lia) E S).
      * apply String.eqb_neq in S. rewrite IH by lia. split.
        -- intros H k l' lt Hk.
           destruct (Nat.eq_dec k i) as [->|ne]; [congruence|].
           apply (H k l'); [lia|exact Hk].
        -- intros H k l' lt Hk. apply (H k l'); [lia|exact Hk].
    + apply nth_error_None in E. lia.
Qed.

Lemma resolveLocalFrom_found ls t i :
  (i <= List.length ls)%nat ->
  resolveLocalFrom ls i t <> -1 ->
  exists l,
    nth_error ls (Z.to_nat (resolveLocalFrom ls i t)) = Some l /\
    lexeme (name l) = lexeme t /\
    forall k l', (Z.to_nat (resolveLocalFrom ls i t) < k < i)%nat ->
                 nth_error ls k = Some l' -> lexeme (name l') <> lexeme t.
Proof.
  induction i as [|i IH]; intros le; simpl; [congruence|].
  destruct (nth_error ls i) as [l|] eqn:E.
  - destruct (sameLexeme (name l) t) eqn:S.
    + intros _. rewrite Nat2Z.id. exists l.
      apply String.eqb_eq in S. split; [exact E|]. split; [exact S|].
      intros k l' lt. lia.
    + intros ne. destruct (IH ltac:(lia) ne) as (l0 & H0 & same & above).
      exists l0. split; [exact H0|]. split; [exact same|].
      intros k l' lt Hk. destruct (Nat.eq_dec k i) as [->|nk].
      * apply String.eqb_neq in S. congruence.
      * apply (above k l'); [lia|exact Hk].
  - apply nth_error_None in E. lia.
Qed.

Section ResolveProperties.
Context {ops : OpCodes}.

(** X4: [resolveLocal] looks at the locals of the current frame only and
    leaves the state alone.  Its result is -1 exactly when no local has the
    lexeme; otherwise it is the greatest index of a local with the lexeme,
    whatever the depths, so that the innermost declaration shadows the
    others. *)
Theorem resolveLocal_innermost :
  forall s c rest t,
    compiler s = c :: rest ->
    exists r,
      resolveLocal t s = Ok r s /\
      -1 <= r < localCount c /\
      (r = -1 <->
       forall l, In l (locals c) -> lexeme (name l) <> lexeme t) /\
      (r <> -1 ->
       exists l,
         nth_error (locals c) (Z.to_nat r) = Some l /\
         lexeme (name l) = lexeme t /\
         forall k l', (Z.to_nat r < k)%nat ->
                      nth_error (locals c) k = Some l' ->
                      lexeme (name l') <> lexeme t).
Proof.
  intros s c rest t E.
  exists (resolveLocalFrom (locals c) (List.length (locals c)) t).
  split; [unfold resolveLocal, bind; rewrite (getCompiler_Ok _ _ _ E);
          reflexivity|].
  split; [apply resolveLocalFrom_range|]. split.
  - rewrite resolveLocalFrom_none by lia. split.
    + intros H l Hl. apply In_nth_error in Hl as [k Hk].
      apply (H k l); [|exact Hk].
      apply nth_error_Some. rewrite Hk. discriminate.
    + intros H k l _ Hk. apply (H l). eapply nth_error_In, Hk.
  - intros ne.
    destruct (resolveLocalFrom_found _ t _ (Nat.le_refl _) ne)
      as (l & Hl & same & above).
    exists l. split; [exact Hl|]. split; [exact same|].
    intros k l' lt Hk. apply (above k l'); [|exact Hk].
    split; [exact lt|]. apply nth_error_Some. rewrite Hk. discriminate.
Qed.

(** X5: [patchJump] writes the two operand bytes and nothing else, whatever
    the distance: the other bytes of the code, its length, the line table,
    the constants, the locals and the rest of the state are as before; in
    particular no diagnostic is printed. *)
Theorem patchJump_writes_two_bytes :
  forall s c rest offset,
    compiler s = c :: rest ->
    0 <= offset ->
    offset + 2 <= codeCount (function c) ->
    exists f',
      patchJump offset s = Ok tt (withFrames s (withFunction c f' :: rest)) /\
      List.length (code f') = List.length (code (function c)) /\
      (forall i, i <> Z.to_nat offset -> i <> Z.to_nat (offset + 1) ->
                 nth i (code f') 0 = nth i (code (function c)) 0) /\
      codeLines f' = codeLines (function c) /\
      codeCapacity f' = codeCapacity (function c) /\
      constants f' = constants (function c) /\
      arity f' = arity (function c).
Proof.
  intros s c rest offset E ge le.
  exists (patched (function c) offset).
  split; [exact (patchJump_Ok _ _ _ _ E ge le)|].
  unfold patched. simpl. split; [rewrite !writeAt_length; reflexivity|].
  split; [|repeat split].
  intros i n1 n2. rewrite !nth_writeAt_other by auto. reflexivity.
Qed.

End ResolveProperties.

(** ** The rule table *)

(** X6: a token kind has an infix handler exactly when its precedence is
    above [PREC_NONE], so the loop of [parsePrecedence], which goes on only
    for a precedence of [PREC_ASSIGNMENT] or more, never calls a NULL
    handler; and the tokens sent to [binary] and [unary] are those their
    switches handle. *)
Theorem rule_table_complete :
  forall t,
    (PREC_NONE < precedence (getRule t) <-> infix (getRule t) <> None) /\
    PREC_NONE <= precedence (getRule t) < PREC_PRIMARY /\
    (infix (getRule t) = Some fn_binary <->
     In t [TOKEN_BANG_EQUAL; TOKEN_EQUAL_EQUAL; TOKEN_GREATER;
           TOKEN_GREATER_EQUAL; TOKEN_LESS; TOKEN_LESS_EQUAL; TOKEN_PLUS;
           TOKEN_MINUS; TOKEN_STAR; TOKEN_SLASH]) /\
    (prefix (getRule t) = Some fn_unary <-> In t [TOKEN_BANG; TOKEN_MINUS]).
Proof.
  intros t. destruct t; simpl;
    unfold PREC_NONE, PREC_PRIMARY, PREC_CALL, PREC_EQUALITY, PREC_COMPARISON,
      PREC_TERM, PREC_FACTOR, PREC_AND, PREC_OR;
    (split; [split; [intros; try lia; discriminate
                    |intros H; try lia; exfalso; apply H; reflexivity]|]);
    (split; [lia|]);
    (split; (split; [intros H; try discriminate H; tauto
                    |intros H; try reflexivity;
                     repeat (destruct H as [H|H]; [discriminate H|]);
                     destruct H])).
Qed.

(** ** Expressions are safe and touch the function only *)

Lemma grows_refl f : grows f f.
Proof.
  split; [exists []; rewrite app_nil_r; reflexivity|]. split; [lia|reflexivity].
Qed.

Lemma grows_trans f1 f2 f3 : grows f1 f2 -> grows f2 f3 -> grows f1 f3.
Proof.
  intros ((m1 & H1) & c1 & a1) ((m2 & H2) & c2 & a2).
  split; [exists (m1 ++ m2); rewrite H2, H1, app_assoc; reflexivity|].
  split; [lia|congruence].
Qed.

Lemma withFunction_same c : withFunction c (function c) = c.
Proof. destruct c. reflexivity. Qed.

(** What [safeRun] tells about a run that returned. *)
Lemma safeRun_Ok {A} (m : M A) s a s' c rest :
  safeRun m s -> compiler s = c :: rest -> m s = Ok a s' ->
  exists f', compiler s' = withFunction c f' :: rest /\ grows (function c) f'.
Proof. intros H E R. specialize (H c rest E). rewrite R in H. exact H. Qed.

Lemma safeRun_bind {A B} (m : M A) (k : A -> M B) s :
  safeRun m s ->
  (forall a s1, m s = Ok a s1 -> safeRun (k a) s1) ->
  safeRun (bind m k) s.
Proof.
  intros Hm Hk c rest E. unfold bind.
  pose proof (Hm c rest E) as H. destruct (m s) as [a s1| |] eqn:R; auto.
  destruct H as (f1 & E1 & g1).
  pose proof (Hk a s1 eq_refl _ _ E1) as H.
  destruct (k a s1) as [b s2| |]; auto.
  destruct H as (f2 & E2 & g2). exists f2. split; [exact E2|].
  exact (grows_trans _ _ _ g1 g2).
Qed.

Lemma placeholderAt_kept {A} (m : M A) s a s' offset :
  safeRun m s -> m s = Ok a s' -> placeholderAt offset s ->
  placeholderAt offset s'.
Proof.
  intros Hm R (c & rest & E & ge & le).
  destruct (safeRun_Ok _ _ _ _ _ _ Hm E R) as (f' & E' & _ & g & _).
  exists (withFunction c f'), rest. split; [exact E'|]. simpl. lia.
Qed.

Lemma exprSafe_bind {A B} offset (m : M A) (k : A -> M B) :
  exprSafe offset m -> (forall a, exprSafe offset (k a)) ->
  exprSafe offset (bind m k).
Proof.
  intros Hm Hk s P. apply safeRun_bind; [exact (Hm s P)|].
  intros a s1 R. apply Hk. destruct offset as [o|]; [|exact I].
  exact (placeholderAt_kept _ _ _ _ _ (Hm s P) R P).
Qed.

Lemma exprSafe_weaken {A} offset (m : M A) :
  exprSafe None m -> exprSafe offset m.
Proof. intros H s _. exact (H s I). Qed.

Lemma exprSafe_ret {A} offset (a : A) : exprSafe offset (ret a).
Proof.
  intros s _ c rest E. simpl. exists (function c).
  rewrite withFunction_same. split; [exact E|apply grows_refl].
Qed.

Lemma exprSafe_outOfFuel {A} offset : exprSafe offset (@outOfFuel A).
Proof. intros s _ c rest E. exact I. Qed.

Lemma alwaysOk_ret {A} (a : A) : alwaysOk (ret a).
Proof. intros s. exists a, s. reflexivity. Qed.

Lemma alwaysOk_bind {A B} (m : M A) (k : A -> M B) :
  alwaysOk m -> (forall a, alwaysOk (k a)) -> alwaysOk (bind m k).
Proof.
  intros Hm Hk s. destruct (Hm s) as (a & s1 & E).
  destruct (Hk a s1) as (b & s2 & E2). exists b, s2.
  unfold bind. rewrite E. exact E2.
Qed.

Lemma alwaysOk_getParser : alwaysOk getParser.
Proof. intros s. eexists. eexists. reflexivity. Qed.

Lemma alwaysOk_setParser p : alwaysOk (setParser p).
Proof. intros s. eexists. eexists. reflexivity. Qed.

Lemma alwaysOk_scanToken : alwaysOk scanToken.
Proof.
  intros s. unfold scanToken. destruct (pending (scanner s));
    eexists; eexists; reflexivity.
Qed.

Lemma alwaysOk_errorAt ln message : alwaysOk (errorAt ln message).
Proof. intros s. eexists. eexists. reflexivity. Qed.

Create HintDb total.
#[export] Hint Resolve alwaysOk_ret alwaysOk_getParser alwaysOk_setParser
  alwaysOk_scanToken alwaysOk_errorAt : total.

Ltac total_auto :=
  repeat first
    [ solve [ auto with total ]
    | match goal with
      | |- alwaysOk (bind _ _) => apply alwaysOk_bind; [ | intros ]
      | |- alwaysOk (if ?b then _ else _) => destruct b
      end ].

Lemma alwaysOk_advance : alwaysOk advance.
Proof. unfold advance. total_auto. Qed.
#[export] Hint Resolve alwaysOk_advance : total.

Lemma alwaysOk_error message : alwaysOk (error message).
Proof. unfold error. total_auto. Qed.
#[export] Hint Resolve alwaysOk_error : total.

Lemma alwaysOk_check t : alwaysOk (check t).
Proof. unfold check. total_auto. Qed.
#[export] Hint Resolve alwaysOk_check : total.

Lemma alwaysOk_consume t message : alwaysOk (consume t message).
Proof. unfold consume. total_auto. Qed.

Lemma alwaysOk_match t : alwaysOk (match_ t).
Proof. unfold match_. total_auto. Qed.
#[export] Hint Resolve alwaysOk_consume alwaysOk_match : total.

(** An operation of the token stream adapter is safe. *)
Lemma exprSafe_token {A} offset (m : M A) :
  framesUnchanged m -> alwaysOk m -> exprSafe offset m.
Proof.
  intros F T s _ c rest E. destruct (T s) as (a & s' & R). rewrite R.
  exists (function c). rewrite withFunction_same.
  split; [rewrite (F _ _ _ R); exact E|apply grows_refl].
Qed.

Create HintDb safe.
#[export] Hint Resolve exprSafe_ret exprSafe_outOfFuel : safe.
#[export] Hint Extern 2 (exprSafe _ _) =>
  (apply exprSafe_token; [ solve [ auto with frames ]
                         | solve [ auto with total ] ]) : safe.

Ltac safe_auto :=
  repeat first
    [ solve [ auto with safe ]
    | match goal with
      | |- exprSafe _ (bind _ _) => apply exprSafe_bind; [ | intros ]
      | |- exprSafe _ (let _ := _ in _) => cbv zeta
      | |- exprSafe _ (if ?b then _ else _) => destruct b
      end ].

Lemma advance_previous s a s' :
  advance s = Ok a s' -> previous (parser s') = current (parser s).
Proof.
  unfold advance, bind, getParser, scanToken, setParser.
  destruct (pending (scanner s)); intros H; inversion H; reflexivity.
Qed.

Lemma precedence_nonneg t : 0 <= precedence (getRule t).
Proof. destruct t; simpl; unfold PREC_NONE, PREC_CALL, PREC_EQUALITY,
  PREC_COMPARISON, PREC_TERM, PREC_FACTOR, PREC_AND, PREC_OR; lia. Qed.

Lemma infix_of_precedence t precedence :
  1 <= precedence -> precedence <= rulePrecedence (getRule t) ->
  infix (getRule t) <> None.
Proof.
  intros ge le. destruct t; simpl in *; try discriminate;
    unfold rulePrecedence, PREC_NONE in le; simpl in le; lia.
Qed.

Lemma infix_not_unary t : infix (getRule t) <> Some fn_unary.
Proof. destruct t; simpl; discriminate. Qed.

Lemma prefix_not_binary t : prefix (getRule t) <> Some fn_binary.
Proof. destruct t; simpl; discriminate. Qed.

Section ExpressionSafety.
Context {ops : OpCodes}.

Lemma exprSafe_getCompiler offset : exprSafe offset getCompiler.
Proof.
  intros s _ c rest E. rewrite (getCompiler_Ok _ _ _ E).
  exists (function c). rewrite withFunction_same.
  split; [exact E|apply grows_refl].
Qed.

Lemma grows_emitted f byte ln : grows f (emitted f byte ln).
Proof.
  split; [exists []; simpl; rewrite app_nil_r; reflexivity|].
  split; [rewrite codeCount_emitted; lia|reflexivity].
Qed.

Lemma exprSafe_emitByte offset byte : exprSafe offset (emitByte byte).
Proof.
  intros s _ c rest E. rewrite (emitByte_Ok _ _ _ _ E).
  eexists. split; [reflexivity|apply grows_emitted].
Qed.

Lemma exprSafe_addConstant offset v : exprSafe offset (addConstant v).
Proof.
  intros s _ c rest E. rewrite (addConstant_Ok _ _ _ _ E).
  eexists. split; [reflexivity|].
  split; [exists [v]; reflexivity|]. split; [apply Z.le_refl|reflexivity].
Qed.

Lemma exprSafe_patchJump offset : exprSafe (Some offset) (patchJump offset).
Proof.
  intros s (c0 & rest0 & E0 & ge & le) c rest E.
  rewrite E in E0. inversion E0; subst c0 rest0.
  rewrite (patchJump_Ok _ _ _ _ E ge le).
  eexists. split; [reflexivity|].
  split; [exists []; simpl; rewrite app_nil_r; reflexivity|].
  split; [rewrite codeCount_patched; lia|reflexivity].
Qed.
Hint Resolve exprSafe_getCompiler exprSafe_emitByte exprSafe_addConstant
  exprSafe_patchJump : safe.

Lemma exprSafe_emitBytes offset byte1 byte2 :
  exprSafe offset (emitBytes byte1 byte2).
Proof. unfold emitBytes. safe_auto. Qed.

Lemma exprSafe_emitJump offset instruction :
  exprSafe offset (emitJump instruction).
Proof. unfold emitJump. safe_auto. Qed.

Lemma exprSafe_emitConstant offset v : exprSafe offset (emitConstant v).
Proof. unfold emitConstant, emitBytes. safe_auto. Qed.

Lemma exprSafe_nameConstant offset : exprSafe offset nameConstant.
Proof. unfold nameConstant. safe_auto. Qed.
Hint Resolve exprSafe_emitBytes exprSafe_emitJump exprSafe_emitConstant
  exprSafe_nameConstant : safe.

Lemma emitJump_places instruction s offset s' :
  emitJump instruction s = Ok offset s' -> placeholderAt offset s'.
Proof.
  intros H. apply emitJump_placeholder in H
    as (c & rest & f' & E & E' & ge & le & _).
  exists (withFunction c f'), rest. split; [exact E'|]. simpl. lia.
Qed.

Variable pp : Precedence -> M unit.
Hypothesis safe_pp :
  forall offset precedence, 1 <= precedence -> exprSafe offset (pp precedence).

Lemma exprSafe_expression offset : exprSafe offset (expression pp).
Proof. apply safe_pp. unfold PREC_ASSIGNMENT. lia. Qed.
Hint Resolve exprSafe_expression : safe.

Lemma exprSafe_and offset canAssign : exprSafe offset (and_ pp canAssign).
Proof.
  intros s P. unfold and_. apply safeRun_bind.
  - exact (exprSafe_emitJump offset _ s P).
  - intros endJump s1 R.
    assert (exprSafe (Some endJump)
              (emitByte OP_POP ;; pp PREC_AND ;; patchJump endJump)%comp) as H.
    { safe_auto. apply safe_pp. unfold PREC_AND. lia. }
    apply H. exact (emitJump_places _ _ _ _ R).
Qed.

Lemma exprSafe_or offset canAssign : exprSafe offset (or_ pp canAssign).
Proof.
  intros s P. unfold or_. apply safeRun_bind.
  - exact (exprSafe_emitJump offset _ s P).
  - intros elseJump s1 R1. apply safeRun_bind.
    + exact (exprSafe_emitJump None _ s1 I).
    + intros endJump s2 R2.
      pose proof (placeholderAt_kept _ _ _ _ elseJump
                    (exprSafe_emitJump None _ s1 I) R2
                    (emitJump_places _ _ _ _ R1)) as P1.
      pose proof (emitJump_places _ _ _ _ R2) as P2.
      apply safeRun_bind.
      * exact (exprSafe_patchJump elseJump s2 P1).
      * intros [] s3 R3.
        assert (exprSafe (Some endJump)
                  (emitByte OP_POP ;; pp PREC_OR ;; patchJump endJump)%comp)
          as H.
        { safe_auto. apply safe_pp. unfold PREC_OR. lia. }
        apply H.
        exact (placeholderAt_kept _ _ _ _ endJump
                 (exprSafe_patchJump elseJump s2 P1) R3 P2).
Qed.

Lemma safeRun_binary offset canAssign s :
  match offset with Some o => placeholderAt o s | None => True end ->
  infix (getRule (type (previous (parser s)))) = Some fn_binary ->
  safeRun (binary pp canAssign) s.
Proof.
  intros P B. unfold binary. apply safeRun_bind.
  - apply (exprSafe_token offset); auto with frames total.
  - intros p s1 R. unfold getParser in R. inversion R; subst p s1. clear R.
    apply safeRun_bind.
    + apply (safe_pp offset); [|exact P].
      pose proof (precedence_nonneg (type (previous (parser s)))). lia.
    + intros [] s2 _.
      destruct (type (previous (parser s))); simpl in B; try discriminate B;
        first [ apply (exprSafe_emitByte None); exact I
              | apply (exprSafe_emitBytes None); exact I ].
Qed.

Lemma safeRun_unary offset canAssign s :
  match offset with Some o => placeholderAt o s | None => True end ->
  prefix (getRule (type (previous (parser s)))) = Some fn_unary ->
  safeRun (unary pp canAssign) s.
Proof.
  intros P B. unfold unary. apply safeRun_bind.
  - apply (exprSafe_token offset); auto with frames total.
  - intros p s1 R. unfold getParser in R. inversion R; subst p s1. clear R.
    apply safeRun_bind.
    + apply (safe_pp offset); [|exact P]. unfold PREC_UNARY. lia.
    + intros [] s2 _.
      destruct (type (previous (parser s))); simpl in B; try discriminate B;
        apply (exprSafe_emitByte None); exact I.
Qed.

Lemma exprSafe_callArguments offset fuel :
  forall argCount, exprSafe offset (callArguments pp fuel argCount).
Proof.
  induction fuel as [|fuel IH]; intros argCount; simpl; safe_auto.
Qed.
Hint Resolve exprSafe_callArguments : safe.

Lemma exprSafe_call offset fuel canAssign :
  exprSafe offset (call pp fuel canAssign).
Proof. unfold call. safe_auto. Qed.

Lemma exprSafe_grouping offset canAssign :
  exprSafe offset (grouping pp canAssign).
Proof. unfold grouping. safe_auto. Qed.

Lemma exprSafe_literals offset canAssign :
  exprSafe offset (boolean canAssign) /\ exprSafe offset (null_ canAssign) /\
  exprSafe offset (number canAssign) /\ exprSafe offset (string_ canAssign).
Proof. unfold boolean, null_, number, string_. repeat split; safe_auto. Qed.

Lemma exprSafe_variable offset canAssign :
  exprSafe offset (variable pp canAssign).
Proof. unfold variable, resolveLocal. safe_auto. Qed.

End ExpressionSafety.

Section ParserSafety.
Context {ops : OpCodes}.

Section Body.
Variable pp : Precedence -> M unit.
Hypothesis safe_pp :
  forall offset precedence, 1 <= precedence -> exprSafe offset (pp precedence).

Lemma safeRun_callParseFn offset fuel fn canAssign s :
  match offset with Some o => placeholderAt o s | None => True end ->
  fn <> None ->
  (fn = Some fn_binary ->
   infix (getRule (type (previous (parser s)))) = Some fn_binary) ->
  (fn = Some fn_unary ->
   prefix (getRule (type (previous (parser s)))) = Some fn_unary) ->
  safeRun (callParseFn pp fuel fn canAssign) s.
Proof.
  intros P some B U.
  destruct (exprSafe_literals offset canAssign) as (Lb & Ln & Lm & Ls).
  destruct fn as [[]|]; simpl; try congruence.
  - exact (exprSafe_grouping pp safe_pp offset canAssign s P).
  - exact (exprSafe_call pp safe_pp offset fuel canAssign s P).
  - exact (safeRun_unary pp safe_pp offset canAssign s P (U eq_refl)).
  - exact (safeRun_binary pp safe_pp offset canAssign s P (B eq_refl)).
  - exact (exprSafe_variable pp safe_pp offset canAssign s P).
  - exact (Ls s P).
  - exact (Lm s P).
  - exact (exprSafe_and pp safe_pp offset canAssign s P).
  - exact (Lb s P).
  - exact (Ln s P).
  - exact (exprSafe_or pp safe_pp offset canAssign s P).
Qed.

Lemma exprSafe_infixLoop offset fuel :
  forall precedence canAssign,
    1 <= precedence ->
    exprSafe offset (infixLoop pp fuel precedence canAssign).
Proof.
  induction fuel as [|fuel IH]; intros precedence canAssign ge s P; simpl.
  - intros c rest E. exact I.
  - apply safeRun_bind.
    + apply (exprSafe_token offset); auto with frames total.
    + intros p s0 R. unfold getParser in R. inversion R; subst p s0. clear R.
      destruct (precedence <=? rulePrecedence
                                 (getRule (type (current (parser s)))))
        eqn:C; [|exact (exprSafe_ret offset tt s P)].
      apply Z.leb_le in C.
      assert (exprSafe offset advance) as A
        by (apply exprSafe_token; auto with frames total).
      apply safeRun_bind; [exact (A s P)|].
      intros [] s1 R1.
      assert (match offset with Some o => placeholderAt o s1 | None => True end)
        as P1.
      { destruct offset as [o|]; [|exact I].
        exact (placeholderAt_kept _ _ _ _ o (A s P) R1 P). }
      pose proof (advance_previous _ _ _ R1) as prev.
      apply safeRun_bind.
      * apply (exprSafe_token offset); auto with frames total.
      * intros p s2 R2. unfold getParser in R2. inversion R2; subst p s2.
        clear R2. rewrite prev.
        assert (safeRun
                  (callParseFn pp fuel
                     (infix (getRule (type (current (parser s))))) canAssign)
                  s1) as S1.
        { apply (safeRun_callParseFn offset); [exact P1| | |].
          - exact (infix_of_precedence _ _ ge C).
          - intros H. rewrite prev. exact H.
          - intros H. exfalso. exact (infix_not_unary _ H). }
        apply safeRun_bind; [exact S1|].
        intros [] s3 R3. apply IH; [exact ge|].
        destruct offset as [o|]; [|exact I].
        exact (placeholderAt_kept _ _ _ _ o S1 R3 P1).
Qed.

Lemma exprSafe_parsePrecedenceBody offset fuel precedence :
  1 <= precedence ->
  exprSafe offset (parsePrecedenceBody pp fuel precedence).
Proof.
  intros ge s P. unfold parsePrecedenceBody.
  assert (exprSafe offset advance) as A
    by (apply exprSafe_token; auto with frames total).
  apply safeRun_bind; [exact (A s P)|].
  intros [] s1 R1.
  assert (match offset with Some o => placeholderAt o s1 | None => True end)
    as P1.
  { destruct offset as [o|]; [|exact I].
    exact (placeholderAt_kept _ _ _ _ o (A s P) R1 P). }
  apply safeRun_bind.
  - apply (exprSafe_token offset); auto with frames total.
  - intros p s2 R2. unfold getParser in R2. inversion R2; subst p s2. clear R2.
    destruct (prefix (getRule (type (previous (parser s1))))) as [fn|] eqn:F.
    + assert (safeRun (callParseFn pp fuel (Some fn)
                         (precedence <=? PREC_ASSIGNMENT)) s1) as S1.
      { apply (safeRun_callParseFn offset); [exact P1|discriminate| |].
        - intros H. exfalso. rewrite <- F in H. exact (prefix_not_binary _ H).
        - intros H. rewrite F. exact H. }
      apply safeRun_bind; [exact S1|].
      intros [] s3 R3.
      apply (exprSafe_infixLoop offset fuel precedence _ ge s3).
      destruct offset as [o|]; [|exact I].
      exact (placeholderAt_kept _ _ _ _ o S1 R3 P1).
    + apply (exprSafe_token offset); auto with frames total.
Qed.

End Body.

Lemma exprSafe_parsePrecedence fuel :
  forall offset precedence,
    1 <= precedence -> exprSafe offset (parsePrecedence fuel precedence).
Proof.
  induction fuel as [|fuel IH]; intros offset precedence ge; simpl.
  - apply exprSafe_outOfFuel.
  - apply exprSafe_parsePrecedenceBody; [exact IH|exact ge].
Qed.

(** X7: parsing an expression is safe.  From any state with a current
    frame, [parsePrecedence] at a precedence of [PREC_ASSIGNMENT] or more
    dereferences no NULL handler, fails no assertion and patches no byte
    outside the code; and when it returns it has changed, among the
    frames, only the function of the current one: its constants have only
    been appended to, its code is not shorter, and the arity, the locals,
    the scope depth and the enclosing frames are as before. *)
Theorem expression_is_safe :
  forall fuel precedence s c rest,
    1 <= precedence ->
    compiler s = c :: rest ->
    parsePrecedence fuel precedence s <> Undefined /\
    forall s',
      parsePrecedence fuel precedence s = Ok tt s' ->
      exists f',
        compiler s' = mkCompiler f' (locals c) (scopeDepth c) :: rest /\
        (exists more, constants f' = constants (function c) ++ more) /\
        codeCount (function c) <= codeCount f' /\
        arity f' = arity (function c).
Proof.
  intros fuel precedence s c rest ge E.
  pose proof (exprSafe_parsePrecedence fuel None precedence ge s I c rest E)
    as H.
  split.
  - intros U. rewrite U in H. exact H.
  - intros s' R. rewrite R in H. exact H.
Qed.

End ParserSafety.

(** ** Leaving a scope *)

Lemma withFrames_same s frames : compiler s = frames -> withFrames s frames = s.
Proof. destruct s. simpl. intros ->. reflexivity. Qed.

Section EndScope.
Context {ops : OpCodes}.

(** The loop of [endScope] always returns: it emits one [OP_POP] for each
    local it removes. *)
Lemma endScopeLoop_Ok n :
  forall s c rest,
    compiler s = c :: rest ->
    let k := popCount n (scopeDepth c) (locals c) in
    endScopeLoop n s =
    Ok tt (withFrames s
             (mkCompiler (emittedRepeat k (function c) OP_POP
                                        (line (previous (parser s))))
                         (dropLast k (locals c)) (scopeDepth c) :: rest)).
Proof.
  induction n as [|n IH]; intros s c rest E; simpl.
  - unfold ret. rewrite withFrames_same; [reflexivity|].
    rewrite E. destruct c. reflexivity.
  - unfold bind at 1. rewrite (getCompiler_Ok _ _ _ E).
    unfold localCount.
    destruct (nth_error (locals c) (List.length (locals c) - 1)) as [top|].
    + destruct ((Z.of_nat (List.length (locals c)) >? 0)
                && (depth top >? scopeDepth c)).
      * unfold bind at 1. rewrite (emitByte_Ok _ _ _ _ E).
        unfold bind at 1. erewrite getCompiler_Ok by reflexivity.
        unfold bind at 1. erewrite setCompiler_Ok by reflexivity.
        erewrite IH by reflexivity. reflexivity.
      * unfold ret. rewrite withFrames_same; [reflexivity|].
        rewrite E. destruct c. reflexivity.
    + unfold ret. rewrite withFrames_same; [reflexivity|].
      rewrite E. destruct c. reflexivity.
Qed.

Lemma endScope_Ok s c rest :
  compiler s = c :: rest ->
  let k := popCount (List.length (locals c)) (scopeDepth c - 1) (locals c) in
  endScope s =
  Ok tt (withFrames s
           (mkCompiler (emittedRepeat k (function c) OP_POP
                                      (line (previous (parser s))))
                       (dropLast k (locals c)) (scopeDepth c - 1) :: rest)).
Proof.
  intros E. unfold endScope. unfold bind at 1.
  rewrite (getCompiler_Ok _ _ _ E). unfold bind.
  rewrite (setCompiler_Ok _ _ _ _ E).
  erewrite endScopeLoop_Ok by reflexivity. reflexivity.
Qed.

End EndScope.

(** With sorted depths, the locals removed are those deeper than [d]. *)
Lemma popCount_sorted ls :
  forall d,
    (forall i j li lj, (i <= j)%nat -> nth_error ls i = Some li ->
                       nth_error ls j = Some lj -> depth li <= depth lj) ->
    dropLast (popCount (List.length ls) d ls) ls
    = filter (fun l => depth l <=? d) ls.
Proof.
  induction ls as [|x ls IH] using rev_ind; intros d sorted; [reflexivity|].
  assert ((forall i j li lj, (i <= j)%nat -> nth_error ls i = Some li ->
                             nth_error ls j = Some lj ->
                             depth li <= depth lj)
          /\ Forall (fun l => depth l <= depth x) ls) as [sorted' below].
  { split.
    - intros i j li lj le Hi Hj. apply (sorted i j); auto.
      + rewrite nth_error_app1; [exact Hi|].
        apply nth_error_Some. rewrite Hi. discriminate.
      + rewrite nth_error_app1; [exact Hj|].
        apply nth_error_Some. rewrite Hj. discriminate.
    - apply Forall_forall. intros l Hl. apply In_nth_error in Hl as [i Hi].
      assert (i < List.length ls)%nat
        by (apply nth_error_Some; rewrite Hi; discriminate).
      apply (sorted i (List.length ls)); [lia| |].
      + rewrite nth_error_app1 by lia. exact Hi.
      + rewrite nth_error_app2 by lia. rewrite Nat.sub_diag. reflexivity. }
  rewrite length_app, Nat.add_1_r. simpl popCount.
  rewrite length_app, Nat.add_1_r.
  replace (S (List.length ls) - 1)%nat with (List.length ls) by lia.
  rewrite nth_error_app2 by lia. rewrite Nat.sub_diag. simpl nth_error.
  replace (Z.of_nat (S (List.length ls)) >? 0) with true
    by (symmetry; apply Z.gtb_lt; lia).
  rewrite filter_app. simpl.
  destruct (depth x >? d) eqn:D; simpl.
  - rewrite removelast_last, IH by exact sorted'.
    replace (depth x <=? d) with false
      by (symmetry; apply Z.leb_gt; apply Z.gtb_lt in D; lia).
    rewrite app_nil_r. reflexivity.
  - assert (depth x <= d) as le by (destruct (Z.gtb_spec (depth x) d); [discriminate|lia]).
    replace (depth x <=? d) with true by (symmetry; apply Z.leb_le; exact le).
    f_equal. symmetry. apply forallb_filter_id.
    apply forallb_forall. intros l Hl. rewrite Forall_forall in below.
    apply Z.leb_le. specialize (below l Hl). lia.
Qed.

Lemma dropLast_length {A} k :
  forall l : list A, List.length (dropLast k l) = (List.length l - k)%nat.
Proof.
  induction k as [|k IH]; intros l; simpl; [lia|].
  rewrite IH, length_removelast. lia.
Qed.

Lemma popCount_le n :
  forall d ls, (popCount n d ls <= List.length ls)%nat.
Proof.
  induction n as [|n IH]; intros d ls; simpl; [lia|].
  destruct (nth_error ls (List.length ls - 1)) as [top|] eqn:E; [|lia].
  destruct ((Z.of_nat (List.length ls) >? 0) && (depth top >? d)); [|lia].
  specialize (IH d (removelast ls)). rewrite length_removelast in IH.
  assert (List.length ls <> 0)%nat
    by (intros Z0; destruct ls; [destruct (0 - 1)%nat; discriminate|discriminate]).
  lia.
Qed.

Lemma emittedRepeat_parts n :
  forall f byte ln,
    codeLines (emittedRepeat n f byte ln) = codeLines f ++ repeat ln n /\
    constants (emittedRepeat n f byte ln) = constants f /\
    arity (emittedRepeat n f byte ln) = arity f.
Proof.
  induction n as [|n IH]; intros f byte ln; simpl.
  - rewrite app_nil_r. auto.
  - destruct (IH (emitted f byte ln) byte ln) as (L & K & A).
    rewrite L, K, A. simpl. rewrite <- app_assoc. auto.
Qed.

Section EndScopeProperties.
Context {ops : OpCodes}.

(** X8: [endScope] lowers the scope depth by one and, the depths being
    sorted, removes exactly the locals deeper than the new depth, keeping
    the others in place; it emits one [OP_POP] for each local removed and
    changes nothing else. *)
Theorem endScope_pops_inner_locals :
  forall s c rest,
    compiler s = c :: rest ->
    depthsSorted (locals c) ->
    let kept := filter (fun l => depth l <=? scopeDepth c - 1) (locals c) in
    let k := (List.length (locals c) - List.length kept)%nat in
    exists f',
      endScope s
      = Ok tt (withFrames s (mkCompiler f' kept (scopeDepth c - 1) :: rest)) /\
      code f' = code (function c) ++ repeat OP_POP k /\
      codeLines f' = codeLines (function c)
                     ++ repeat (line (previous (parser s))) k /\
      constants f' = constants (function c) /\
      arity f' = arity (function c).
Proof.
  intros s c rest E sorted kept k.
  pose proof (endScope_Ok s c rest E) as H. simpl in H.
  pose proof (popCount_sorted (locals c) (scopeDepth c - 1) sorted) as D.
  fold kept in D.
  assert (popCount (List.length (locals c)) (scopeDepth c - 1) (locals c) = k)
    as K.
  { unfold k. rewrite <- D, dropLast_length.
    pose proof (popCount_le (List.length (locals c)) (scopeDepth c - 1)
                            (locals c)). lia. }
  rewrite D, K in H. eexists. split; [exact H|].
  split; [apply code_emittedRepeat|]. apply emittedRepeat_parts.
Qed.

End EndScopeProperties.

(** ** Statements keep the frames and the scope depth *)

Lemma extends_refl f : extends f f.
Proof. split; [exists []; rewrite app_nil_r; reflexivity|lia]. Qed.

Lemma extends_trans f1 f2 f3 : extends f1 f2 -> extends f2 f3 -> extends f1 f3.
Proof.
  intros ((m1 & H1) & c1) ((m2 & H2) & c2).
  split; [exists (m1 ++ m2); rewrite H2, H1, app_assoc; reflexivity|lia].
Qed.

Lemma movesRun_bind {A B} d1 d2 d (m : M A) (k : A -> M B) s :
  movesRun d1 m s ->
  (forall a s1, m s = Ok a s1 -> movesRun d2 (k a) s1) ->
  d = d1 + d2 ->
  movesRun d (bind m k) s.
Proof.
  intros Hm Hk -> b s' c rest E H. apply bind_Ok in H as (a & s1 & R & H).
  destruct (Hm _ _ _ _ E R) as (c1 & E1 & D1 & X1).
  destruct (Hk a s1 R _ _ _ _ E1 H) as (c2 & E2 & D2 & X2).
  exists c2. split; [exact E2|]. split; [lia|].
  exact (extends_trans _ _ _ X1 X2).
Qed.

Lemma moves_bind {A B} d1 d2 d (m : M A) (k : A -> M B) :
  moves d1 m -> (forall a, moves d2 (k a)) -> d = d1 + d2 ->
  moves d (bind m k).
Proof.
  intros Hm Hk e s. apply (movesRun_bind d1 d2); auto.
  intros a s1 _. apply Hk.
Qed.

Lemma moves_ret {A} (a : A) : moves 0 (ret a).
Proof.
  intros s a' s' c rest E H. inversion H; subst. exists c.
  split; [exact E|]. split; [lia|apply extends_refl].
Qed.

Lemma moves_undefined {A} d : moves d (@undefined A).
Proof. intros s a s' c rest E H. discriminate. Qed.

Lemma moves_outOfFuel {A} d : moves d (@outOfFuel A).
Proof. intros s a s' c rest E H. discriminate. Qed.

(** An operation that is safe in the sense of expressions moves by 0. *)
Lemma moves_safe {A} (m : M A) : exprSafe None m -> moves 0 m.
Proof.
  intros H s a s' c rest E R.
  destruct (safeRun_Ok _ _ _ _ _ _ (H s I) E R) as (f' & E' & K & C & _).
  exists (withFunction c f'). split; [exact E'|]. split; [simpl; lia|].
  split; assumption.
Qed.

Lemma moves_unchanged {A} (m : M A) : framesUnchanged m -> moves 0 m.
Proof.
  intros F s a s' c rest E R. exists c.
  split; [rewrite (F _ _ _ R); exact E|]. split; [lia|apply extends_refl].
Qed.

Create HintDb moves.
#[export] Hint Resolve moves_ret moves_undefined moves_outOfFuel : moves.
#[export] Hint Extern 2 (moves _ _) =>
  (apply moves_unchanged; solve [ auto with frames ]) : moves.
#[export] Hint Extern 3 (moves _ _) =>
  (apply moves_safe; solve [ auto with safe ]) : moves.

Ltac moves_auto :=
  repeat first
    [ solve [ eauto with moves ]
    | match goal with
      | |- moves _ (bind _ _) => eapply moves_bind; [ | intros | ]
      | |- moves _ (let _ := _ in _) => cbv zeta
      | |- moves _ (let '(_, _) := ?r in _) => destruct r
      | |- moves _ (if ?b then _ else _) => destruct b
      | |- _ = _ => reflexivity
      end ].

Section SafeHints.
Context {ops : OpCodes}.

Lemma exprSafe_emitLoop offset loopStart : exprSafe offset (emitLoop loopStart).
Proof.
  pose proof exprSafe_emitByte. pose proof exprSafe_getCompiler.
  unfold emitLoop. safe_auto.
Qed.

Lemma exprSafe_parseVariable offset message constant :
  exprSafe offset (parseVariable message constant).
Proof.
  pose proof exprSafe_getCompiler. pose proof exprSafe_nameConstant.
  unfold parseVariable. safe_auto.
Qed.

Lemma exprSafe_expressionStatement offset fuel :
  exprSafe offset (expression (parsePrecedence fuel)).
Proof. apply exprSafe_parsePrecedence. unfold PREC_ASSIGNMENT. lia. Qed.

End SafeHints.
#[export] Hint Resolve exprSafe_getCompiler exprSafe_emitByte
  exprSafe_addConstant exprSafe_emitBytes exprSafe_emitJump
  exprSafe_emitConstant exprSafe_nameConstant exprSafe_emitLoop
  exprSafe_parseVariable exprSafe_expressionStatement : safe.

Section StatementFrames.
Context {ops : OpCodes}.

Lemma movesRun_setCompiler s c rest c' d :
  compiler s = c :: rest ->
  scopeDepth c' = scopeDepth c + d -> extends (function c) (function c') ->
  movesRun d (setCompiler c') s.
Proof.
  intros E D X a s' c0 rest0 E0 H. rewrite E in E0. inversion E0; subst c0 rest0.
  rewrite (setCompiler_Ok _ _ _ _ E) in H. inversion H; subst.
  exists c'. split; [reflexivity|]. split; [exact D|exact X].
Qed.

Lemma getCompiler_top s c s' :
  getCompiler s = Ok c s' -> s' = s /\ exists rest, compiler s = c :: rest.
Proof. apply getCompiler_inv. Qed.

Lemma moves_storeCode offset byte : moves 0 (storeCode offset byte).
Proof.
  intros s a s' c rest E H. unfold storeCode, bind in H.
  rewrite (getCompiler_Ok _ _ _ E) in H.
  destruct ((0 <=? offset) && (offset <? codeCount (function c)));
    [|discriminate].
  rewrite (setFunction_Ok _ _ _ _ E) in H. inversion H; subst.
  eexists. split; [reflexivity|]. split; [simpl; lia|].
  split; [exists []; simpl; rewrite app_nil_r; reflexivity|].
  unfold codeCount. simpl. rewrite writeAt_length. lia.
Qed.
Hint Resolve moves_storeCode : moves.

Lemma moves_patchJump offset : moves 0 (patchJump offset).
Proof. unfold patchJump. moves_auto. Qed.

Lemma moves_beginScope : moves 1 beginScope.
Proof.
  intros s. unfold beginScope. eapply movesRun_bind with (d1 := 0) (d2 := 1);
    [apply moves_unchanged; auto with frames| |reflexivity].
  intros c s1 R. apply getCompiler_top in R as (-> & rest & E).
  apply (movesRun_setCompiler _ _ _ _ _ E); [reflexivity|apply extends_refl].
Qed.

Lemma extends_emittedRepeat n f byte ln :
  extends f (emittedRepeat n f byte ln).
Proof.
  destruct (emittedRepeat_parts n f byte ln) as (_ & K & _).
  split; [exists []; rewrite K, app_nil_r; reflexivity|].
  rewrite codeCount_emittedRepeat. lia.
Qed.

Lemma moves_endScope : moves (-1) endScope.
Proof.
  intros s a s' c rest E H. rewrite (endScope_Ok _ _ _ E) in H.
  inversion H; subst. eexists. split; [reflexivity|].
  split; [simpl; lia|]. apply extends_emittedRepeat.
Qed.

Lemma moves_declareVariable t constant : moves 0 (declareVariable t constant).
Proof.
  intros s a s' c rest E H.
  destruct (Z.eq_dec (scopeDepth c) (-1)) as [g|l].
  - unfold declareVariable, bind at 1 in H.
    rewrite (getCompiler_Ok _ _ _ E) in H.
    replace (scopeDepth c =? -1) with true in H
      by (symmetry; apply Z.eqb_eq; exact g).
    exact (moves_safe _ (exprSafe_emitBytes None _ _) s a s' c rest E H).
  - destruct (Z.lt_ge_cases (localCount c) MAX_LOCALS) as [room|full].
    + rewrite (declareVariable_Ok _ _ _ _ _ E l room) in H.
      inversion H; subst. eexists. split; [reflexivity|].
      split; [simpl; lia|apply extends_refl].
    + exfalso. unfold declareVariable, bind at 1 in H.
      rewrite (getCompiler_Ok _ _ _ E) in H.
      replace (scopeDepth c =? -1) with false in H
        by (symmetry; apply Z.eqb_neq; exact l).
      unfold bind at 1 in H. rewrite declareScan_Ok in H by lia.
      unfold bind in H. erewrite getCompiler_Ok in H by exact E.
      replace (localCount c <? MAX_LOCALS) with false in H
        by (symmetry; apply Z.ltb_ge; exact full).
      discriminate.
Qed.
Hint Resolve moves_patchJump moves_beginScope moves_endScope
  moves_declareVariable : moves.

Lemma moves_returnStatement fuel : moves 0 (returnStatement fuel).
Proof. unfold returnStatement. moves_auto. Qed.

Lemma moves_varStatement fuel : moves 0 (varStatement fuel).
Proof. unfold varStatement. moves_auto. Qed.

Lemma moves_parameters fuel :
  forall paramConstant, moves 0 (parameters fuel paramConstant).
Proof.
  induction fuel as [|fuel IH]; intros paramConstant; simpl.
  - apply moves_outOfFuel.
  - eapply moves_bind; [eauto with moves| |reflexivity].
    intros [param constant].
    eapply moves_bind; [eauto with moves| |reflexivity].
    intros _ s. eapply movesRun_bind with (d1 := 0) (d2 := 0);
      [apply moves_unchanged; auto with frames| |reflexivity].
    intros c s1 R. apply getCompiler_top in R as (-> & rest & E).
    cbv zeta. eapply movesRun_bind with (d1 := 0) (d2 := 0);
      [| |reflexivity].
    + intros a s' c0 rest0 E0 H. rewrite E in E0. inversion E0; subst c0 rest0.
      rewrite (setFunction_Ok _ _ _ _ E) in H. inversion H; subst.
      eexists. split; [reflexivity|]. split; [simpl; lia|].
      split; [exists []; simpl; rewrite app_nil_r; reflexivity|].
      unfold codeCount. simpl. lia.
    + intros _ s2 _.
      assert (moves 0 (more <- match_ TOKEN_COMMA ;;
                       if more then parameters fuel constant else ret tt)%comp)
        as H by moves_auto.
      apply H.
Qed.
Hint Resolve moves_returnStatement moves_varStatement moves_parameters
  : moves.

End StatementFrames.
#[export] Hint Resolve moves_storeCode moves_patchJump moves_beginScope
  moves_endScope moves_declareVariable moves_returnStatement
  moves_varStatement moves_parameters : moves.

Section StatementMoves.
Context {ops : OpCodes}.

Section Body.
Variable st : M unit.
Hypothesis moves_st : moves 0 st.

Lemma moves_blockLoop fuel : moves 0 (blockLoop st fuel).
Proof. induction fuel as [|fuel IH]; simpl; moves_auto. Qed.
Hint Resolve moves_blockLoop : moves.

Lemma moves_block fuel : moves 0 (block st fuel).
Proof. unfold block. moves_auto. Qed.
Hint Resolve moves_block : moves.

Lemma moves_ifStatement fuel : moves 0 (ifStatement st fuel).
Proof. unfold ifStatement. moves_auto. Qed.

Lemma moves_whileStatement fuel : moves 0 (whileStatement st fuel).
Proof. unfold whileStatement. moves_auto. Qed.

(** The frame of the function is pushed by [beginCompiler] and popped by
    [endCompiler]; in between the frame below it is not touched. *)
Lemma moves_funStatement fuel : moves 0 (funStatement st fuel).
Proof.
  intros s a s' c rest E H. unfold funStatement in H.
  apply bind_Ok in H as ([t nameConstant] & s1 & R1 & H).
  destruct (moves_safe _ (exprSafe_parseVariable None _ _) _ _ _ _ _ E R1)
    as (c1 & E1 & D1 & X1).
  apply bind_Ok in H as ([] & s2 & R2 & H).
  unfold beginCompiler in R2. inversion R2; subst s2. clear R2.
  assert (moves 0
            (beginScope ;;
             consume TOKEN_LEFT_PAREN "Expect '(' after function name." ;;
             atParen <- check TOKEN_RIGHT_PAREN ;;
             (if negb atParen then parameters fuel 0 else ret tt) ;;
             consume TOKEN_RIGHT_PAREN "Expect ')' after parameters." ;;
             block st fuel ;;
             endScope)%comp) as inner by moves_auto.
  (* the steps up to [endScope], one by one *)
  apply bind_Ok in H as ([] & s3 & R3 & H).
  apply bind_Ok in H as ([] & s4 & R4 & H).
  apply bind_Ok in H as (atParen & s5 & R5 & H).
  apply bind_Ok in H as ([] & s6 & R6 & H).
  apply bind_Ok in H as ([] & s7 & R7 & H).
  apply bind_Ok in H as ([] & s8 & R8 & H).
  apply bind_Ok in H as ([] & s9 & R9 & H).
  assert ((beginScope ;;
           consume TOKEN_LEFT_PAREN "Expect '(' after function name." ;;
           atParen <- check TOKEN_RIGHT_PAREN ;;
           (if negb atParen then parameters fuel 0 else ret tt) ;;
           consume TOKEN_RIGHT_PAREN "Expect ')' after parameters." ;;
           block st fuel ;;
           endScope)%comp
            (mkState (scanner s1) (parser s1)
                     (mkCompiler newFunction [] (-1) :: compiler s1)
                     (vmStack s1) (stderr s1))
          = Ok tt s9) as R.
  { apply bind_Ok. exists tt, s3. split; [exact R3|].
    apply bind_Ok. exists tt, s4. split; [exact R4|].
    apply bind_Ok. exists atParen, s5. split; [exact R5|].
    apply bind_Ok. exists tt, s6. split; [exact R6|].
    apply bind_Ok. exists tt, s7. split; [exact R7|].
    apply bind_Ok. exists tt, s8. split; [exact R8|exact R9]. }
  match type of R with
  | _ ?s2 = _ =>
      destruct (inner s2 tt s9 (mkCompiler newFunction [] (-1)) (compiler s1)
                      eq_refl R) as (c9 & E9 & _ & _)
  end.
  apply bind_Ok in H as (function & s10 & R10 & H).
  rewrite (endCompiler_Ok _ _ _ E9) in R10. inversion R10; subst s10.
  clear R10.
  apply bind_Ok in H as ([] & s11 & R11 & H).
  assert (compiler (withFrames s9 (compiler s1)) = c1 :: rest) as E10
    by exact E1.
  destruct (moves_safe _ (exprSafe_emitConstant None _) _ _ _ _ _ E10 R11)
    as (c11 & E11 & D11 & X11).
  destruct (moves_declareVariable _ _ _ _ _ _ _ E11 H)
    as (c12 & E12 & D12 & X12).
  exists c12. split; [exact E12|]. split; [lia|].
  exact (extends_trans _ _ _ X1 (extends_trans _ _ _ X11 X12)).
Qed.
Hint Resolve moves_ifStatement moves_whileStatement moves_funStatement
  : moves.

Lemma moves_statementBody fuel : moves 0 (statementBody st fuel).
Proof. unfold statementBody. moves_auto. Qed.

End Body.

Lemma moves_statement fuel : moves 0 (statement fuel).
Proof.
  induction fuel as [|fuel IH]; simpl.
  - apply moves_outOfFuel.
  - apply moves_statementBody. exact IH.
Qed.
Hint Resolve moves_statement : moves.

Lemma moves_compileLoop fuel : moves 0 (compileLoop fuel).
Proof. induction fuel as [|fuel IH]; simpl; moves_auto. Qed.

End StatementMoves.

Section FrameProperties.
Context {ops : OpCodes}.

(** X9: a statement leaves the chain of frames and the scope depth as it
    found them: every scope it begins it ends, and every frame it pushes
    for a function declaration it pops.  The enclosing frames are
    untouched; in the current function constants are only appended and
    the code does not get shorter. *)
Theorem statement_keeps_frames :
  forall fuel s s' c rest,
    compiler s = c :: rest ->
    statement fuel s = Ok tt s' ->
    exists c',
      compiler s' = c' :: rest /\
      scopeDepth c' = scopeDepth c /\
      (exists more,
          constants (function c') = constants (function c) ++ more) /\
      codeCount (function c) <= codeCount (function c').
Proof.
  intros fuel s s' c rest E H.
  destruct (moves_statement fuel s tt s' c rest E H) as (c' & E' & D & K & C).
  exists c'. split; [exact E'|]. split; [lia|]. split; assumption.
Qed.

(** X10: a compilation that returns, with a function or without, leaves
    the chain of frames as it found it: the frame it pushed for the
    top-level code is popped again. *)
Theorem compile_restores_frames :
  forall fuel source s r s',
    compile fuel source s = Ok r s' -> compiler s' = compiler s.
Proof.
  intros fuel source s r s' H. unfold compile in H.
  apply bind_Ok in H as ([] & s1 & H1 & H).
  apply bind_Ok in H as ([] & s2 & H2 & H).
  apply bind_Ok in H as (p & s3 & H3 & H).
  apply bind_Ok in H as ([] & s4 & H4 & H).
  unfold initScanner in H1. unfold beginCompiler in H2.
  unfold getParser in H3. unfold setParser in H4.
  inversion H1; subst s1; clear H1. inversion H2; subst s2; clear H2.
  inversion H3; subst p s3; clear H3. inversion H4; subst s4; clear H4.
  pose proof (moves_compileLoop fuel) as L.
  assert (moves 0 (advance ;;
                   atEof <- match_ TOKEN_EOF ;;
                   (if negb atEof then compileLoop fuel else ret tt))%comp)
    as front by moves_auto.
  apply bind_Ok in H as ([] & s5 & H5 & H).
  apply bind_Ok in H as (atEof & s6 & H6 & H).
  apply bind_Ok in H as ([] & s7 & H7 & H).
  match type of H5 with
  | _ ?s4 = _ =>
      assert ((advance ;;
               atEof <- match_ TOKEN_EOF ;;
               (if negb atEof then compileLoop fuel else ret tt))%comp s4
              = Ok tt s7) as R
  end.
  { apply bind_Ok. exists tt, s5. split; [exact H5|].
    apply bind_Ok. exists atEof, s6. split; [exact H6|exact H7]. }
  match type of R with
  | _ ?s4 = _ =>
      destruct (front s4 tt s7 (mkCompiler newFunction [] (-1)) (compiler s)
                      eq_refl R) as (c7 & E7 & _ & _)
  end.
  rewrite (endCompiler_Ok _ _ _ E7) in H. inversion H; subst. reflexivity.
Qed.

End FrameProperties.

(** ** Where an expression stops *)

Section Lookahead.
Context {ops : OpCodes}.

Lemma infixLoop_stops pp fuel :
  forall precedence canAssign s s',
    infixLoop pp fuel precedence canAssign s = Ok tt s' ->
    rulePrecedence (getRule (type (current (parser s')))) < precedence.
Proof.
  induction fuel as [|fuel IH]; intros precedence canAssign s s' H;
    simpl in H; [discriminate|].
  apply bind_Ok in H as (p & s0 & R & H).
  unfold getParser in R. inversion R; subst p s0. clear R.
  destruct (precedence <=? rulePrecedence
                             (getRule (type (current (parser s))))) eqn:C.
  - apply bind_Ok in H as ([] & s1 & _ & H).
    apply bind_Ok in H as (p & s2 & _ & H).
    apply bind_Ok in H as ([] & s3 & _ & H).
    exact (IH _ _ _ _ H).
  - inversion H; subst. apply Z.leb_gt. exact C.
Qed.

(** X11: where [parsePrecedence] stops.  If the token it starts on can
    begin an expression, then on return the token of look-ahead has a
    precedence below the one asked for: nothing that could continue the
    expression is left unread.  If the token cannot begin an expression,
    that one token is consumed, [Expected expression.] is printed at its
    line, and nothing is emitted. *)
Theorem parsePrecedence_stops :
  forall fuel precedence s s',
    parsePrecedence fuel precedence s = Ok tt s' ->
    (prefix (getRule (type (current (parser s)))) <> None ->
     rulePrecedence (getRule (type (current (parser s')))) < precedence) /\
    (prefix (getRule (type (current (parser s)))) = None ->
     compiler s' = compiler s /\
     previous (parser s') = current (parser s) /\
     hadError (parser s') = true /\
     stderr s' = stderr s
                 ++ [(line (current (parser s)),
                      ("Expected expression."
                         ++ String (ascii_of_nat 10) EmptyString)%string)]).
Proof.
  intros fuel precedence s s' H. destruct fuel as [|fuel]; [discriminate|].
  simpl in H. unfold parsePrecedenceBody in H.
  apply bind_Ok in H as ([] & s1 & R1 & H).
  pose proof (advance_previous _ _ _ R1) as prev.
  assert (compiler s1 = compiler s /\ stderr s1 = stderr s) as [F1 E1].
  { split; [exact (framesUnchanged_advance _ _ _ R1)|].
    revert R1. unfold advance, bind, getParser, scanToken, setParser.
    destruct (pending (scanner s)); intros R1; inversion R1; reflexivity. }
  apply bind_Ok in H as (p & s2 & R2 & H).
  unfold getParser in R2. inversion R2; subst p s2. clear R2.
  rewrite prev in H. split.
  - intros some.
    destruct (prefix (getRule (type (current (parser s))))) as [fn|];
      [|congruence].
    apply bind_Ok in H as ([] & s3 & _ & H).
    exact (infixLoop_stops _ _ _ _ _ _ H).
  - intros none. rewrite none in H.
    unfold error, bind, getParser, errorAt in H. inversion H; subst. simpl.
    rewrite prev, F1, E1. auto.
Qed.

End Lookahead.

(** * Termination *)

(** ** The run of an operation *)

Lemma runs_ret {A} F L (a : A) (Q : A -> State -> Prop) s :
  Q a s -> runs F L (ret a) Q s.
Proof. intro H. exact H. Qed.

Lemma runs_bind {A B} F L (m : M A) (k : A -> M B) Q s :
  runs F L m (fun a s' => runs F L (k a) Q s') s ->
  runs F L (bind m k) Q s.
Proof.
  unfold runs, bind. destruct (m s); auto.
Qed.

Lemma runs_weaken {A} F L (m : M A) (Q Q' : A -> State -> Prop) s :
  runs F L m Q s -> (forall a s', Q a s' -> Q' a s') -> runs F L m Q' s.
Proof.
  unfold runs. destruct (m s); auto.
Qed.

Lemma runs_undefined {A} F (L : Prop) (Q : A -> State -> Prop) s :
  L -> runs F L undefined Q s.
Proof. intro H. exact H. Qed.

Lemma runs_getParser F L (Q : Parser -> State -> Prop) s :
  Q (parser s) s -> runs F L getParser Q s.
Proof. intro H. exact H. Qed.

Lemma runs_check F L t (Q : bool -> State -> Prop) s :
  Q (TokenType_eqb (type (current (parser s))) t) s -> runs F L (check t) Q s.
Proof. intro H. exact H. Qed.

Lemma TokenType_eqb_true a b : TokenType_eqb a b = true -> a = b.
Proof.
  unfold TokenType_eqb. destruct (TokenType_eq_dec a b); congruence.
Qed.

Lemma TokenType_eqb_false a b : TokenType_eqb a b = false -> a <> b.
Proof.
  unfold TokenType_eqb. destruct (TokenType_eq_dec a b); congruence.
Qed.

Lemma step_range s : 0 <= step s <= 1.
Proof.
  unfold step. destruct (TokenType_eqb _ _); lia.
Qed.

Lemma step_token s t :
  type (current (parser s)) = t -> t <> TOKEN_EOF -> step s = 1.
Proof.
  intros Ht Hne. unfold step.
  destruct (TokenType_eqb _ _) eqn:E; [|reflexivity].
  apply TokenType_eqb_true in E. congruence.
Qed.

Lemma step_same s s' : sameTokens s s' -> step s' = step s.
Proof.
  intros [Hc _]. unfold step. now rewrite Hc.
Qed.

Lemma remaining_nonneg s : 0 <= remaining s.
Proof.
  unfold remaining. pose proof (step_range s). lia.
Qed.

Lemma sameTokens_refl s : sameTokens s s.
Proof. split; reflexivity. Qed.

Lemma sameTokens_trans s1 s2 s3 :
  sameTokens s1 s2 -> sameTokens s2 s3 -> sameTokens s1 s3.
Proof.
  intros [H1 H2] [H3 H4]. split; congruence.
Qed.

Lemma within_weaken rest r n k r' n' k' s :
  within rest r n k s -> r <= r' -> n <= n' -> k' <= k ->
  within rest r' n' k' s.
Proof.
  intros (c & Hc & Hr & Hn & Hk) ? ? ?. exists c. repeat split; auto; lia.
Qed.

Lemma within_nonneg rest r n k s : within rest r n k s -> 0 <= r /\ 0 <= n.
Proof.
  intros (c & Hc & Hr & Hn & Hk). pose proof (remaining_nonneg s).
  unfold localCount in Hn. lia.
Qed.

(** [within] after a change of the current frame that adds no local and
    removes no code. *)
Lemma within_frame rest r n k s c c' frames :
  within rest r n k s ->
  compiler s = c :: rest ->
  frames = c' :: rest ->
  localCount c' <= localCount c ->
  codeCount (function c) <= codeCount (function c') ->
  within rest r n k (withFrames s frames) /\
  sameTokens s (withFrames s frames).
Proof.
  intros (c0 & Hc0 & Hr & Hn & Hk) Hc -> Hl Hcode.
  rewrite Hc in Hc0. injection Hc0 as <-.
  split; [|split; reflexivity].
  exists c'. repeat split; auto; unfold remaining, step in *; simpl; lia.
Qed.

(** ** Operations that read no token *)

Lemma runs_steady {A} (m : M A) F L rest r n k s (Q : A -> State -> Prop) :
  steady m ->
  within rest r n k s ->
  (forall a s', within rest r n k s' -> sameTokens s s' -> Q a s') ->
  runs F L m Q s.
Proof. intros Hm. apply Hm. Qed.

Lemma steady_ret {A} (a : A) : steady (ret a).
Proof.
  intros F L rest r n k s Q W HQ. apply runs_ret, HQ; auto.
  apply sameTokens_refl.
Qed.

Lemma steady_bind {A B} (m : M A) (k : A -> M B) :
  steady m -> (forall a, steady (k a)) -> steady (bind m k).
Proof.
  intros Hm Hk F L rest r n k0 s Q W HQ. apply runs_bind.
  apply (runs_steady m F L rest r n k0); [exact Hm|exact W|].
  intros a s1 W1 T1.
  apply (runs_steady (k a) F L rest r n k0); [apply Hk|exact W1|].
  intros b s2 W2 T2.
  apply HQ; [exact W2|]. eapply sameTokens_trans; eauto.
Qed.

Lemma steady_getParser : steady getParser.
Proof.
  intros F L rest r n k s Q W HQ. apply runs_getParser, HQ; auto.
  apply sameTokens_refl.
Qed.

Lemma steady_check t : steady (check t).
Proof.
  intros F L rest r n k s Q W HQ. apply runs_check, HQ; auto.
  apply sameTokens_refl.
Qed.

Lemma steady_getCompiler : steady getCompiler.
Proof.
  intros F L rest r n k s Q W HQ. destruct W as (c & Hc & W).
  unfold runs. rewrite (getCompiler_Ok s c rest Hc).
  apply HQ; [exists c; auto|apply sameTokens_refl].
Qed.

Lemma runs_getCompiler F L rest r n k s (Q : Compiler -> State -> Prop) :
  within rest r n k s ->
  (forall c, compiler s = c :: rest -> Q c s) ->
  runs F L getCompiler Q s.
Proof.
  intros (c & Hc & W) HQ.
  unfold runs. rewrite (getCompiler_Ok s c rest Hc). auto.
Qed.

Lemma steady_errorAt ln message : steady (errorAt ln message).
Proof.
  intros F L rest r n k s Q (c & Hc & W) HQ.
  unfold runs, errorAt. apply HQ; [|split; reflexivity].
  exists c. split; [exact Hc|exact W].
Qed.

Create HintDb steady.
#[export] Hint Resolve steady_ret steady_getParser steady_check
  steady_getCompiler steady_errorAt : steady.

Ltac steady_auto :=
  repeat first
    [ solve [auto with steady]
    | match goal with
      | |- steady (bind _ _) => apply steady_bind; [|intro]
      | |- steady (if ?b then _ else _) => destruct b
      | |- steady (let _ := _ in _) => cbv zeta
      end ].

Lemma steady_error message : steady (error message).
Proof. unfold error. steady_auto. Qed.
#[export] Hint Resolve steady_error : steady.

Lemma steady_declareScan ls d t i :
  (i <= List.length ls)%nat -> steady (declareScan ls i d t).
Proof.
  intros Hi F L rest r n k s Q (c & Hc & W) HQ.
  unfold runs. rewrite declareScan_Ok by exact Hi.
  apply HQ; [|split; reflexivity].
  exists c. split; [exact Hc|exact W].
Qed.

Section SteadyEmitter.
Context {ops : OpCodes}.

(** A change of the current frame that adds no local and removes no code
    is steady. *)
Lemma steady_frame {A} (m : M A) :
  (forall s c rest, compiler s = c :: rest ->
     exists a c', m s = Ok a (withFrames s (c' :: rest)) /\
                  localCount c' <= localCount c /\
                  codeCount (function c) <= codeCount (function c')) ->
  steady m.
Proof.
  intros Hm F L rest r n k s Q W HQ.
  destruct W as (c & Hc & W).
  destruct (Hm s c rest Hc) as (a & c' & E & Hl & Hcode).
  unfold runs. rewrite E.
  destruct (within_frame rest r n k s c c' (c' :: rest)) as [W' T'];
    auto.
  exists c; auto.
Qed.

Lemma steady_emitByte byte : steady (emitByte byte).
Proof.
  apply steady_frame. intros s c rest Hc.
  eexists _, _. split; [apply emitByte_Ok; exact Hc|].
  unfold withFunction, localCount. simpl. split; [lia|].
  rewrite codeCount_emitted. lia.
Qed.

Lemma steady_addConstant v : steady (addConstant v).
Proof.
  apply steady_frame. intros s c rest Hc.
  eexists _, _. split; [apply addConstant_Ok; exact Hc|].
  unfold withFunction, localCount, pooled, codeCount. simpl. lia.
Qed.

Lemma steady_beginScope : steady beginScope.
Proof.
  apply steady_frame. intros s c rest Hc.
  unfold beginScope, bind. rewrite (getCompiler_Ok s c rest Hc).
  rewrite (setCompiler_Ok s c _ rest Hc).
  eexists _, _. split; [reflexivity|].
  unfold localCount. simpl. lia.
Qed.

Lemma steady_endScope : steady endScope.
Proof.
  apply steady_frame. intros s c rest Hc.
  eexists _, _. split; [apply endScope_Ok; exact Hc|].
  unfold localCount. simpl. rewrite dropLast_length.
  rewrite codeCount_emittedRepeat. lia.
Qed.

Lemma steady_resolveLocal t : steady (resolveLocal t).
Proof. unfold resolveLocal. steady_auto. Qed.

Hint Resolve steady_emitByte steady_addConstant : steady.

Lemma steady_emitBytes byte1 byte2 : steady (emitBytes byte1 byte2).
Proof. unfold emitBytes. steady_auto. Qed.

Lemma steady_emitLoop loopStart : steady (emitLoop loopStart).
Proof. unfold emitLoop. steady_auto. Qed.

Lemma steady_nameConstant : steady nameConstant.
Proof. unfold nameConstant. steady_auto. Qed.

Hint Resolve steady_emitBytes : steady.

Lemma steady_emitConstant v : steady (emitConstant v).
Proof. unfold emitConstant. steady_auto. Qed.

End SteadyEmitter.
#[export] Hint Resolve steady_emitByte steady_addConstant steady_beginScope
  steady_endScope steady_resolveLocal steady_emitBytes steady_emitLoop
  steady_nameConstant steady_emitConstant : steady.


(** ** Operations that read tokens *)

(** [advance] reads the look-ahead token; what remains is one less, unless
    the token was EOF. *)
Lemma runs_advance F L rest r n k s (Q : unit -> State -> Prop) :
  within rest r n k s ->
  (forall s', within rest (r - step s) (n - step s) k s' ->
              previous (parser s') = current (parser s) -> Q tt s') ->
  runs F L advance Q s.
Proof.
  intros (c & Hc & Hr & Hn & Hk) HQ.
  unfold runs, advance, bind, getParser, scanToken, setParser.
  unfold remaining in Hr, Hn.
  destruct (pending (scanner s)) as [|t ts] eqn:E;
    (apply HQ; [|reflexivity]); exists c;
    (split; [exact Hc|]); unfold remaining; simpl.
  - rewrite E. unfold step at 1 3. simpl in *. repeat split; lia.
  - match goal with
    | |- context [step ?s'] => pose proof (step_range s')
    end.
    simpl List.length in *. repeat split; lia.
Qed.

Lemma runs_consume F L t message rest r n k s (Q : unit -> State -> Prop) :
  within rest r n k s ->
  (forall s', within rest (r - step s) (n - step s) k s' ->
              previous (parser s') = current (parser s) -> Q tt s') ->
  runs F L (consume t message) Q s.
Proof.
  intros W HQ. unfold consume.
  apply runs_bind, runs_getParser, runs_bind.
  apply (runs_steady _ F L rest r n k);
    [destruct (TokenType_eqb _ _); auto with steady|exact W|].
  intros a s1 W1 T1.
  apply (runs_advance F L rest r n k); [exact W1|].
  rewrite (step_same s s1 T1). destruct T1 as [-> _]. exact HQ.
Qed.

Lemma runs_match F L t rest r n k s (Q : bool -> State -> Prop) :
  within rest r n k s ->
  (type (current (parser s)) = t ->
   forall s', within rest (r - step s) (n - step s) k s' ->
              previous (parser s') = current (parser s) -> Q true s') ->
  (type (current (parser s)) <> t -> Q false s) ->
  runs F L (match_ t) Q s.
Proof.
  intros W Htrue Hfalse. unfold match_.
  apply runs_bind, runs_check.
  destruct (TokenType_eqb _ _) eqn:E.
  - apply TokenType_eqb_true in E.
    apply runs_bind. apply (runs_advance F L rest r n k); [exact W|].
    intros s' W' P'. apply runs_ret. auto.
  - apply TokenType_eqb_false in E. apply runs_ret. auto.
Qed.

Lemma runs_consumes {A} (m : M A) L R rest r n k s (Q : A -> State -> Prop) :
  consumes L R m ->
  within rest r n k s -> r <= R ->
  (forall a s', within rest r n k s' -> Q a s') ->
  runs False L m Q s.
Proof. intros Hm. apply Hm. Qed.

Lemma consumes_steady {A} L R (m : M A) : steady m -> consumes L R m.
Proof.
  intros Hm rest r n k s Q W _ HQ.
  apply (runs_steady m False L rest r n k); auto.
Qed.

Lemma consumes_bind {A B} L R (m : M A) (k : A -> M B) :
  consumes L R m -> (forall a, consumes L R (k a)) -> consumes L R (bind m k).
Proof.
  intros Hm Hk rest r n k0 s Q W HR HQ. apply runs_bind.
  apply (runs_consumes m L R rest r n k0); auto.
  intros a s1 W1.
  apply (runs_consumes (k a) L R rest r n k0); auto.
Qed.

Lemma consumes_advance L R : consumes L R advance.
Proof.
  intros rest r n k s Q W _ HQ.
  apply (runs_advance False L rest r n k); [exact W|].
  intros s' W' _. apply HQ.
  pose proof (step_range s). eapply within_weaken; eauto; lia.
Qed.

Lemma consumes_consume L R t message : consumes L R (consume t message).
Proof.
  intros rest r n k s Q W _ HQ.
  apply (runs_consume False L t message rest r n k); [exact W|].
  intros s' W' _. apply HQ.
  pose proof (step_range s). eapply within_weaken; eauto; lia.
Qed.

Lemma consumes_match L R t : consumes L R (match_ t).
Proof.
  intros rest r n k s Q W _ HQ.
  apply (runs_match False L t rest r n k); [exact W| |].
  - intros _ s' W' _. apply HQ.
    pose proof (step_range s). eapply within_weaken; eauto; lia.
  - intros _. apply HQ, W.
Qed.

Lemma consumes_parses L R pp precedence :
  parses L R pp -> 1 <= precedence -> consumes L R (pp precedence).
Proof.
  intros Hpp Hp rest r n k s Q W HR HQ.
  apply (Hpp precedence rest r n k); auto. intros s' W'. apply HQ.
  pose proof (step_range s). eapply within_weaken; eauto; lia.
Qed.

Create HintDb consumes.
#[export] Hint Resolve consumes_advance consumes_consume consumes_match
  : consumes.
#[export] Hint Extern 3 (consumes _ _ _) =>
  apply consumes_steady; solve [auto with steady] : consumes.

Ltac consumes_auto :=
  repeat first
    [ solve [auto with consumes]
    | match goal with
      | |- consumes _ _ (bind _ _) => apply consumes_bind; [|intro]
      | |- consumes _ _ (if ?b then _ else _) => destruct b
      | |- consumes _ _ (let _ := _ in _) => cbv zeta
      end ].

(** ** Jumps, declarations *)

Section Placeholders.
Context {ops : OpCodes}.

(** [emitJump] returns the offset of a placeholder: two bytes of code that
    are there from now on. *)
Lemma runs_emitJump F L instruction rest r n k s (Q : Z -> State -> Prop) :
  within rest r n k s ->
  (forall offset s',
      0 <= offset -> k <= offset + 2 ->
      within rest r n (offset + 2) s' -> sameTokens s s' -> Q offset s') ->
  runs F L (emitJump instruction) Q s.
Proof.
  intros W HQ. pose proof W as (c & Hc & Hr & Hn & Hk).
  unfold runs. rewrite (emitJump_Ok s c rest instruction Hc). cbv zeta.
  pose proof (Zle_0_nat (List.length (code (function c)))) as Hpos.
  apply HQ; unfold codeCount in *; try lia; [|split; reflexivity].
  eexists. split; [reflexivity|].
  unfold withFunction, localCount, codeCount, remaining, step in *. simpl.
  rewrite !length_app. simpl. repeat split; lia.
Qed.

Lemma runs_patchJump F L offset rest r n k s (Q : unit -> State -> Prop) :
  within rest r n k s ->
  0 <= offset -> offset + 2 <= k ->
  (forall s', within rest r n k s' -> sameTokens s s' -> Q tt s') ->
  runs F L (patchJump offset) Q s.
Proof.
  intros W H0 H2 HQ. pose proof W as (c & Hc & Hr & Hn & Hk).
  unfold runs. rewrite (patchJump_Ok s c rest offset Hc) by lia.
  destruct (within_frame rest r n k s c
              (withFunction c (patched (function c) offset))
              (withFunction c (patched (function c) offset) :: rest))
    as [W' T']; auto.
  - unfold withFunction, localCount. simpl. lia.
  - unfold withFunction. simpl. rewrite codeCount_patched. lia.
Qed.

(** [declareVariable] adds at most one local.  It writes outside the table
    only when the table is full. *)
Lemma runs_declareVariable F (L : Prop) t constant rest r n k s
      (Q : unit -> State -> Prop) :
  within rest r n k s ->
  (MAX_LOCALS <= n -> L) ->
  (forall s', within rest r (n + 1) k s' -> sameTokens s s' -> Q tt s') ->
  runs F L (declareVariable t constant) Q s.
Proof.
  intros W HL HQ. unfold declareVariable.
  apply runs_bind. apply (runs_getCompiler F L rest r n k); [exact W|].
  intros c Hc. destruct (scopeDepth c =? -1).
  - apply (runs_steady _ F L rest r n k); auto with steady.
    intros a s' W' T'. destruct a. apply HQ; [|exact T'].
    eapply within_weaken; eauto; lia.
  - apply runs_bind.
    apply (runs_steady _ F L rest r n k);
      [apply steady_declareScan; lia|exact W|].
    intros a s1 W1 T1.
    apply runs_bind. apply (runs_getCompiler F L rest r n k); [exact W1|].
    intros c1 Hc1.
    destruct (Z.ltb_spec (localCount c1) MAX_LOCALS) as [Hlt|Hge].
    + destruct W1 as (c1' & Hc1' & Hr & Hn & Hk).
      rewrite Hc1 in Hc1'. injection Hc1' as <-.
      unfold runs. rewrite (setCompiler_Ok s1 c1 _ rest Hc1).
      apply HQ.
      * eexists. split; [reflexivity|].
        unfold localCount, remaining, step in *. simpl.
        rewrite length_app. simpl. repeat split; lia.
      * destruct T1 as [T1 T2]. split; simpl; assumption.
    + apply runs_undefined. apply HL.
      destruct W1 as (c1' & Hc1' & Hr & Hn & Hk).
      rewrite Hc1 in Hc1'. injection Hc1' as <-.
      pose proof (remaining_nonneg s1). lia.
Qed.

Lemma runs_parseVariable F L message constant rest r n k s
      (Q : Token * Z -> State -> Prop) :
  within rest r n k s ->
  (forall a s', within rest (r - step s) (n - step s) k s' -> Q a s') ->
  runs F L (parseVariable message constant) Q s.
Proof.
  intros W HQ. unfold parseVariable.
  apply runs_bind. apply (runs_consume F L _ _ rest r n k); [exact W|].
  intros s1 W1 _.
  apply runs_bind, runs_getParser, runs_bind.
  apply (runs_getCompiler F L rest (r - step s) (n - step s) k);
    [exact W1|].
  intros c Hc. destruct (scopeDepth c =? -1).
  - apply runs_bind.
    apply (runs_steady _ F L rest (r - step s) (n - step s) k);
      auto with steady.
    intros a s2 W2 _. apply runs_ret. auto.
  - apply runs_ret. auto.
Qed.

Lemma consumes_parseVariable L R message constant :
  consumes L R (parseVariable message constant).
Proof.
  intros rest r n k s Q W _ HQ.
  apply (runs_parseVariable False L _ _ rest r n k); [exact W|].
  intros a s' W'. apply HQ.
  pose proof (step_range s). eapply within_weaken; eauto; lia.
Qed.

End Placeholders.
#[export] Hint Resolve consumes_parseVariable : consumes.


(** One step of a run: the operation at the head of the goal is run from
    the state of which [within] is known. *)
Ltac run :=
  repeat match goal with
         | |- runs _ _ (bind _ _) _ _ => apply runs_bind
         | |- runs _ _ (let _ := _ in _) _ _ => cbv zeta
         end;
  match goal with
  | |- runs _ _ (ret _) _ _ => apply runs_ret
  | |- runs _ _ getParser _ _ => apply runs_getParser
  | |- runs _ _ (check _) _ _ => apply runs_check
  | W : within ?rest ?r ?n ?k ?s |- runs ?F ?L ?m _ ?s =>
      first
        [ apply (runs_steady m F L rest r n k);
          [solve [auto with steady]|exact W|intros ? ? ? ?]
        | eapply (runs_consumes m L _ rest r n k);
          [solve [eauto with consumes]|exact W
          |first [lia|apply Z.le_refl]|intros ? ? ?]
        | apply (runs_patchJump F L _ rest r n k);
          [exact W|lia|lia|intros ? ? ?]
        | apply (runs_emitJump F L _ rest r n k);
          [exact W|intros ? ? ? ? ? ?] ]
  end.

Ltac finish HQ :=
  apply HQ; eapply within_weaken; [eassumption|lia..].

(** ** Expressions *)

Section ExpressionRuns.
Context {ops : OpCodes}.
Variable pp : Precedence -> M unit.
Variable L : Prop.
Variable R : Z.
Hypothesis pp_parses : parses L R pp.

Lemma consumes_pp precedence : 1 <= precedence -> consumes L R (pp precedence).
Proof. apply consumes_parses, pp_parses. Qed.

Lemma consumes_expression : consumes L R (expression pp).
Proof. apply consumes_pp. unfold PREC_ASSIGNMENT. lia. Qed.

Hint Resolve consumes_expression : consumes.
Hint Extern 1 (consumes _ _ (pp _)) =>
  apply consumes_pp; unfold PREC_AND, PREC_OR, PREC_UNARY; lia : consumes.

Lemma consumes_and canAssign : consumes L R (and_ pp canAssign).
Proof.
  intros rest r n k s Q W HR HQ. unfold and_.
  run. run. run. run. finish HQ.
Qed.

Lemma consumes_or canAssign : consumes L R (or_ pp canAssign).
Proof.
  intros rest r n k s Q W HR HQ. unfold or_.
  run. run. run. run. run. run. finish HQ.
Qed.

Lemma runs_binary canAssign rest r n k s (Q : unit -> State -> Prop) :
  within rest r n k s -> r <= R ->
  infix (getRule (type (previous (parser s)))) = Some fn_binary ->
  (forall s', within rest r n k s' -> Q tt s') ->
  runs False L (binary pp canAssign) Q s.
Proof.
  intros W HR Hb HQ. unfold binary.
  apply runs_bind, runs_getParser. cbv zeta. apply runs_bind.
  apply (runs_consumes (pp _) L R rest r n k);
    [apply consumes_pp;
     pose proof (precedence_nonneg (type (previous (parser s)))); lia
    |exact W|lia|intros ? ? ?].
  destruct (type (previous (parser s))); try discriminate Hb;
    run; match goal with u : unit |- _ => destruct u end; finish HQ.
Qed.

Lemma runs_unary canAssign rest r n k s (Q : unit -> State -> Prop) :
  within rest r n k s -> r <= R ->
  prefix (getRule (type (previous (parser s)))) = Some fn_unary ->
  (forall s', within rest r n k s' -> Q tt s') ->
  runs False L (unary pp canAssign) Q s.
Proof.
  intros W HR Hb HQ. unfold unary.
  apply runs_bind, runs_getParser. cbv zeta. run.
  destruct (type (previous (parser s))); try discriminate Hb;
    run; match goal with u : unit |- _ => destruct u end; finish HQ.
Qed.

(** Every argument but the first follows a comma, so the loop runs at most
    once more than tokens remain. *)
Lemma runs_callArguments fuel :
  forall argCount rest r n k s (Q : Z -> State -> Prop),
    within rest r n k s -> r <= R -> r + 1 <= Z.of_nat fuel ->
    (forall a s', within rest r n k s' -> Q a s') ->
    runs False L (callArguments pp fuel argCount) Q s.
Proof.
  induction fuel as [|fuel IH]; intros argCount rest r n k s Q W HR Hf HQ.
  - apply within_nonneg in W. lia.
  - simpl callArguments. run. cbv zeta. apply runs_bind.
    match goal with
    | W1 : within _ _ _ _ ?s1 |- runs _ _ _ _ ?s1 =>
        apply (runs_match False L _ rest r n k); [exact W1| |]
    end.
    + intros Hcomma s2 W2 _.
      rewrite (step_token _ TOKEN_COMMA Hcomma) in W2 by discriminate.
      apply (IH _ rest (r - 1) (n - 1) k); [exact W2|lia|lia|].
      intros a0 s3 W3. finish HQ.
    + intros _. apply runs_ret. finish HQ.
Qed.

Lemma runs_call fuel canAssign rest r n k s (Q : unit -> State -> Prop) :
  within rest r n k s -> r <= R -> r + 1 <= Z.of_nat fuel ->
  (forall s', within rest r n k s' -> Q tt s') ->
  runs False L (call pp fuel canAssign) Q s.
Proof.
  intros W HR Hf HQ. unfold call.
  run. apply runs_bind.
  apply (runs_weaken False L _ (fun _ s' => within rest r n k s')).
  - destruct (negb _).
    + apply (runs_callArguments fuel 0 rest r n k); auto.
    + apply runs_ret, W.
  - intros argCount s1 W1. run. run.
    match goal with u : unit |- _ => destruct u end. finish HQ.
Qed.

Lemma consumes_grouping canAssign : consumes L R (grouping pp canAssign).
Proof. unfold grouping. consumes_auto. Qed.

Lemma consumes_literals canAssign :
  consumes L R (null_ canAssign) /\ consumes L R (number canAssign) /\
  consumes L R (string_ canAssign) /\ consumes L R (boolean canAssign).
Proof.
  unfold null_, number, string_, boolean. repeat split; consumes_auto.
Qed.

Lemma consumes_variable canAssign : consumes L R (variable pp canAssign).
Proof. unfold variable. consumes_auto. Qed.

(** A handler called through the rule table.  [binary] and [unary] are
    reached only from the rule of the token just read. *)
Lemma runs_callParseFn fuel fn canAssign rest r n k s
      (Q : unit -> State -> Prop) :
  within rest r n k s -> r <= R -> r + 1 <= Z.of_nat fuel ->
  fn <> None ->
  (fn = Some fn_binary ->
   infix (getRule (type (previous (parser s)))) = Some fn_binary) ->
  (fn = Some fn_unary ->
   prefix (getRule (type (previous (parser s)))) = Some fn_unary) ->
  (forall s', within rest r n k s' -> Q tt s') ->
  runs False L (callParseFn pp fuel fn canAssign) Q s.
Proof.
  intros W HR Hf Hfn Hbin Hun HQ.
  assert (HQ' : forall (a : unit) s', within rest r n k s' -> Q a s')
    by (intros [] s'; apply HQ).
  destruct (consumes_literals canAssign) as (Hnull & Hnum & Hstr & Hbool).
  destruct fn as [[]|]; simpl callParseFn; try congruence.
  - apply (runs_consumes _ L R rest r n k); auto using consumes_grouping.
  - apply (runs_call fuel canAssign rest r n k); auto.
  - apply (runs_unary canAssign rest r n k); auto.
  - apply (runs_binary canAssign rest r n k); auto.
  - apply (runs_consumes _ L R rest r n k); auto using consumes_variable.
  - apply (runs_consumes _ L R rest r n k); auto.
  - apply (runs_consumes _ L R rest r n k); auto.
  - apply (runs_consumes _ L R rest r n k); auto using consumes_and.
  - apply (runs_consumes _ L R rest r n k); auto.
  - apply (runs_consumes _ L R rest r n k); auto.
  - apply (runs_consumes _ L R rest r n k); auto using consumes_or.
Qed.

Lemma step_infix s precedence :
  1 <= precedence ->
  precedence <= rulePrecedence (getRule (type (current (parser s)))) ->
  step s = 1.
Proof.
  intros Hp Hle. apply (step_token s _ eq_refl).
  intro E. rewrite E in Hle. unfold rulePrecedence in Hle. simpl in Hle.
  unfold PREC_NONE in Hle. lia.
Qed.

(** Every round of the loop reads an operator, so it runs at most once
    more than tokens remain. *)
Lemma runs_infixLoop fuel :
  forall precedence canAssign rest r n k s (Q : unit -> State -> Prop),
    1 <= precedence ->
    within rest r n k s -> r <= R + 1 -> r + 1 <= Z.of_nat fuel ->
    (forall s', within rest r n k s' -> Q tt s') ->
    runs False L (infixLoop pp fuel precedence canAssign) Q s.
Proof.
  induction fuel as [|fuel IH];
    intros precedence canAssign rest r n k s Q Hp W HR Hf HQ.
  - apply within_nonneg in W. lia.
  - simpl infixLoop. apply runs_bind, runs_getParser.
    destruct (Z.leb_spec precedence
                (rulePrecedence (getRule (type (current (parser s))))))
      as [Hle|Hgt].
    + apply runs_bind. apply (runs_advance False L rest r n k); [exact W|].
      rewrite (step_infix s precedence Hp Hle). intros s1 W1 P1.
      apply runs_bind, runs_getParser. apply runs_bind.
      apply (runs_callParseFn fuel _ canAssign rest (r - 1) (n - 1) k);
        try lia; [exact W1| | | |].
      * rewrite P1. now apply (infix_of_precedence _ precedence).
      * auto.
      * intro E. now apply infix_not_unary in E.
      * intros s2 W2.
        apply (IH precedence canAssign rest (r - 1) (n - 1) k);
          try lia; [exact W2|].
        intros s3 W3. finish HQ.
    + apply runs_ret, HQ, W.
Qed.

Lemma runs_parsePrecedenceBody fuel precedence rest r n k s
      (Q : unit -> State -> Prop) :
  1 <= precedence ->
  within rest r n k s -> r <= R + 1 -> r <= Z.of_nat fuel ->
  (forall s', within rest (r - step s) n k s' -> Q tt s') ->
  runs False L (parsePrecedenceBody pp fuel precedence) Q s.
Proof.
  intros Hp W HR Hf HQ. unfold parsePrecedenceBody.
  apply runs_bind. apply (runs_advance False L rest r n k); [exact W|].
  intros s1 W1 P1. apply runs_bind, runs_getParser. cbv zeta.
  pose proof (step_range s) as Hstep.
  destruct (prefix (getRule (type (previous (parser s1))))) as [fn|] eqn:E.
  - assert (Hs : step s = 1).
    { apply (step_token s _ eq_refl). intro Heof.
      rewrite P1, Heof in E. discriminate E. }
    rewrite Hs in *. apply runs_bind.
    apply (runs_callParseFn fuel _ _ rest (r - 1) (n - 1) k);
      try lia; [exact W1|congruence| | |].
    + intro E'. rewrite E' in E. now apply prefix_not_binary in E.
    + intro E'. rewrite E' in E. exact E.
    + intros s2 W2.
      apply (runs_infixLoop fuel precedence _ rest (r - 1) (n - 1) k);
        try lia; [exact W2|].
      intros s3 W3. finish HQ.
  - run. match goal with u : unit |- _ => destruct u end. finish HQ.
Qed.

End ExpressionRuns.

Section ParserRuns.
Context {ops : OpCodes}.

(** [parsePrecedence] returns when its fuel exceeds the number of tokens
    that remain, and it is never undefined. *)
Lemma parses_parsePrecedence L fuel :
  parses L (Z.of_nat fuel - 1) (parsePrecedence fuel).
Proof.
  induction fuel as [|fuel IH];
    intros precedence rest r n k s Q Hp W HR HQ.
  - apply within_nonneg in W. lia.
  - simpl parsePrecedence.
    apply (runs_parsePrecedenceBody _ L (Z.of_nat fuel - 1) IH fuel
             precedence rest r n k); auto; lia.
Qed.

End ParserRuns.


(** ** Statements *)

Ltac run_pair :=
  match goal with
  | p : (Token * Z)%type |- _ => destruct p; cbv beta iota
  end.

Ltac run_unit :=
  repeat match goal with u : unit |- _ => destruct u end.

Section StatementRuns.
Context {ops : OpCodes}.
Variable L : Prop.

Lemma consumes_expressionOf fuel :
  consumes L (Z.of_nat fuel - 1) (expression (parsePrecedence fuel)).
Proof. apply consumes_expression, parses_parsePrecedence. Qed.

Hint Resolve consumes_expressionOf : consumes.

Lemma consumes_returnStatement fuel :
  consumes L (Z.of_nat fuel - 1) (returnStatement fuel).
Proof. unfold returnStatement. consumes_auto. Qed.

Ltac run_declare HL :=
  repeat match goal with
         | |- runs _ _ (bind _ _) _ _ => apply runs_bind
         end;
  match goal with
  | W : within ?rest ?r ?n ?k ?s
    |- runs ?F _ (declareVariable ?t ?c) _ ?s =>
      apply (runs_declareVariable F L t c rest r n k);
      [exact W|intro; apply HL; lia|intros ? ? ?]
  end.

Lemma runs_varStatement fuel rest r n k s (Q : unit -> State -> Prop) :
  within rest r n k s -> r + 1 <= Z.of_nat fuel ->
  (MAX_LOCALS <= n -> L) ->
  (forall s', within rest r (n + 1) k s' -> Q tt s') ->
  runs False L (varStatement fuel) Q s.
Proof.
  intros W Hf HL HQ. unfold varStatement.
  run. run_pair. run. run. run. run_declare HL. finish HQ.
Qed.

Lemma runs_setFunction F (L' : Prop) f rest r n k s c
      (Q : unit -> State -> Prop) :
  within rest r n k s ->
  compiler s = c :: rest ->
  codeCount (function c) <= codeCount f ->
  (forall s', within rest r n k s' -> sameTokens s s' -> Q tt s') ->
  runs F L' (setFunction f) Q s.
Proof.
  intros W Hc Hcode HQ.
  unfold runs. rewrite (setFunction_Ok s c f rest Hc).
  destruct (within_frame rest r n k s c (withFunction c f)
              (withFunction c f :: rest)) as [W' T']; auto.
  unfold withFunction, localCount. simpl. lia.
Qed.

(** Every parameter but the first follows a comma. *)
Lemma runs_parameters fuel :
  forall paramConstant rest r n k s (Q : unit -> State -> Prop),
    within rest r n k s -> r + 1 <= Z.of_nat fuel ->
    (MAX_LOCALS <= n -> L) ->
    (forall s', within rest r (n + 1) k s' -> Q tt s') ->
    runs False L (parameters fuel paramConstant) Q s.
Proof.
  induction fuel as [|fuel IH];
    intros paramConstant rest r n k s Q W Hf HL HQ.
  - apply within_nonneg in W. lia.
  - simpl parameters. pose proof (step_range s) as Hs.
    apply runs_bind.
    apply (runs_parseVariable False L _ _ rest r n k); [exact W|].
    intros [param constant] s1 W1. cbv beta iota.
    run_declare HL.
    apply runs_bind.
    match goal with
    | W2 : within _ _ _ _ ?s2 |- runs _ _ _ _ ?s2 =>
        apply (runs_getCompiler False L _ _ _ _ _ _ W2); intros c Hc;
        cbv zeta; apply runs_bind;
        apply (runs_setFunction False L _ _ _ _ _ _ c _ W2 Hc);
        [unfold codeCount; simpl; lia|intros s3 W3 T3]
    end.
    apply runs_bind.
    apply (runs_match False L _ rest (r - step s) (n - step s + 1) k);
      [exact W3| |].
    + intros Hcomma s4 W4 _.
      rewrite (step_token _ TOKEN_COMMA Hcomma) in W4 by discriminate.
      apply (IH _ rest (r - step s - 1) (n - step s + 1 - 1) k);
        [exact W4|lia|intro; apply HL; lia|].
      intros s5 W5. finish HQ.
    + intros _. apply runs_ret. finish HQ.
Qed.

Section Body.
Variable st : M unit.
Variable R : Z.
Hypothesis st_executes : executes L R st.

Ltac run_st HL :=
  repeat match goal with
         | |- runs _ _ (bind _ _) _ _ => apply runs_bind
         end;
  match goal with
  | W : within ?rest ?r ?n ?k ?s |- runs _ _ st _ ?s =>
      pose proof (step_range s);
      apply (st_executes rest r n k);
      [exact W|lia|intro; apply HL; lia|intros ? ?]
  end.

(** Forget that the statement has read a token. *)
Ltac relax :=
  match goal with
  | W : within ?rest (?r - step ?s0) ?n ?k ?s1 |- _ =>
      pose proof (within_weaken rest (r - step s0) n k r n k s1 W
                    ltac:(lia) ltac:(lia) ltac:(lia));
      clear W
  end.

(** Every statement of a block starts on a token that is not EOF, and
    reads it. *)
Lemma runs_blockLoop fuel :
  forall rest r n k s (Q : unit -> State -> Prop),
    within rest r n k s -> r <= R -> r + 1 <= Z.of_nat fuel ->
    (MAX_LOCALS <= n -> L) ->
    (forall s', within rest r n k s' -> Q tt s') ->
    runs False L (blockLoop st fuel) Q s.
Proof.
  induction fuel as [|fuel IH]; intros rest r n k s Q W HR Hf HL HQ.
  - apply within_nonneg in W. lia.
  - simpl blockLoop. run. run.
    destruct (TokenType_eqb (type (current (parser s))) TOKEN_EOF) eqn:E;
      [rewrite andb_false_r; apply runs_ret, HQ, W|].
    destruct (negb _); simpl; [|apply runs_ret, HQ, W].
    apply TokenType_eqb_false in E.
    pose proof (step_token s _ eq_refl E) as Hs.
    run_st HL. rewrite Hs in *.
    apply (IH rest (r - 1) n k); auto; try lia.
    intros s2 W2. finish HQ.
Qed.

Lemma runs_block fuel rest r n k s (Q : unit -> State -> Prop) :
  within rest r n k s ->
  r - step s <= R -> r - step s + 1 <= Z.of_nat fuel ->
  (MAX_LOCALS <= n -> L) ->
  (forall s', within rest (r - step s) n k s' -> Q tt s') ->
  runs False L (block st fuel) Q s.
Proof.
  intros W HR Hf HL HQ. unfold block. pose proof (step_range s) as Hs.
  apply runs_bind.
  apply (runs_consume False L _ _ rest r n k); [exact W|].
  intros s1 W1 _. apply runs_bind.
  apply (runs_blockLoop fuel rest (r - step s) n k); auto.
  - eapply within_weaken; eauto; lia.
  - intros s2 W2. run. run_unit. finish HQ.
Qed.

Lemma runs_ifStatement fuel rest r n k s (Q : unit -> State -> Prop) :
  within rest r n k s -> r <= R -> r + 1 <= Z.of_nat fuel ->
  (MAX_LOCALS <= n -> L) ->
  (forall s', within rest r n k s' -> Q tt s') ->
  runs False L (ifStatement st fuel) Q s.
Proof.
  intros W HR Hf HL HQ. unfold ifStatement.
  run. run. run. run. run. run. run_st HL. relax. run. run. run. run.
  apply runs_bind.
  match goal with
  | b : bool |- _ => destruct b; [run_st HL; relax|run]
  end; run; run; run_unit; finish HQ.
Qed.

Lemma runs_whileStatement fuel rest r n k s (Q : unit -> State -> Prop) :
  within rest r n k s -> r <= R -> r + 1 <= Z.of_nat fuel ->
  (MAX_LOCALS <= n -> L) ->
  (forall s', within rest r n k s' -> Q tt s') ->
  runs False L (whileStatement st fuel) Q s.
Proof.
  intros W HR Hf HL HQ. unfold whileStatement.
  run. run. run. run. run. run. run. run_st HL. relax. run. run. run.
  run_unit. finish HQ.
Qed.

(** The function declaration.  The frame of the new function starts
    without locals; when it is left the enclosing frame is current again,
    with the locals it had. *)
Lemma runs_funStatement fuel rest r n k s (Q : unit -> State -> Prop) :
  within rest r n k s -> r <= R -> r + 1 <= Z.of_nat fuel ->
  (MAX_LOCALS <= n + 1 -> L) ->
  (forall s', within rest r (n + 1) k s' -> Q tt s') ->
  runs False L (funStatement st fuel) Q s.
Proof.
  intros W HR Hf HL HQ. unfold funStatement.
  apply runs_bind.
  apply (runs_consumes _ L R rest r n k _ _
           (consumes_parseVariable L R _ _));
    [exact W|exact HR|intros [tok nameConstant] s1 W1; cbv beta iota].
  apply runs_bind.
  destruct W1 as (c1 & Hc1 & Hr1 & Hn1 & Hk1).
  pose proof (remaining_nonneg s1) as Hpos.
  unfold runs at 1, beginCompiler at 1.
  assert (W2 : within (c1 :: rest) (remaining s1) n 0
                 (mkState (scanner s1) (parser s1)
                          (mkCompiler newFunction [] (-1) :: compiler s1)
                          (vmStack s1) (stderr s1))).
  { eexists. split; [simpl; rewrite Hc1; reflexivity|].
    unfold localCount, codeCount, remaining, step in *. simpl.
    repeat split; lia. }
  run. run. run. apply runs_bind.
  match goal with
  | W3 : within _ _ _ _ ?s3
    |- runs _ _ (if ?b then _ else _) ?Q3 ?s3 =>
      apply (runs_weaken False L _
               (fun _ s' => within (c1 :: rest) (remaining s1) (n + 1) 0 s'));
      [destruct b;
       [apply (runs_parameters fuel 0 (c1 :: rest) (remaining s1) n 0);
        [exact W3|lia|intro; apply HL; lia|auto]
       |apply runs_ret; eapply within_weaken; eauto; lia]
      |intros u s4 W4]
  end.
  run. apply runs_bind.
  match goal with
  | W5 : within _ _ _ _ ?s5 |- runs _ _ (block _ _) _ ?s5 =>
      pose proof (step_range s5);
      apply (runs_block fuel (c1 :: rest) (remaining s1) (n + 1) 0);
      [exact W5|lia|lia|exact HL|intros s6 W6; relax]
  end.
  run. apply runs_bind.
  match goal with
  | W7 : within _ _ _ _ ?s7 |- runs _ _ endCompiler _ ?s7 =>
      destruct W7 as (c7 & Hc7 & Hr7 & Hn7 & Hk7);
      unfold runs at 1; rewrite (endCompiler_Ok s7 c7 (c1 :: rest) Hc7);
      assert (W8 : within rest r n k (withFrames s7 (c1 :: rest)))
  end.
  { exists c1. split; [reflexivity|].
    unfold remaining, step in *. simpl. repeat split; lia. }
  run. run_declare HL. finish HQ.
Qed.

(** A statement reads the token it starts on, unless that is EOF. *)
Lemma runs_statementBody fuel rest r n k s (Q : unit -> State -> Prop) :
  within rest r n k s -> r <= R + 1 -> r + 1 <= Z.of_nat fuel ->
  (MAX_LOCALS <= n -> L) ->
  (forall s', within rest (r - step s) n k s' -> Q tt s') ->
  runs False L (statementBody st fuel) Q s.
Proof.
  intros W HR Hf HL HQ. unfold statementBody.
  pose proof (step_range s) as Hs.
  apply runs_bind. apply (runs_match False L _ rest r n k); [exact W| |].
  { intros Htok s1 W1 _. rewrite (step_token s _ Htok) in * by discriminate.
    apply (runs_funStatement fuel rest (r - 1) (n - 1) k); auto; try lia.
    - intro. apply HL. lia.
    - intros s2 W2. finish HQ. }
  intros _.
  apply runs_bind. apply (runs_match False L _ rest r n k); [exact W| |].
  { intros Htok s1 W1 _. rewrite (step_token s _ Htok) in * by discriminate.
    apply (runs_ifStatement fuel rest (r - 1) (n - 1) k); auto; try lia.
    - intro. apply HL. lia.
    - intros s2 W2. finish HQ. }
  intros _.
  apply runs_bind. apply (runs_match False L _ rest r n k); [exact W| |].
  { intros Htok s1 W1 _. rewrite (step_token s _ Htok) in * by discriminate.
    apply (runs_consumes _ L _ rest (r - 1) (n - 1) k _ _
             (consumes_returnStatement fuel)); auto; try lia.
    intros u s2 W2. run_unit. finish HQ. }
  intros _.
  apply runs_bind. apply (runs_match False L _ rest r n k); [exact W| |].
  { intros Htok s1 W1 _. rewrite (step_token s _ Htok) in * by discriminate.
    apply (runs_varStatement fuel rest (r - 1) (n - 1) k); auto; try lia.
    - intro. apply HL. lia.
    - intros s2 W2. finish HQ. }
  intros _.
  apply runs_bind. apply (runs_match False L _ rest r n k); [exact W| |].
  { intros Htok s1 W1 _. rewrite (step_token s _ Htok) in * by discriminate.
    apply (runs_whileStatement fuel rest (r - 1) (n - 1) k); auto; try lia.
    - intro. apply HL. lia.
    - intros s2 W2. finish HQ. }
  intros _.
  apply runs_bind, runs_check.
  destruct (TokenType_eqb _ _) eqn:E.
  - apply TokenType_eqb_true in E.
    run.
    match goal with
    | T : sameTokens s ?s1 |- _ =>
        pose proof (step_same s s1 T) as Hs1;
        rewrite (step_token s _ E) in Hs1, HQ by discriminate
    end.
    apply runs_bind.
    match goal with
    | W1 : within _ _ _ _ ?s1 |- runs _ _ (block _ _) _ ?s1 =>
        apply (runs_block fuel rest r n k);
        [exact W1|lia|lia|exact HL|rewrite Hs1; intros s2 W2]
    end.
    run. run_unit. finish HQ.
  - apply runs_bind. unfold expression.
    apply (parses_parsePrecedence L fuel PREC_ASSIGNMENT rest r n k);
      [unfold PREC_ASSIGNMENT; lia|exact W|lia|intros s1 W1].
    run. run. run_unit. finish HQ.
Qed.

End Body.

(** [statement] returns when its fuel exceeds the number of tokens that
    remain by two. *)
Lemma executes_statement fuel :
  executes L (Z.of_nat fuel - 2) (statement fuel).
Proof.
  induction fuel as [|fuel IH]; intros rest r n k s Q W HR HL HQ.
  - apply within_nonneg in W. lia.
  - simpl statement.
    apply (runs_statementBody _ (Z.of_nat fuel - 2) IH fuel rest r n k);
      auto; lia.
Qed.

(** Every statement of the program starts on a token that is not EOF. *)
Lemma runs_compileLoop fuel :
  forall rest r n k s (Q : unit -> State -> Prop),
    within rest r n k s -> step s = 1 -> r + 3 <= Z.of_nat fuel ->
    (MAX_LOCALS <= n -> L) ->
    (forall s', within rest r n k s' ->
                type (previous (parser s')) = TOKEN_EOF -> Q tt s') ->
    runs False L (compileLoop fuel) Q s.
Proof.
  induction fuel as [|fuel IH]; intros rest r n k s Q W Hs Hf HL HQ.
  - apply within_nonneg in W. lia.
  - simpl compileLoop. apply runs_bind.
    apply (executes_statement fuel rest r n k); auto; try lia.
    rewrite Hs. intros s1 W1. apply runs_bind.
    apply (runs_match False L _ rest (r - 1) n k); [exact W1| |].
    + intros Heof s2 W2 P2. simpl. apply runs_ret. apply HQ.
      * pose proof (step_range s1). eapply within_weaken; eauto; lia.
      * now rewrite P2.
    + intros Hne. simpl.
      apply (IH rest (r - 1) n k); auto; try lia.
      * now apply (step_token s1 _ eq_refl).
      * intros s2 W2 P2. apply HQ; [|exact P2].
        eapply within_weaken; eauto; lia.
Qed.

End StatementRuns.


Section Termination.
Context {ops : OpCodes}.

(** X12: [compile] terminates on every source: fuel that exceeds the
    number of tokens by three is enough, and it returns only after it has
    read an EOF token.  On a source of fewer than [MAX_LOCALS] tokens
    nothing undefined happens on the way: no NULL handler is called, no
    [assert(false)] is reached, no jump is patched outside the code, no
    empty stack is popped and the table of locals does not overflow. *)
Theorem compile_terminates fuel source s :
  Z.of_nat (List.length (pending source)) + 3 <= Z.of_nat fuel ->
  match compile fuel source s with
  | Ok _ s' => type (previous (parser s')) = TOKEN_EOF
  | OutOfFuel => False
  | Undefined => MAX_LOCALS <= Z.of_nat (List.length (pending source))
  end.
Proof.
  intros Hf.
  set (N := Z.of_nat (List.length (pending source))) in *.
  change (runs False (MAX_LOCALS <= N) (compile fuel source)
               (fun _ s' => type (previous (parser s')) = TOKEN_EOF) s).
  unfold compile.
  apply runs_bind. unfold runs at 1, initScanner at 1.
  apply runs_bind. unfold runs at 1, beginCompiler at 1.
  apply runs_bind, runs_getParser.
  apply runs_bind. unfold runs at 1, setParser at 1. simpl.
  match goal with
  | |- runs _ _ _ _ ?s1 =>
      set (s1' := s1);
      assert (W1 : within (compiler s) (remaining s1') (remaining s1') 0 s1')
  end.
  { eexists. split; [reflexivity|]. unfold localCount, codeCount. simpl.
    repeat split; lia. }
  assert (E1 : remaining s1' - step s1' = N)
    by (unfold remaining; subst s1'; simpl; fold N; lia).
  apply runs_bind.
  apply (runs_advance False _ (compiler s) (remaining s1') (remaining s1') 0);
    [exact W1|].
  rewrite E1. intros s2 W2 _. apply runs_bind.
  apply (runs_match False _ _ (compiler s) N N 0); [exact W2| |].
  - intros Heof s3 W3 P3. simpl. apply runs_bind, runs_ret.
    destruct W3 as (c3 & Hc3 & _).
    unfold runs. rewrite (endCompiler_Ok s3 c3 (compiler s) Hc3). simpl.
    now rewrite P3.
  - intros Hne. simpl. apply runs_bind.
    apply (runs_compileLoop _ fuel (compiler s) N N 0); auto.
    + now apply (step_token s2 _ eq_refl).
    + intros s3 (c3 & Hc3 & _) P3.
      unfold runs. rewrite (endCompiler_Ok s3 c3 (compiler s) Hc3). simpl.
      exact P3.
Qed.

(** X13: A statement makes progress: run from a state with a current
    frame, with fuel that exceeds the number of remaining tokens by two,
    [statement] does not run out of fuel, and when it returns it has read
    the token it started on, unless that token was EOF, so that fewer
    tokens remain.  It is undefined only if the locals of the frame and the
    remaining tokens are [MAX_LOCALS] or more together. *)
Theorem statement_makes_progress fuel s c rest :
  compiler s = c :: rest ->
  remaining s + 2 <= Z.of_nat fuel ->
  match statement fuel s with
  | Ok _ s' => remaining s' + step s <= remaining s
  | OutOfFuel => False
  | Undefined => MAX_LOCALS <= localCount c + remaining s
  end.
Proof.
  intros Hc Hf.
  apply (executes_statement (MAX_LOCALS <= localCount c + remaining s) fuel
           rest (remaining s) (localCount c + remaining s)
           (codeCount (function c))); auto; try lia.
  - exists c. repeat split; auto; lia.
  - intros s' (c' & _ & Hr & _). lia.
Qed.

End Termination.


(** * Scoping *)

Lemma runs_scoped {A} (m : M A) rest d ls s (Q : A -> State -> Prop) :
  scoped m ->
  scope rest d ls s ->
  (forall a s', scope rest d ls s' -> Q a s') ->
  runs True True m Q s.
Proof. intros Hm. apply Hm. Qed.

Lemma runs_partial {A} (m : M A) (Q : A -> State -> Prop) s :
  (forall a s', m s = Ok a s' -> Q a s') -> runs True True m Q s.
Proof.
  intros H. unfold runs. destruct (m s) as [a s'| |]; auto.
Qed.

Lemma scoped_ret {A} (a : A) : scoped (ret a).
Proof. intros rest d ls s Q S HQ. apply runs_ret. auto. Qed.

Lemma scoped_bind {A B} (m : M A) (k : A -> M B) :
  scoped m -> (forall a, scoped (k a)) -> scoped (bind m k).
Proof.
  intros Hm Hk rest d ls s Q S HQ. apply runs_bind.
  apply (runs_scoped m rest d ls); auto.
  intros a s1 S1. apply (runs_scoped (k a) rest d ls); auto.
Qed.

Lemma scoped_undefined {A} : scoped (@undefined A).
Proof. intros rest d ls s Q S HQ. exact I. Qed.

Lemma scoped_outOfFuel {A} : scoped (@outOfFuel A).
Proof. intros rest d ls s Q S HQ. exact I. Qed.

Lemma scoped_unchanged {A} (m : M A) : framesUnchanged m -> scoped m.
Proof.
  intros Hm rest d ls s Q (c & Hc & Hd & Hl) HQ.
  apply runs_partial. intros a s' E. apply HQ.
  exists c. rewrite (Hm s a s' E). auto.
Qed.

Lemma scoped_safe {A} (m : M A) : exprSafe None m -> scoped m.
Proof.
  intros Hm rest d ls s Q (c & Hc & Hd & Hl) HQ.
  apply runs_partial. intros a s' E. apply HQ.
  pose proof (Hm s I c rest Hc) as H. rewrite E in H.
  destruct H as (f' & Hc' & _). exists (withFunction c f'). auto.
Qed.

Lemma scoped_setFunction f : scoped (setFunction f).
Proof.
  intros rest d ls s Q (c & Hc & Hd & Hl) HQ.
  unfold runs. rewrite (setFunction_Ok s c f rest Hc).
  apply HQ. exists (withFunction c f). auto.
Qed.

Create HintDb scoped.
#[export] Hint Resolve scoped_ret scoped_undefined scoped_outOfFuel
  scoped_setFunction : scoped.
#[export] Hint Extern 2 (scoped _) =>
  apply scoped_unchanged; solve [auto with frames] : scoped.
#[export] Hint Extern 3 (scoped _) =>
  apply scoped_safe; solve [auto with safe] : scoped.

Ltac scoped_auto :=
  repeat first
    [ solve [auto with scoped]
    | match goal with
      | |- scoped (bind _ _) => apply scoped_bind; [|intro]
      | |- scoped (if ?b then _ else _) => destruct b
      | |- scoped (let _ := _ in _) => cbv zeta
      end ].

(** ** Sorted tables *)

Lemma tidy_app d e ls added :
  tidy d ls -> d <= e -> atDepth e added -> tidy e (ls ++ added).
Proof.
  revert d ls. induction added as [|a added IH]; intros d ls [Hs Hd] He Ha.
  - rewrite app_nil_r. split; [exact Hs|].
    eapply Forall_impl; [|exact Hd]. simpl. intros. lia.
  - pose proof (Forall_inv Ha) as Hda. pose proof (Forall_inv_tail Ha) as Ha'.
    simpl in Hda.
    change (a :: added) with ([a] ++ added). rewrite app_assoc.
    apply (IH e (ls ++ [a])); [|lia|exact Ha'].
    split.
    + apply depthsSorted_app; [exact Hs|].
      eapply Forall_impl; [|exact Hd]. simpl. intros. lia.
    + apply Forall_app. split.
      * eapply Forall_impl; [|exact Hd]. simpl. intros. lia.
      * constructor; [lia|constructor].
Qed.

Lemma filter_inner d ls added :
  tidy d ls -> atDepth (d + 1) added ->
  filter (fun l => depth l <=? d) (ls ++ added) = ls.
Proof.
  intros [_ Hd] Ha. rewrite filter_app.
  assert (filter (fun l => depth l <=? d) ls = ls) as ->.
  { clear Ha. induction Hd as [|l ls Hl Hd IH]; simpl; [reflexivity|].
    destruct (Z.leb_spec (depth l) d); [now rewrite IH|lia]. }
  assert (filter (fun l => depth l <=? d) added = []) as ->.
  { induction Ha as [|l added Hl Ha IH]; simpl; [reflexivity|].
    destruct (Z.leb_spec (depth l) d); [lia|exact IH]. }
  apply app_nil_r.
Qed.

(** ** Opening and closing a scope *)

Section ScopeRuns.
Context {ops : OpCodes}.

Lemma scoped_storeCode offset byte : scoped (storeCode offset byte).
Proof.
  intros rest d ls s Q (c & Hc & Hd & Hl) HQ.
  unfold storeCode, runs, bind. rewrite (getCompiler_Ok s c rest Hc).
  destruct (_ && _); [|exact I].
  rewrite (setFunction_Ok s c _ rest Hc).
  apply HQ. eexists. split; [reflexivity|]. auto.
Qed.

Hint Resolve scoped_storeCode : scoped.

Lemma scoped_patchJump offset : scoped (patchJump offset).
Proof. unfold patchJump. scoped_auto. Qed.

Lemma runs_beginScope rest d ls s (Q : unit -> State -> Prop) :
  scope rest d ls s ->
  (forall s', scope rest (d + 1) ls s' -> Q tt s') ->
  runs True True beginScope Q s.
Proof.
  intros (c & Hc & Hd & Hl) HQ.
  unfold beginScope, runs, bind. rewrite (getCompiler_Ok s c rest Hc).
  rewrite (setCompiler_Ok s c _ rest Hc).
  apply HQ. eexists. split; [reflexivity|]. simpl. split; [lia|exact Hl].
Qed.

(** With sorted depths [endScope] removes the locals of the scope it
    closes. *)
Lemma runs_endScope rest d ls s (Q : unit -> State -> Prop) :
  scope rest d ls s -> depthsSorted ls ->
  (forall s', scope rest (d - 1) (filter (fun l => depth l <=? d - 1) ls) s' ->
              Q tt s') ->
  runs True True endScope Q s.
Proof.
  intros (c & Hc & Hd & Hl) Hs HQ.
  unfold runs. rewrite (endScope_Ok s c rest Hc). cbv zeta.
  apply HQ. eexists. split; [reflexivity|]. simpl. split; [lia|].
  subst d ls. apply popCount_sorted. exact Hs.
Qed.

Lemma runs_declare t constant rest d ls s (Q : unit -> State -> Prop) :
  scope rest d ls s ->
  (forall s', scope rest d (if d =? -1 then ls else ls ++ [mkLocal t d]) s' ->
              Q tt s') ->
  runs True True (declareVariable t constant) Q s.
Proof.
  intros S HQ. pose proof S as (c & Hc & Hd & Hl).
  unfold declareVariable. apply runs_bind.
  unfold runs at 1. rewrite (getCompiler_Ok s c rest Hc). rewrite Hd.
  destruct (d =? -1).
  - apply (runs_scoped _ rest d ls); auto with scoped.
    intros [] s'. apply HQ.
  - apply runs_bind.
    apply (runs_scoped _ rest d ls); auto with scoped.
    intros a s1 (c1 & Hc1 & Hd1 & Hl1). apply runs_bind.
    unfold runs at 1. rewrite (getCompiler_Ok s1 c1 rest Hc1).
    destruct (_ <? _); [|exact I].
    unfold runs. rewrite (setCompiler_Ok s1 c1 _ rest Hc1).
    apply HQ. eexists. split; [reflexivity|]. simpl.
    rewrite Hd1, Hl1. auto.
Qed.

End ScopeRuns.
#[export] Hint Resolve scoped_storeCode scoped_patchJump : scoped.


Ltac scope_step :=
  repeat match goal with
         | |- runs _ _ (bind _ _) _ _ => apply runs_bind
         | |- runs _ _ (let _ := _ in _) _ _ => cbv zeta
         end;
  match goal with
  | S : scope ?rest ?d ?ls ?s |- runs True True ?m _ ?s =>
      first
        [ apply (runs_scoped m rest d ls);
          [solve [scoped_auto]|exact S|intros ? ? ?]
        | apply (runs_beginScope rest d ls); [exact S|intros ? ?]
        | apply (runs_declare _ _ rest d ls); [exact S|intros ? ?] ]
  end.

Lemma TokenType_eqb_neq a b : a <> b -> TokenType_eqb a b = false.
Proof.
  intro H. unfold TokenType_eqb. destruct (TokenType_eq_dec a b); congruence.
Qed.

Lemma runs_match_scope t rest d ls s (Q : bool -> State -> Prop) :
  scope rest d ls s ->
  (type (current (parser s)) = t ->
   forall s', scope rest d ls s' -> Q true s') ->
  (type (current (parser s)) <> t -> Q false s) ->
  runs True True (match_ t) Q s.
Proof.
  intros S Htrue Hfalse. unfold match_. apply runs_bind, runs_check.
  destruct (TokenType_eqb _ _) eqn:E.
  - apply TokenType_eqb_true in E. scope_step. apply runs_ret. auto.
  - apply TokenType_eqb_false in E. apply runs_ret. auto.
Qed.

Section ScopeStatements.
Context {ops : OpCodes}.

Lemma scoped_expressionOf fuel : scoped (expression (parsePrecedence fuel)).
Proof. apply scoped_safe, exprSafe_expressionStatement. Qed.

Lemma scoped_parseVariable message constant :
  scoped (parseVariable message constant).
Proof. apply scoped_safe, exprSafe_parseVariable. Qed.

Hint Resolve scoped_expressionOf scoped_parseVariable : scoped.

Lemma scoped_returnStatement fuel : scoped (returnStatement fuel).
Proof. unfold returnStatement. scoped_auto. Qed.

(** A [var] declaration adds its variable to the locals, inside a scope. *)
Lemma runs_varStatement_scope fuel rest d ls s (Q : unit -> State -> Prop) :
  scope rest d ls s ->
  (forall s' t,
      scope rest d (if d =? -1 then ls else ls ++ [mkLocal t d]) s' ->
      Q tt s') ->
  runs True True (varStatement fuel) Q s.
Proof.
  intros S HQ. unfold varStatement.
  scope_step. run_pair. scope_step. scope_step. scope_step. scope_step.
  eapply HQ. eassumption.
Qed.

Lemma atDepth_one d t : atDepth d (if d =? -1 then [] else [mkLocal t d]).
Proof.
  destruct (d =? -1); repeat constructor.
Qed.

Lemma atDepth_declared d t added :
  atDepth d added ->
  atDepth d ((if d =? -1 then [] else [mkLocal t d]) ++ added).
Proof.
  intro H. apply Forall_app. split; [apply atDepth_one|exact H].
Qed.

Lemma declared_app d t (ls : list Local) :
  (if d =? -1 then ls else ls ++ [mkLocal t d])
  = ls ++ (if d =? -1 then [] else [mkLocal t d]).
Proof. destruct (d =? -1); [now rewrite app_nil_r|reflexivity]. Qed.

Lemma runs_parameters_scope fuel :
  forall paramConstant rest d ls s (Q : unit -> State -> Prop),
    scope rest d ls s ->
    (forall s' added,
        scope rest d (ls ++ added) s' -> atDepth d added -> Q tt s') ->
    runs True True (parameters fuel paramConstant) Q s.
Proof.
  induction fuel as [|fuel IH]; intros paramConstant rest d ls s Q S HQ;
    [exact I|].
  simpl parameters. scope_step. run_pair. scope_step. scope_step. scope_step.
  scope_step.
  match goal with
  | b : bool, S' : scope _ _ (if _ then _ else ls ++ [mkLocal ?t _]) ?s'
    |- runs _ _ _ _ ?s' =>
      rewrite declared_app in S'; destruct b;
      [apply (IH _ rest d _ s' Q S'); intros s2 added S2 A2;
       rewrite <- app_assoc in S2; apply (HQ _ _ S2);
       now apply atDepth_declared
      |apply runs_ret; apply (HQ _ _ S'); apply atDepth_one]
  end.
Qed.

Section Body.
Variable st : M unit.
Hypothesis st_declares : declares st.

Lemma runs_blockLoop_scope fuel :
  forall rest d ls s (Q : unit -> State -> Prop),
    scope rest d ls s -> tidy d ls ->
    (forall s' added,
        scope rest d (ls ++ added) s' -> atDepth d added -> Q tt s') ->
    runs True True (blockLoop st fuel) Q s.
Proof.
  induction fuel as [|fuel IH]; intros rest d ls s Q S T HQ; [exact I|].
  simpl blockLoop. apply runs_bind, runs_check. apply runs_bind, runs_check.
  destruct (_ && _).
  - apply runs_bind. apply (st_declares rest d ls); auto.
    intros s1 added1 S1 A1.
    apply (IH rest d (ls ++ added1)); auto.
    + apply (tidy_app d d); auto; lia.
    + intros s2 added2 S2 A2. rewrite <- app_assoc in S2.
      apply (HQ _ _ S2). now apply Forall_app.
  - apply runs_ret. apply (HQ s []); [now rewrite app_nil_r|constructor].
Qed.

Lemma runs_block_scope fuel rest d ls s (Q : unit -> State -> Prop) :
  scope rest d ls s -> tidy d ls ->
  (forall s' added,
      scope rest d (ls ++ added) s' -> atDepth d added -> Q tt s') ->
  runs True True (block st fuel) Q s.
Proof.
  intros S T HQ. unfold block. scope_step. apply runs_bind.
  match goal with
  | S1 : scope _ _ _ ?s1 |- runs _ _ _ _ ?s1 =>
      apply (runs_blockLoop_scope fuel rest d ls); auto
  end.
  intros s2 added S2 A2. scope_step.
  match goal with u : unit |- _ => destruct u end. eapply HQ; eauto.
Qed.

(** The scope a statement opens is closed with the locals it found. *)
Ltac close_scope HQ T :=
  repeat match goal with
         | |- runs _ _ (bind _ _) _ _ => apply runs_bind
         end;
  match goal with
  | S : scope ?rest (?d + 1) (?ls ++ ?added) ?s, A : atDepth _ ?added
    |- runs _ _ endScope _ ?s =>
      apply (runs_endScope rest (d + 1) (ls ++ added)); [exact S| |];
      [refine (proj1 (tidy_app d (d + 1) ls added T _ A)); lia
      |replace (d + 1 - 1) with d by lia;
       rewrite (filter_inner d ls added T A);
       intros ? ?; apply HQ; assumption]
  end.

Ltac run_st_scope T :=
  repeat match goal with
         | |- runs _ _ (bind _ _) _ _ => apply runs_bind
         end;
  match goal with
  | S : scope ?rest ?d ?ls ?s |- runs _ _ st _ ?s =>
      apply (st_declares rest d ls); [exact S|T|intros ? ? ? ?]
  end.

Lemma tidy_deeper d ls : tidy d ls -> tidy (d + 1) ls.
Proof.
  intro T. rewrite <- (app_nil_r ls).
  apply (tidy_app d (d + 1)); auto; [lia|constructor].
Qed.

Lemma runs_ifStatement_scope fuel rest d ls s (Q : unit -> State -> Prop) :
  scope rest d ls s -> tidy d ls ->
  (forall s', scope rest d ls s' -> Q tt s') ->
  runs True True (ifStatement st fuel) Q s.
Proof.
  intros S T HQ. unfold ifStatement.
  do 6 scope_step.
  run_st_scope ltac:(now apply tidy_deeper).
  do 4 scope_step. apply runs_bind.
  match goal with
  | b : bool |- _ => destruct b
  end.
  - run_st_scope ltac:(apply (tidy_app d (d + 1)); auto; lia).
    scope_step.
    match goal with
    | S' : scope _ _ ((_ ++ _) ++ _) _ |- _ => rewrite <- app_assoc in S'
    end.
    match goal with
    | A1 : atDepth ?e ?added1, A2 : atDepth _ ?added2,
      S' : scope _ _ (_ ++ ?added1 ++ ?added2) _ |- _ =>
        assert (atDepth e (added1 ++ added2)) by (apply Forall_app; auto)
    end.
    close_scope HQ T.
  - scope_step. scope_step. close_scope HQ T.
Qed.

Lemma runs_whileStatement_scope fuel rest d ls s (Q : unit -> State -> Prop) :
  scope rest d ls s -> tidy d ls ->
  (forall s', scope rest d ls s' -> Q tt s') ->
  runs True True (whileStatement st fuel) Q s.
Proof.
  intros S T HQ. unfold whileStatement.
  do 7 scope_step.
  run_st_scope ltac:(now apply tidy_deeper).
  do 2 scope_step. close_scope HQ T.
Qed.

Lemma tidy_nil d : tidy d [].
Proof.
  split; [|constructor]. intros i j li lj _ Hi. destruct i; discriminate.
Qed.

(** A function declaration compiles the function in a frame of its own and
    comes back to the frame it started in, where it adds the name of the
    function to the locals, inside a scope. *)
Lemma runs_funStatement_scope fuel rest d ls s (Q : unit -> State -> Prop) :
  scope rest d ls s ->
  (forall s' t,
      scope rest d (if d =? -1 then ls else ls ++ [mkLocal t d]) s' ->
      Q tt s') ->
  runs True True (funStatement st fuel) Q s.
Proof.
  intros S HQ. unfold funStatement.
  apply runs_bind.
  apply (runs_scoped _ rest d ls); [auto with scoped|exact S|].
  intros [tok nameConstant] s1 (c1 & Hc1 & Hd1 & Hl1). cbv beta iota.
  apply runs_bind. unfold runs at 1, beginCompiler at 1.
  assert (S2 : scope (c1 :: rest) (-1) []
                 (mkState (scanner s1) (parser s1)
                          (mkCompiler newFunction [] (-1) :: compiler s1)
                          (vmStack s1) (stderr s1))).
  { eexists. split; [simpl; rewrite Hc1; reflexivity|]. auto. }
  scope_step. replace (-1 + 1) with 0 in * by lia.
  do 2 scope_step. apply runs_bind.
  match goal with
  | S3 : scope _ _ _ ?s3 |- runs _ _ (if ?b then _ else _) _ ?s3 =>
      apply (runs_weaken True True _
               (fun _ s' => exists params,
                    scope (c1 :: rest) 0 params s' /\ atDepth 0 params));
      [destruct b;
       [apply (runs_parameters_scope fuel 0 (c1 :: rest) 0 []);
        [exact S3|intros s4 added S4 A4; exists added; auto]
       |apply runs_ret; exists []; split; [exact S3|constructor]]
      |intros u s4 (params & S4 & A4)]
  end.
  assert (T4 : tidy 0 params).
  { change params with ([] ++ params).
    apply (tidy_app 0 0); auto using tidy_nil. lia. }
  scope_step. apply runs_bind.
  match goal with
  | S5 : scope _ _ _ ?s5 |- runs _ _ (block _ _) _ ?s5 =>
      apply (runs_block_scope fuel (c1 :: rest) 0 params); auto;
      intros s6 added S6 A6
  end.
  apply runs_bind.
  apply (runs_endScope (c1 :: rest) 0 (params ++ added)); [exact S6| |].
  { apply (tidy_app 0 0); auto. lia. }
  intros s7 (c7 & Hc7 & _). apply runs_bind.
  unfold runs at 1. rewrite (endCompiler_Ok s7 c7 (c1 :: rest) Hc7).
  assert (S8 : scope rest d ls (withFrames s7 (c1 :: rest)))
    by (exists c1; auto).
  scope_step. scope_step. eapply HQ. eassumption.
Qed.

(** A statement declares a local exactly when it is a [var] or [fun]
    declaration inside a scope; otherwise it leaves the locals as it found
    them. *)
Lemma runs_statementBody_scope fuel rest d ls s (Q : unit -> State -> Prop) :
  scope rest d ls s -> tidy d ls ->
  (forall s' added,
      scope rest d (ls ++ added) s' ->
      (if declaring d s then exists t, added = [mkLocal t d]
       else (added = [])) ->
      Q tt s') ->
  runs True True (statementBody st fuel) Q s.
Proof.
  intros S T HQ.
  assert (Hdecl : forall s' t,
             type (current (parser s)) = TOKEN_FUN \/
             type (current (parser s)) = TOKEN_VAR ->
             scope rest d (if d =? -1 then ls else ls ++ [mkLocal t d]) s' ->
             Q tt s').
  { intros s' t Htok S'. rewrite declared_app in S'.
    apply (HQ _ _ S'). unfold declaring.
    assert (TokenType_eqb (type (current (parser s))) TOKEN_FUN
            || TokenType_eqb (type (current (parser s))) TOKEN_VAR = true)
      as ->
      by (destruct Htok as [-> | ->]; reflexivity).
    rewrite andb_true_r. destruct (d =? -1); simpl; eauto. }
  assert (Hkeep : forall s',
             type (current (parser s)) <> TOKEN_FUN ->
             type (current (parser s)) <> TOKEN_VAR ->
             scope rest d ls s' -> Q tt s').
  { intros s' Hfun Hvar S'. rewrite <- (app_nil_r ls) in S'.
    apply (HQ _ _ S'). unfold declaring.
    rewrite (TokenType_eqb_neq _ _ Hfun), (TokenType_eqb_neq _ _ Hvar).
    now rewrite andb_false_r. }
  clear HQ. unfold statementBody.
  apply runs_bind. apply (runs_match_scope _ rest d ls); [exact S| |].
  { intros Htok s1 S1.
    apply (runs_funStatement_scope fuel rest d ls); [exact S1|].
    intros s2 t. apply Hdecl. auto. }
  intros Hfun.
  apply runs_bind. apply (runs_match_scope _ rest d ls); [exact S| |].
  { intros Htok s1 S1.
    apply (runs_ifStatement_scope fuel rest d ls); auto.
    intros s2. apply Hkeep; congruence. }
  intros _.
  apply runs_bind. apply (runs_match_scope _ rest d ls); [exact S| |].
  { intros Htok s1 S1.
    apply (runs_scoped _ rest d ls _ _ (scoped_returnStatement fuel)); auto.
    intros [] s2. apply Hkeep; congruence. }
  intros _.
  apply runs_bind. apply (runs_match_scope _ rest d ls); [exact S| |].
  { intros Htok s1 S1.
    apply (runs_varStatement_scope fuel rest d ls); [exact S1|].
    intros s2 t. apply Hdecl. auto. }
  intros Hvar.
  apply runs_bind. apply (runs_match_scope _ rest d ls); [exact S| |].
  { intros Htok s1 S1.
    apply (runs_whileStatement_scope fuel rest d ls); auto. }
  intros _.
  apply runs_bind, runs_check. destruct (TokenType_eqb _ _).
  - scope_step. apply runs_bind.
    match goal with
    | S1 : scope _ _ _ ?s1 |- runs _ _ (block _ _) _ ?s1 =>
        apply (runs_block_scope fuel rest (d + 1) ls);
        [exact S1|now apply tidy_deeper|intros s2 added S2 A2]
    end.
    close_scope Hkeep T.
  - do 3 scope_step. run_unit. now apply Hkeep.
Qed.

End Body.

Lemma declares_statement fuel : declares (statement fuel).
Proof.
  induction fuel as [|fuel IH]; intros rest d ls s Q S T HQ; [exact I|].
  simpl statement.
  apply (runs_statementBody_scope _ IH fuel rest d ls); auto.
  intros s' added S' Hadded. apply (HQ _ _ S').
  destruct (declaring d s); [destruct Hadded as (t & ->)|subst added];
    repeat constructor.
Qed.

End ScopeStatements.

Section Scoping.
Context {ops : OpCodes}.

(** X14: Lexical scoping.  In a frame whose locals have sorted depths, none
    deeper than the scope depth, a statement that returns leaves the
    enclosing frames and the scope depth as they were, and the locals too,
    with one exception: a [var] or [fun] declaration inside a scope adds
    exactly one local, at the end of the table, with the current depth.
    So every local declared inside a block, an [if], a [while] or a
    function body is gone when that statement ends. *)
Theorem statement_scoping fuel s s' c rest :
  statement fuel s = Ok tt s' ->
  compiler s = c :: rest ->
  depthsSorted (locals c) ->
  Forall (fun l => depth l <= scopeDepth c) (locals c) ->
  exists c',
    compiler s' = c' :: rest /\
    scopeDepth c' = scopeDepth c /\
    (if declaring (scopeDepth c) s
     then exists t, locals c' = locals c ++ [mkLocal t (scopeDepth c)]
     else (locals c' = locals c)).
Proof.
  intros E Hc Hs Hd.
  destruct fuel as [|fuel]; [discriminate E|].
  pose proof (runs_statementBody_scope (statement fuel)
                (declares_statement fuel) fuel rest (scopeDepth c)
                (locals c) s
                (fun _ s' =>
                   exists c',
                     compiler s' = c' :: rest /\
                     scopeDepth c' = scopeDepth c /\
                     (if declaring (scopeDepth c) s
                      then exists t,
                          locals c' = locals c ++ [mkLocal t (scopeDepth c)]
                      else (locals c' = locals c)))) as H.
  unfold runs in H. simpl statement in E. rewrite E in H. apply H.
  - exists c. auto.
  - split; assumption.
  - intros s2 added (c2 & Hc2 & Hd2 & Hl2) Hadded.
    exists c2. split; [exact Hc2|]. split; [exact Hd2|].
    destruct (declaring (scopeDepth c) s).
    + destruct Hadded as (t & ->). exists t. exact Hl2.
    + subst added. now rewrite app_nil_r in Hl2.
Qed.

End Scoping.


(** * What the compiler does to a function

    A function under construction is changed in four ways only: a byte is
    appended, a constant is appended, a byte is overwritten and the arity
    is incremented.  A property of functions that holds of the empty
    function and that these four keep is an invariant of the compiler. *)

Section FunctionInvariant.
Context {ops : OpCodes}.
Variable P : ObjFunction -> Prop.
Hypothesis P_new : P newFunction.
Hypothesis P_emitted : forall f byte ln, P f -> P (emitted f byte ln).
Hypothesis P_pooled : forall f v, P f -> P (pooled f v).
Hypothesis P_stored :
  forall f offset byte,
    P f -> P (mkFunction (writeAt (code f) offset byte) (codeLines f)
                         (codeCapacity f) (constants f) (arity f)).
Hypothesis P_arity :
  forall f,
    P f -> P (mkFunction (code f) (codeLines f) (codeCapacity f)
                         (constants f) (arity f + 1)).

Lemma sound_function f :
  sound P (ObjFun f) <-> P f /\ Forall (sound P) (constants f).
Proof.
  unfold sound. change (functionsOfValue (ObjFun f)) with (functionsOf f).
  rewrite functionsOf_unfold. split.
  - intros H. split; [apply H; left; reflexivity|].
    apply Forall_forall. intros v Hv g Hg. apply H. right.
    apply in_flat_map. exists v. auto.
  - intros [Hf Hk] g [<-|Hg]; [exact Hf|].
    apply in_flat_map in Hg as (v & Hv & Hg).
    rewrite Forall_forall in Hk. exact (Hk v Hv g Hg).
Qed.

Lemma sound_atom v : functionsOfValue v = [] -> sound P v.
Proof. intros E g Hg. rewrite E in Hg. destruct Hg. Qed.

(** A change of the function that leaves the constants alone. *)
Lemma sound_same_constants f f' :
  sound P (ObjFun f) -> (P f -> P f') -> constants f' = constants f ->
  sound P (ObjFun f').
Proof.
  intros H Hf' E. apply sound_function in H as [Hf Hk].
  apply sound_function. rewrite E. auto.
Qed.

Lemma invariant_frames s s' :
  compiler s' = compiler s -> invariant P s -> invariant P s'.
Proof. unfold invariant. intros ->. auto. Qed.

Lemma inv_unchanged {A} (m : M A) :
  framesUnchanged m -> keeps (invariant P) m.
Proof. apply framesUnchanged_keeps. exact invariant_frames. Qed.

Lemma invariant_top s c c' rest :
  compiler s = c :: rest -> invariant P s ->
  sound P (ObjFun (function c')) ->
  invariant P (withFrames s (c' :: rest)).
Proof.
  unfold invariant. intros E H ok. rewrite E in H. inversion H; subst.
  simpl. constructor; assumption.
Qed.

Lemma inv_getCompiler :
  hoare (invariant P) getCompiler (fun c => sound P (ObjFun (function c))).
Proof.
  intros s c s' i H. apply getCompiler_inv in H as (-> & rest & E).
  split; [exact i|]. unfold invariant in i. rewrite E in i.
  inversion i; assumption.
Qed.

Lemma inv_setCompiler c :
  sound P (ObjFun (function c)) -> keeps (invariant P) (setCompiler c).
Proof.
  intros ok s a s' i H. unfold setCompiler in H.
  destruct (compiler s) as [|c0 rest] eqn:E; try discriminate.
  inversion H; subst. split; [|exact I].
  exact (invariant_top _ _ _ _ E i ok).
Qed.

Lemma inv_setFunction f :
  sound P (ObjFun f) -> keeps (invariant P) (setFunction f).
Proof.
  intros ok s a s' i H.
  destruct (compiler s) as [|c rest] eqn:E.
  - unfold setFunction, bind, getCompiler in H. rewrite E in H. discriminate.
  - rewrite (setFunction_Ok _ _ _ _ E) in H. inversion H; subst.
    split; [|exact I]. apply (invariant_top _ _ _ _ E i). exact ok.
Qed.

Lemma inv_emitByte byte : keeps (invariant P) (emitByte byte).
Proof.
  intros s a s' i H. apply emitByte_inv in H as (c & rest & E & ->).
  split; [|exact I].
  apply (invariant_top _ _ _ _ E i).
  unfold invariant in i. rewrite E in i. inversion i; subst.
  apply (sound_same_constants (function c)); simpl; auto.
Qed.

Lemma inv_addConstant v :
  sound P v -> keeps (invariant P) (addConstant v).
Proof.
  intros kv s a s' i H. destruct (compiler s) as [|c rest] eqn:E.
  - unfold addConstant, bind, push, getCompiler in H. simpl in H.
    rewrite E in H. discriminate.
  - rewrite (addConstant_Ok _ _ _ _ E) in H. inversion H; subst.
    split; [|exact I]. apply (invariant_top _ _ _ _ E i).
    unfold invariant in i. rewrite E in i. inversion i; subst.
    match goal with
    | Hc : sound P (ObjFun (function c)) |- _ =>
        apply sound_function in Hc as [Hf Hk]
    end.
    apply sound_function. simpl. split; [apply P_pooled, Hf|].
    apply Forall_app. split; [exact Hk|]. constructor; auto.
Qed.

Lemma inv_beginCompiler : keeps (invariant P) beginCompiler.
Proof.
  intros s a s' i H. unfold beginCompiler in H. inversion H; subst.
  split; [|exact I]. unfold invariant. simpl.
  constructor; [|exact i].
  apply sound_function. simpl. split; [exact P_new|constructor].
Qed.

Lemma inv_leaveCompiler : keeps (invariant P) leaveCompiler.
Proof.
  intros s a s' i H. unfold leaveCompiler in H.
  destruct (compiler s) as [|c rest] eqn:E; try discriminate.
  inversion H; subst. split; [|exact I].
  unfold invariant in *. simpl. rewrite E in i. inversion i; assumption.
Qed.

Hint Resolve inv_getCompiler inv_emitByte inv_beginCompiler
  inv_leaveCompiler : hoare.
Hint Extern 1 (hoare (invariant P) _ _) =>
  (apply inv_unchanged; solve [ auto with frames ]) : hoare.
Hint Extern 1 (hoare (invariant P) (setCompiler _) _) =>
  (apply inv_setCompiler; simpl; assumption) : hoare.
Hint Extern 1 (sound P _) => (apply sound_atom; reflexivity) : hoare.
Hint Extern 1 (hoare (invariant P) (addConstant _) _) =>
  (apply inv_addConstant; solve [ auto with hoare ]) : hoare.

Ltac unfold_emitters :=
  unfold statementBody, funStatement, ifStatement, whileStatement,
    returnStatement, varStatement, block, parsePrecedenceBody, callParseFn,
    and_, binary, boolean, call, grouping, null_, number, or_, string_,
    unary, variable, expression, declareVariable,
    emitConstant, nameConstant, endScope, beginScope,
    patchJump, emitLoop, emitBytes, functionValue.

Lemma inv_emitJump instruction : keeps (invariant P) (emitJump instruction).
Proof. unfold emitJump. hoare_auto. Qed.

Lemma inv_parseVariable message constant :
  keeps (invariant P) (parseVariable message constant).
Proof. unfold parseVariable. unfold_emitters. hoare_auto. Qed.

Hint Resolve inv_emitJump inv_parseVariable : hoare.

Lemma inv_storeCode offset byte : keeps (invariant P) (storeCode offset byte).
Proof.
  unfold storeCode. hoare_auto.
  apply inv_setFunction. cbv beta in *.
  match goal with
  | Hc : sound P (ObjFun (function ?c)) |- _ =>
      apply (sound_same_constants (function c)); simpl; auto
  end.
Qed.

Lemma inv_endCompiler :
  hoare (invariant P) endCompiler (fun r => sound P (functionValue r)).
Proof.
  intros s a s' i H. destruct (compiler s) as [|c rest] eqn:E.
  - unfold endCompiler, emitBytes, emitByte, bind, getCompiler in H.
    rewrite E in H. discriminate.
  - rewrite (endCompiler_Ok _ _ _ E) in H. inversion H; subst. clear H.
    unfold invariant in *. rewrite E in i. inversion i; subst.
    split; [assumption|].
    destruct (hadError (parser s)); simpl.
    + apply sound_atom. reflexivity.
    + apply (sound_same_constants (function c)); simpl; auto.
Qed.

Lemma inv_endScopeLoop n : keeps (invariant P) (endScopeLoop n).
Proof. induction n as [|n IH]; simpl; hoare_cases. Qed.

Hint Resolve inv_storeCode inv_endCompiler inv_endScopeLoop : hoare.

Section Expressions.
Variable pp : Precedence -> M unit.
Hypothesis inv_pp : forall precedence, keeps (invariant P) (pp precedence).

Hint Resolve inv_pp : hoare.

Lemma inv_callArguments fuel :
  forall argCount, keeps (invariant P) (callArguments pp fuel argCount).
Proof.
  induction fuel as [|fuel IH]; intros argCount; simpl; unfold_emitters;
    hoare_cases.
Qed.
Hint Resolve inv_callArguments : hoare.

Lemma inv_callParseFn fuel fn canAssign :
  keeps (invariant P) (callParseFn pp fuel fn canAssign).
Proof. unfold_emitters. hoare_cases. Qed.
Hint Resolve inv_callParseFn : hoare.

Lemma inv_infixLoop fuel :
  forall precedence canAssign,
    keeps (invariant P) (infixLoop pp fuel precedence canAssign).
Proof.
  induction fuel as [|fuel IH]; intros precedence canAssign; simpl;
    hoare_cases.
Qed.
Hint Resolve inv_infixLoop : hoare.

Lemma inv_parsePrecedenceBody fuel precedence :
  keeps (invariant P) (parsePrecedenceBody pp fuel precedence).
Proof. unfold parsePrecedenceBody. hoare_cases. Qed.

End Expressions.

Lemma inv_parsePrecedence fuel :
  forall precedence, keeps (invariant P) (parsePrecedence fuel precedence).
Proof.
  induction fuel as [|fuel IH]; intros precedence; simpl.
  - apply hoare_outOfFuel.
  - apply inv_parsePrecedenceBody. exact IH.
Qed.
Hint Resolve inv_parsePrecedence : hoare.

Lemma inv_parameters fuel :
  forall paramConstant, keeps (invariant P) (parameters fuel paramConstant).
Proof.
  induction fuel as [|fuel IH]; intros paramConstant; simpl;
    unfold_emitters; hoare_cases.
  apply inv_setFunction. cbv beta in *.
  match goal with
  | Hc : sound P (ObjFun (function ?c)) |- _ =>
      apply (sound_same_constants (function c)); simpl; auto
  end.
Qed.
Hint Resolve inv_parameters : hoare.

Section Statements.
Variable st : M unit.
Hypothesis inv_st : keeps (invariant P) st.

Hint Resolve inv_st : hoare.

Lemma inv_blockLoop fuel : keeps (invariant P) (blockLoop st fuel).
Proof. induction fuel as [|fuel IH]; simpl; hoare_cases. Qed.
Hint Resolve inv_blockLoop : hoare.

Lemma inv_statementBody fuel : keeps (invariant P) (statementBody st fuel).
Proof. unfold_emitters. hoare_cases. Qed.

End Statements.

Lemma inv_statement fuel : keeps (invariant P) (statement fuel).
Proof.
  induction fuel as [|fuel IH]; simpl.
  - apply hoare_outOfFuel.
  - apply inv_statementBody. exact IH.
Qed.
Hint Resolve inv_statement : hoare.

Lemma inv_compileLoop fuel : keeps (invariant P) (compileLoop fuel).
Proof. induction fuel as [|fuel IH]; simpl; hoare_cases. Qed.
Hint Resolve inv_compileLoop : hoare.

(** The functions [compile] produces have every invariant of the four
    changes. *)
Lemma compile_invariant fuel source :
  hoare (invariant P) (compile fuel source)
        (fun r => sound P (functionValue r)).
Proof. unfold compile. hoare_cases. Qed.

End FunctionInvariant.

(** ** The capacity of the code array *)

Lemma roomy_emitted f byte ln : roomy f -> roomy (emitted f byte ln).
Proof.
  intros [H1 H2]. unfold roomy. rewrite codeCount_emitted.
  assert (codeCapacity (emitted f byte ln)
          = if codeCapacity f <? codeCount f + 1
            then (if codeCapacity f =? 0 then 4 else codeCapacity f * 2)
            else codeCapacity f) as -> by reflexivity.
  assert (0 <= codeCount f) by (unfold codeCount; lia).
  destruct (Z.ltb_spec (codeCapacity f) (codeCount f + 1));
    [destruct (Z.eqb_spec (codeCapacity f) 0)|]; lia.
Qed.

Section Capacity.
Context {ops : OpCodes}.

(** X15: The code array never overflows: in every function [compile]
    returns, and in every function in its constant pools, the code fits
    the capacity [emitByte] has allocated, and the capacity is less than
    twice the length of the code plus four.  ([emitByte] grows the array,
    to 4 entries and then by doubling, exactly when it is full.) *)
Theorem code_within_capacity fuel source s f s' :
  compile fuel source s = Ok (Some f) s' ->
  invariant roomy s ->
  forall g, In g (functionsOf f) ->
    codeCount g <= codeCapacity g < 2 * codeCount g + 4.
Proof.
  intros E i g Hg.
  assert (H : hoare (invariant roomy) (compile fuel source)
                    (fun r => sound roomy (functionValue r))).
  { apply compile_invariant.
    - unfold roomy, newFunction, codeCount. simpl. lia.
    - apply roomy_emitted.
    - intros f0 v H. exact H.
    - intros f0 offset byte H. unfold roomy, codeCount in *. simpl.
      rewrite writeAt_length. exact H.
    - intros f0 H. exact H. }
  destruct (H s (Some f) s' i E) as [_ Hs]. exact (Hs g Hg).
Qed.

End Capacity.


(** * The layout of the code *)

Lemma runs_appending {A} (m : M A) rest cd s (Q : A -> State -> Prop) :
  appending m ->
  coded rest cd s ->
  (forall a s' more, coded rest (cd ++ more) s' -> Q a s') ->
  runs True True m Q s.
Proof. intros Hm. apply Hm. Qed.

Lemma coded_same rest cd s : coded rest cd s -> coded rest (cd ++ []) s.
Proof. now rewrite app_nil_r. Qed.

Lemma appending_ret {A} (a : A) : appending (ret a).
Proof.
  intros rest cd s Q C HQ. apply runs_ret. apply (HQ a s []).
  now apply coded_same.
Qed.

Lemma appending_bind {A B} (m : M A) (k : A -> M B) :
  appending m -> (forall a, appending (k a)) -> appending (bind m k).
Proof.
  intros Hm Hk rest cd s Q C HQ. apply runs_bind.
  apply (runs_appending m rest cd); auto.
  intros a s1 more1 C1.
  apply (runs_appending (k a) rest (cd ++ more1)); auto.
  intros b s2 more2 C2. rewrite <- app_assoc in C2. eauto.
Qed.

Lemma appending_undefined {A} : appending (@undefined A).
Proof. intros rest cd s Q C HQ. exact I. Qed.

Lemma appending_outOfFuel {A} : appending (@outOfFuel A).
Proof. intros rest cd s Q C HQ. exact I. Qed.

Lemma appending_unchanged {A} (m : M A) : framesUnchanged m -> appending m.
Proof.
  intros Hm rest cd s Q (c & Hc & Hcd) HQ.
  apply runs_partial. intros a s' E. apply (HQ a s' []).
  apply coded_same. exists c. rewrite (Hm s a s' E). auto.
Qed.

(** An operation that leaves the code as it is. *)
Lemma appending_code {A} (m : M A) :
  (forall rest cd s (Q : A -> State -> Prop),
      coded rest cd s -> (forall a s', coded rest cd s' -> Q a s') ->
      runs True True m Q s) ->
  appending m.
Proof.
  intros Hm rest cd s Q C HQ. apply (Hm rest cd); [exact C|].
  intros a s' C'. apply (HQ a s' []). now apply coded_same.
Qed.

Create HintDb appending.
#[export] Hint Resolve appending_ret appending_undefined appending_outOfFuel
  : appending.
#[export] Hint Extern 2 (appending _) =>
  apply appending_unchanged; solve [auto with frames] : appending.

Ltac appending_auto :=
  repeat first
    [ solve [auto with appending]
    | match goal with
      | |- appending (bind _ _) => apply appending_bind; [|intro]
      | |- appending (if ?b then _ else _) => destruct b
      | |- appending (let _ := _ in _) => cbv zeta
      | |- appending (let '(_, _) := ?r in _) => destruct r
      | |- appending (match ?x with _ => _ end) => destruct x
      end ].

Lemma writeAt_app_right {A} (pre l : list A) i v :
  writeAt (pre ++ l) (List.length pre + i) v = pre ++ writeAt l i v.
Proof.
  induction pre as [|x pre IH]; simpl; [reflexivity|]. now rewrite IH.
Qed.

(** Overwriting the placeholder of the jump instruction that follows
    [pre]. *)
Lemma patch_placeholder pre instruction hi lo rest :
  writeAt
    (writeAt (pre ++ instruction :: 255 :: 255 :: rest)
             (Z.to_nat (Z.of_nat (List.length pre) + 1)) hi)
    (Z.to_nat (Z.of_nat (List.length pre) + 1 + 1)) lo
  = pre ++ instruction :: hi :: lo :: rest.
Proof.
  replace (Z.to_nat (Z.of_nat (List.length pre) + 1))
    with (List.length pre + 1)%nat by lia.
  replace (Z.to_nat (Z.of_nat (List.length pre) + 1 + 1))
    with (List.length pre + 2)%nat by lia.
  rewrite writeAt_app_right. simpl. rewrite writeAt_app_right. reflexivity.
Qed.

Section CodedEmitter.
Context {ops : OpCodes}.

Lemma runs_getCompiler_coded rest cd s (Q : Compiler -> State -> Prop) :
  coded rest cd s ->
  (forall c, compiler s = c :: rest -> code (function c) = cd -> Q c s) ->
  runs True True getCompiler Q s.
Proof.
  intros (c & Hc & Hcd) HQ. unfold runs.
  rewrite (getCompiler_Ok s c rest Hc). auto.
Qed.

Lemma runs_setFunction_coded f rest cd s (Q : unit -> State -> Prop) :
  coded rest cd s ->
  (forall s', coded rest (code f) s' -> Q tt s') ->
  runs True True (setFunction f) Q s.
Proof.
  intros (c & Hc & Hcd) HQ. unfold runs.
  rewrite (setFunction_Ok s c f rest Hc). apply HQ.
  eexists. split; reflexivity.
Qed.

Lemma runs_setCompiler_coded c' rest cd s (Q : unit -> State -> Prop) :
  coded rest cd s ->
  (forall s', coded rest (code (function c')) s' -> Q tt s') ->
  runs True True (setCompiler c') Q s.
Proof.
  intros (c & Hc & Hcd) HQ. unfold runs.
  rewrite (setCompiler_Ok s c c' rest Hc). apply HQ.
  eexists. split; reflexivity.
Qed.

Lemma runs_emitByte_coded byte rest cd s (Q : unit -> State -> Prop) :
  coded rest cd s ->
  (forall s', coded rest (cd ++ [byte]) s' -> Q tt s') ->
  runs True True (emitByte byte) Q s.
Proof.
  intros (c & Hc & Hcd) HQ. unfold runs.
  rewrite (emitByte_Ok s c rest byte Hc). apply HQ.
  eexists. split; [reflexivity|]. simpl. now rewrite Hcd.
Qed.

Lemma appending_emitByte byte : appending (emitByte byte).
Proof.
  intros rest cd s Q C HQ. apply (runs_emitByte_coded byte rest cd); auto.
  intros s'. apply HQ.
Qed.

Lemma appending_addConstant v : appending (addConstant v).
Proof.
  apply appending_code. intros rest cd s Q (c & Hc & Hcd) HQ.
  unfold runs. rewrite (addConstant_Ok s c rest v Hc). apply HQ.
  eexists. split; [reflexivity|]. exact Hcd.
Qed.

Lemma appending_beginScope : appending beginScope.
Proof.
  apply appending_code. intros rest cd s Q C HQ. unfold beginScope.
  apply runs_bind. apply (runs_getCompiler_coded rest cd); [exact C|].
  intros c Hc Hcd.
  apply (runs_setCompiler_coded _ rest cd); [exact C|].
  simpl. rewrite Hcd. apply HQ.
Qed.

(** [endScope] adds one [OP_POP] for each local it removes. *)
Lemma runs_endScope_coded rest cd s (Q : unit -> State -> Prop) :
  coded rest cd s ->
  (forall s' k, coded rest (cd ++ repeat OP_POP k) s' -> Q tt s') ->
  runs True True endScope Q s.
Proof.
  intros (c & Hc & Hcd) HQ. unfold runs.
  rewrite (endScope_Ok s c rest Hc). cbv zeta. eapply HQ.
  eexists. split; [reflexivity|]. simpl.
  rewrite code_emittedRepeat, Hcd. reflexivity.
Qed.

Lemma appending_endScope : appending endScope.
Proof.
  intros rest cd s Q C HQ. apply (runs_endScope_coded rest cd); auto.
  intros s' k. apply HQ.
Qed.

Lemma runs_emitJump_coded instruction rest cd s (Q : Z -> State -> Prop) :
  coded rest cd s ->
  (forall s', coded rest (cd ++ [instruction; 255; 255]) s' ->
              Q (Z.of_nat (List.length cd) + 1) s') ->
  runs True True (emitJump instruction) Q s.
Proof.
  intros (c & Hc & Hcd) HQ. unfold runs.
  rewrite (emitJump_Ok s c rest instruction Hc). cbv zeta.
  unfold codeCount. rewrite Hcd. apply HQ.
  eexists. split; [reflexivity|]. simpl. rewrite Hcd.
  rewrite <- !app_assoc. reflexivity.
Qed.

Lemma appending_emitJump instruction : appending (emitJump instruction).
Proof.
  intros rest cd s Q C HQ. apply (runs_emitJump_coded _ rest cd); auto.
  intros s'. apply HQ.
Qed.

Lemma runs_storeCode_coded offset byte rest cd s
      (Q : unit -> State -> Prop) :
  coded rest cd s ->
  (forall s', coded rest (writeAt cd (Z.to_nat offset) byte) s' -> Q tt s') ->
  runs True True (storeCode offset byte) Q s.
Proof.
  intros C HQ. unfold storeCode. apply runs_bind.
  apply (runs_getCompiler_coded rest cd); [exact C|]. intros c Hc Hcd.
  destruct (_ && _); [|exact I].
  apply (runs_setFunction_coded _ rest cd); [exact C|].
  simpl. rewrite Hcd. exact HQ.
Qed.

(** [patchJump] overwrites the two bytes at [offset] with the distance
    from the end of the operand to the end of the code. *)
Lemma runs_patchJump_coded offset rest cd s (Q : unit -> State -> Prop) :
  coded rest cd s ->
  (forall s',
      let jump := Z.of_nat (List.length cd) - offset - 2 in
      coded rest
            (writeAt (writeAt cd (Z.to_nat offset)
                              (Z.land (Z.shiftr jump 8) 255))
                     (Z.to_nat (offset + 1)) (Z.land jump 255)) s' ->
      Q tt s') ->
  runs True True (patchJump offset) Q s.
Proof.
  intros C HQ. unfold patchJump. apply runs_bind.
  apply (runs_getCompiler_coded rest cd); [exact C|]. intros c Hc Hcd.
  cbv zeta. unfold codeCount. rewrite Hcd. apply runs_bind.
  apply (runs_storeCode_coded _ _ rest cd); [exact C|]. intros s1 C1.
  apply (runs_storeCode_coded _ _ rest _ s1 _ C1). exact HQ.
Qed.

Lemma runs_emitLoop_coded loopStart rest cd s (Q : unit -> State -> Prop) :
  coded rest cd s ->
  (forall s',
      coded rest
            (cd ++ OP_LOOP
                :: operandBytes (Z.of_nat (List.length cd) + 1 - loopStart + 2))
            s' ->
      Q tt s') ->
  runs True True (emitLoop loopStart) Q s.
Proof.
  intros (c & Hc & Hcd) HQ. unfold runs.
  rewrite (emitLoop_Ok s c rest loopStart Hc). cbv zeta.
  unfold codeCount. rewrite Hcd. apply HQ.
  eexists. split; [reflexivity|]. simpl. rewrite Hcd.
  rewrite <- !app_assoc. reflexivity.
Qed.

Lemma appending_emitLoop loopStart : appending (emitLoop loopStart).
Proof.
  intros rest cd s Q C HQ. apply (runs_emitLoop_coded _ rest cd); auto.
  intros s'. apply HQ.
Qed.

Hint Resolve appending_emitByte appending_addConstant : appending.

Lemma appending_emitBytes byte1 byte2 : appending (emitBytes byte1 byte2).
Proof. unfold emitBytes. appending_auto. Qed.

Lemma appending_nameConstant : appending nameConstant.
Proof. unfold nameConstant. appending_auto. Qed.

Hint Resolve appending_emitBytes appending_nameConstant : appending.

Lemma appending_emitConstant v : appending (emitConstant v).
Proof. unfold emitConstant. appending_auto. Qed.

Lemma appending_parseVariable message constant :
  appending (parseVariable message constant).
Proof. unfold parseVariable. appending_auto. Qed.

Lemma appending_declareVariable t constant :
  appending (declareVariable t constant).
Proof.
  unfold declareVariable.
  intros rest cd s Q C HQ. apply runs_bind.
  apply (runs_getCompiler_coded rest cd); [exact C|]. intros c Hc Hcd.
  destruct (scopeDepth c =? -1).
  - apply (runs_appending _ rest cd); auto with appending.
  - apply runs_bind.
    apply (runs_appending _ rest cd); auto with appending.
    intros a s1 more1 C1. apply runs_bind.
    apply (runs_getCompiler_coded rest (cd ++ more1)); [exact C1|].
    intros c1 Hc1 Hcd1. destruct (_ <? _); [|exact I].
    apply (runs_setCompiler_coded _ rest (cd ++ more1)); [exact C1|].
    simpl. rewrite Hcd1. intros s2 C2. exact (HQ tt s2 more1 C2).
Qed.

End CodedEmitter.
#[export] Hint Resolve appending_emitByte appending_addConstant
  appending_beginScope appending_endScope appending_emitJump
  appending_emitLoop appending_emitBytes appending_nameConstant
  appending_emitConstant appending_parseVariable appending_declareVariable
  : appending.


Section CodedExpressions.
Context {ops : OpCodes}.

(** Patching the jump that follows [pre]: its operand becomes the length
    of the code after it. *)
Lemma runs_patch_coded pre instruction body offset rest cd s
      (Q : unit -> State -> Prop) :
  coded rest cd s ->
  cd = pre ++ instruction :: 255 :: 255 :: body ->
  offset = Z.of_nat (List.length pre) + 1 ->
  (forall s',
      coded rest
            (pre ++ instruction
                 :: operandBytes (Z.of_nat (List.length body)) ++ body) s' ->
      Q tt s') ->
  runs True True (patchJump offset) Q s.
Proof.
  intros C -> -> HQ.
  apply (runs_patchJump_coded _ rest _ s Q C).
  intros s'. cbv zeta. rewrite patch_placeholder.
  replace (Z.of_nat (List.length (pre ++ instruction :: 255 :: 255 :: body))
           - (Z.of_nat (List.length pre) + 1) - 2)
    with (Z.of_nat (List.length body))
    by (rewrite length_app; simpl; lia).
  apply HQ.
Qed.

Variable pp : Precedence -> M unit.
Hypothesis pp_appending : forall precedence, appending (pp precedence).

Hint Resolve pp_appending : appending.

(** The code of [and]: the jump skips the [OP_POP] and the right operand. *)
Lemma runs_and_coded canAssign rest cd s (Q : unit -> State -> Prop) :
  coded rest cd s ->
  (forall s' rhs,
      coded rest
            (cd ++ OP_JUMP_IF_FALSE
                :: operandBytes (Z.of_nat (List.length rhs) + 1)
                ++ OP_POP :: rhs) s' ->
      Q tt s') ->
  runs True True (and_ pp canAssign) Q s.
Proof.
  intros C HQ. unfold and_.
  apply runs_bind. apply (runs_emitJump_coded _ rest cd); [exact C|].
  intros s1 C1.
  apply runs_bind. apply (runs_emitByte_coded _ rest _ s1 _ C1).
  intros s2 C2.
  apply runs_bind. apply (runs_appending _ rest _ s2 _ (pp_appending _) C2).
  intros [] s3 rhs C3.
  apply (runs_patch_coded cd OP_JUMP_IF_FALSE (OP_POP :: rhs) _ rest _ s3 _ C3);
    [rewrite <- !app_assoc; reflexivity|reflexivity|].
  intros s4 C4. apply (HQ s4 rhs).
  replace (Z.of_nat (List.length rhs) + 1)
    with (Z.of_nat (List.length (OP_POP :: rhs))) by (simpl; lia).
  exact C4.
Qed.

(** The code of [or]: the first jump skips the second, which skips the
    [OP_POP] and the right operand. *)
Lemma runs_or_coded canAssign rest cd s (Q : unit -> State -> Prop) :
  coded rest cd s ->
  (forall s' rhs,
      coded rest
            (cd ++ OP_JUMP_IF_FALSE :: operandBytes 3
                ++ OP_JUMP :: operandBytes (Z.of_nat (List.length rhs) + 1)
                ++ OP_POP :: rhs) s' ->
      Q tt s') ->
  runs True True (or_ pp canAssign) Q s.
Proof.
  intros C HQ. unfold or_.
  apply runs_bind. apply (runs_emitJump_coded _ rest cd); [exact C|].
  intros s1 C1.
  apply runs_bind. apply (runs_emitJump_coded _ rest _ s1 _ C1).
  intros s2 C2.
  apply runs_bind.
  apply (runs_patch_coded cd OP_JUMP_IF_FALSE [OP_JUMP; 255; 255] _
           rest _ s2 _ C2);
    [rewrite <- !app_assoc; reflexivity|reflexivity|].
  intros s3 C3.
  apply runs_bind. apply (runs_emitByte_coded _ rest _ s3 _ C3).
  intros s4 C4.
  apply runs_bind. apply (runs_appending _ rest _ s4 _ (pp_appending _) C4).
  intros [] s5 rhs C5.
  apply (runs_patch_coded (cd ++ OP_JUMP_IF_FALSE :: operandBytes 3)
           OP_JUMP (OP_POP :: rhs) _ rest _ s5 _ C5).
  - rewrite <- !app_assoc. reflexivity.
  - rewrite !length_app. simpl. lia.
  - intros s6 C6. apply (HQ s6 rhs).
    replace (Z.of_nat (List.length rhs) + 1)
      with (Z.of_nat (List.length (OP_POP :: rhs))) by (simpl; lia).
    rewrite <- !app_assoc in C6. exact C6.
Qed.

Lemma appending_and canAssign : appending (and_ pp canAssign).
Proof.
  intros rest cd s Q C HQ. apply (runs_and_coded canAssign rest cd); auto.
  intros s' rhs. apply HQ.
Qed.

Lemma appending_or canAssign : appending (or_ pp canAssign).
Proof.
  intros rest cd s Q C HQ. apply (runs_or_coded canAssign rest cd); auto.
  intros s' rhs. apply HQ.
Qed.

Hint Resolve appending_and appending_or : appending.

Lemma appending_callArguments fuel :
  forall argCount, appending (callArguments pp fuel argCount).
Proof.
  induction fuel as [|fuel IH]; intros argCount; simpl; unfold expression;
    appending_auto.
Qed.
Hint Resolve appending_callArguments : appending.

Lemma appending_callParseFn fuel fn canAssign :
  appending (callParseFn pp fuel fn canAssign).
Proof.
  unfold callParseFn, binary, boolean, call, grouping, null_, number,
    string_, unary, variable, expression. appending_auto.
Qed.
Hint Resolve appending_callParseFn : appending.

Lemma appending_infixLoop fuel :
  forall precedence canAssign,
    appending (infixLoop pp fuel precedence canAssign).
Proof.
  induction fuel as [|fuel IH]; intros precedence canAssign; simpl;
    appending_auto.
Qed.
Hint Resolve appending_infixLoop : appending.

Lemma appending_parsePrecedenceBody fuel precedence :
  appending (parsePrecedenceBody pp fuel precedence).
Proof. unfold parsePrecedenceBody. appending_auto. Qed.

End CodedExpressions.

Section CodedParser.
Context {ops : OpCodes}.

Lemma appending_parsePrecedence fuel :
  forall precedence, appending (parsePrecedence fuel precedence).
Proof.
  induction fuel as [|fuel IH]; intros precedence; simpl.
  - apply appending_outOfFuel.
  - apply appending_parsePrecedenceBody. exact IH.
Qed.

End CodedParser.
#[export] Hint Resolve appending_parsePrecedence : appending.


(** Lists in normal form: appended to the right, with their known heads. *)
Ltac assoc := repeat (progress (rewrite <- ?app_assoc; cbn [app])).

Ltac lengths :=
  unfold operandBytes;
  repeat (progress (rewrite ?length_app; cbn [Datatypes.length app]));
  lia.

Lemma coded_eq rest cd cd' s : coded rest cd s -> cd = cd' -> coded rest cd' s.
Proof. now intros C <-. Qed.

(** A step of a run that only adds code, with names for what it yields. *)
Tactic Notation "appended" constr(C) "as" ident(s1) ident(more) ident(C1) :=
  lazymatch goal with
  | |- runs _ _ (bind _ _) _ _ => apply runs_bind
  | _ => idtac
  end;
  match type of C with
  | coded ?rest ?cd ?s =>
      apply (runs_appending _ rest cd s);
      [solve [appending_auto]|exact C|intros ? s1 more C1]
  end.

Section CodedStatements.
Context {ops : OpCodes}.

Lemma appending_expressionOf fuel :
  appending (expression (parsePrecedence fuel)).
Proof. unfold expression. auto with appending. Qed.

Hint Resolve appending_expressionOf : appending.

Lemma appending_returnStatement fuel : appending (returnStatement fuel).
Proof. unfold returnStatement. appending_auto. Qed.

Lemma appending_varStatement fuel : appending (varStatement fuel).
Proof. unfold varStatement. appending_auto. Qed.

Lemma appending_parameters fuel :
  forall paramConstant, appending (parameters fuel paramConstant).
Proof.
  induction fuel as [|fuel IH]; intros paramConstant; simpl;
    [apply appending_outOfFuel|].
  apply appending_bind; [auto with appending|]. intros [param constant].
  apply appending_bind; [auto with appending|]. intros _.
  intros rest cd s Q C HQ. apply runs_bind.
  apply (runs_getCompiler_coded rest cd); [exact C|]. intros c Hc Hcd.
  cbv zeta. apply runs_bind.
  apply (runs_setFunction_coded _ rest cd); [exact C|].
  simpl. rewrite Hcd. intros s1 C1.
  apply (runs_appending _ rest cd s1); [|exact C1|exact HQ].
  appending_auto.
Qed.

Hint Resolve appending_returnStatement appending_varStatement
  appending_parameters : appending.

Section Body.
Variable st : M unit.
Hypothesis st_appending : appending st.

Hint Resolve st_appending : appending.

Lemma appending_blockLoop fuel : appending (blockLoop st fuel).
Proof. induction fuel as [|fuel IH]; simpl; appending_auto. Qed.
Hint Resolve appending_blockLoop : appending.

Lemma appending_block fuel : appending (block st fuel).
Proof. unfold block. appending_auto. Qed.
Hint Resolve appending_block : appending.

(** The code of [if]: the first jump skips the [OP_POP], the then-branch
    and the second jump; the second jump skips the [OP_POP] and the
    else-branch.  The locals of the branches are popped at the end. *)
Lemma runs_if_coded fuel rest cd s (Q : unit -> State -> Prop) :
  coded rest cd s ->
  (forall s' cond thn els k,
      coded rest
            (cd ++ cond
                ++ OP_JUMP_IF_FALSE
                :: operandBytes (Z.of_nat (List.length thn) + 4)
                ++ OP_POP :: thn
                ++ OP_JUMP :: operandBytes (Z.of_nat (List.length els) + 1)
                ++ OP_POP :: els ++ repeat OP_POP k) s' ->
      Q tt s') ->
  runs True True (ifStatement st fuel) Q s.
Proof.
  intros C HQ. unfold ifStatement.
  appended C as s1 m1 C1. appended C1 as s2 m2 C2.
  appended C2 as s3 m3 C3. appended C3 as s4 m4 C4.
  apply (coded_eq _ _ (cd ++ m1 ++ m2 ++ m3 ++ m4)) in C4;
    [|now rewrite <- !app_assoc].
  set (cond := m1 ++ m2 ++ m3 ++ m4) in *.
  set (X := cd ++ cond) in *.
  apply runs_bind. apply (runs_emitJump_coded _ rest X s4 _ C4).
  intros s5 C5.
  apply runs_bind. apply (runs_emitByte_coded _ rest _ s5 _ C5).
  intros s6 C6.
  appended C6 as s7 thn C7.
  apply runs_bind. apply (runs_emitJump_coded _ rest _ s7 _ C7).
  intros s8 C8.
  apply runs_bind.
  apply (runs_patch_coded X OP_JUMP_IF_FALSE
           (OP_POP :: thn ++ [OP_JUMP; 255; 255]) _ rest _ s8 _ C8);
    [assoc; reflexivity|reflexivity|].
  intros s9 C9.
  replace (Z.of_nat (List.length (OP_POP :: thn ++ [OP_JUMP; 255; 255])))
    with (Z.of_nat (List.length thn) + 4) in C9
    by lengths.
  apply runs_bind. apply (runs_emitByte_coded _ rest _ s9 _ C9).
  intros s10 C10.
  appended C10 as s11 m5 C11.
  apply runs_bind.
  match goal with
  | |- runs _ _ (if ?b then _ else _) _ _ =>
      apply (runs_weaken True True _
               (fun _ s' => exists m6,
                    coded rest
                      (X ++ OP_JUMP_IF_FALSE
                         :: operandBytes (Z.of_nat (List.length thn) + 4)
                         ++ OP_POP :: thn
                         ++ OP_JUMP :: 255 :: 255 :: OP_POP :: m5 ++ m6) s'));
      [destruct b|]
  end.
  - apply (runs_appending _ rest _ s11 _ st_appending C11).
    intros ? s12 m6 C12. exists m6.
    apply (coded_eq _ _ _ _ C12). assoc. reflexivity.
  - apply runs_ret. exists [].
    apply (coded_eq _ _ _ _ C11). rewrite app_nil_r. assoc. reflexivity.
  - intros u s12 (m6 & C12).
    apply runs_bind.
    apply (runs_patch_coded
             (X ++ OP_JUMP_IF_FALSE
                :: operandBytes (Z.of_nat (List.length thn) + 4)
                ++ OP_POP :: thn)
             OP_JUMP (OP_POP :: m5 ++ m6) _ rest _ s12 _ C12).
    + assoc. reflexivity.
    + lengths.
    + intros s13 C13.
      apply (runs_endScope_coded rest _ s13 _ C13). intros s14 k C14.
      apply (HQ s14 cond thn (m5 ++ m6) k).
      apply (coded_eq _ _ _ _ C14). subst X.
      replace (Z.of_nat (List.length (OP_POP :: m5 ++ m6)))
        with (Z.of_nat (List.length (m5 ++ m6)) + 1) by (simpl; lia).
      assoc. reflexivity.
Qed.

(** The code of [while]: the exit jump skips the [OP_POP], the body and
    the [OP_LOOP]; the loop goes back to the start of the condition. *)
Lemma runs_while_coded fuel rest cd s (Q : unit -> State -> Prop) :
  coded rest cd s ->
  (forall s' cond body k,
      coded rest
            (cd ++ cond
                ++ OP_JUMP_IF_FALSE
                :: operandBytes (Z.of_nat (List.length body) + 4)
                ++ OP_POP :: body
                ++ OP_LOOP
                :: operandBytes (Z.of_nat (List.length cond)
                                 + Z.of_nat (List.length body) + 7)
                ++ repeat OP_POP k) s' ->
      Q tt s') ->
  runs True True (whileStatement st fuel) Q s.
Proof.
  intros C HQ. unfold whileStatement.
  apply runs_bind. apply (runs_getCompiler_coded rest cd); [exact C|].
  intros c Hc Hcd. cbv zeta. unfold codeCount. rewrite Hcd.
  appended C as s1 m1 C1. appended C1 as s2 m2 C2.
  appended C2 as s3 m3 C3. appended C3 as s4 m4 C4.
  apply (coded_eq _ _ (cd ++ m1 ++ m2 ++ m3 ++ m4)) in C4;
    [|now rewrite <- !app_assoc].
  set (cond := m1 ++ m2 ++ m3 ++ m4) in *.
  set (X := cd ++ cond) in *.
  apply runs_bind. apply (runs_emitJump_coded _ rest X s4 _ C4).
  intros s5 C5.
  apply runs_bind. apply (runs_emitByte_coded _ rest _ s5 _ C5).
  intros s6 C6.
  appended C6 as s7 body C7.
  apply runs_bind. apply (runs_emitLoop_coded _ rest _ s7 _ C7).
  intros s8 C8.
  replace (Z.of_nat
             (List.length (((X ++ [OP_JUMP_IF_FALSE; 255; 255]) ++ [OP_POP])
                             ++ body))
           + 1 - Z.of_nat (List.length cd) + 2)
    with (Z.of_nat (List.length cond) + Z.of_nat (List.length body) + 7)
    in C8
    by (subst X; lengths).
  apply runs_bind.
  apply (runs_patch_coded X OP_JUMP_IF_FALSE
           (OP_POP :: body
              ++ OP_LOOP
              :: operandBytes (Z.of_nat (List.length cond)
                               + Z.of_nat (List.length body) + 7))
           _ rest _ s8 _ C8);
    [assoc; reflexivity|reflexivity|].
  intros s9 C9.
  apply (runs_endScope_coded rest _ s9 _ C9). intros s10 k C10.
  apply (HQ s10 cond body k).
  apply (coded_eq _ _ _ _ C10). subst X.
  replace (Z.of_nat
             (List.length
                (OP_POP :: body
                   ++ OP_LOOP
                   :: operandBytes (Z.of_nat (List.length cond)
                                    + Z.of_nat (List.length body) + 7))))
    with (Z.of_nat (List.length body) + 4)
    by lengths.
  assoc. reflexivity.
Qed.

Lemma appending_ifStatement fuel : appending (ifStatement st fuel).
Proof.
  intros rest cd s Q C HQ. apply (runs_if_coded fuel rest cd); auto.
  intros s' cond thn els k. apply HQ.
Qed.

Lemma appending_whileStatement fuel : appending (whileStatement st fuel).
Proof.
  intros rest cd s Q C HQ. apply (runs_while_coded fuel rest cd); auto.
  intros s' cond body k. apply HQ.
Qed.

(** A function declaration adds to the enclosing function the code that
    loads the new function, and defines the name. *)
Lemma appending_funStatement fuel : appending (funStatement st fuel).
Proof.
  intros rest cd s Q C HQ. unfold funStatement.
  appended C as s1 m1 C1. run_pair.
  apply runs_bind. unfold runs at 1, beginCompiler at 1.
  destruct C1 as (c1 & Hc1 & Hcd1).
  assert (C2 : coded (c1 :: rest) []
                 (mkState (scanner s1) (parser s1)
                          (mkCompiler newFunction [] (-1) :: compiler s1)
                          (vmStack s1) (stderr s1))).
  { eexists. split; [simpl; rewrite Hc1; reflexivity|reflexivity]. }
  appended C2 as s2a i1 C2a. appended C2a as s2b i2 C2b.
  apply runs_bind, runs_check.
  appended C2b as s2c i3 C2c. appended C2c as s2d i4 C2d.
  appended C2d as s2e i5 C2e. appended C2e as s3 i6 C3.
  destruct C3 as (c3 & Hc3 & _).
  apply runs_bind.
  unfold runs at 1. rewrite (endCompiler_Ok s3 c3 (c1 :: rest) Hc3).
  assert (C4 : coded rest (cd ++ m1) (withFrames s3 (c1 :: rest)))
    by (exists c1; auto).
  apply (runs_appending _ rest (cd ++ m1) _ Q);
    [appending_auto|exact C4|].
  intros ? s5 m5 C5. rewrite <- app_assoc in C5. eauto.
Qed.

Hint Resolve appending_ifStatement appending_whileStatement
  appending_funStatement : appending.

Lemma appending_statementBody fuel : appending (statementBody st fuel).
Proof. unfold statementBody. appending_auto. Qed.

End Body.

Lemma appending_statement fuel : appending (statement fuel).
Proof.
  induction fuel as [|fuel IH]; simpl.
  - apply appending_outOfFuel.
  - apply appending_statementBody. exact IH.
Qed.

End CodedStatements.


Section Layout.
Context {ops : OpCodes}.

(** X16: Code is only added at the end.  When a statement or an expression
    returns, the code that was in the current function before is still
    there, unchanged, followed by the code that was added: the jumps that
    are patched are jumps that were emitted in between.  The enclosing
    frames are as they were. *)
Theorem code_is_append_only fuel :
  (forall s s' c rest,
      statement fuel s = Ok tt s' ->
      compiler s = c :: rest ->
      exists c' more,
        compiler s' = c' :: rest /\
        code (function c') = code (function c) ++ more) /\
  (forall precedence s s' c rest,
      parsePrecedence fuel precedence s = Ok tt s' ->
      compiler s = c :: rest ->
      exists c' more,
        compiler s' = c' :: rest /\
        code (function c') = code (function c) ++ more).
Proof.
  split.
  - intros s s' c rest E Hc.
    pose proof (appending_statement fuel rest (code (function c)) s
                  (fun _ s' =>
                     exists c' more,
                       compiler s' = c' :: rest /\
                       code (function c') = code (function c) ++ more)) as H.
    unfold runs in H. rewrite E in H. apply H; [exists c; auto|].
    intros _ s1 more (c1 & Hc1 & Hcd1). exists c1, more. auto.
  - intros precedence s s' c rest E Hc.
    pose proof (appending_parsePrecedence fuel precedence rest
                  (code (function c)) s
                  (fun _ s' =>
                     exists c' more,
                       compiler s' = c' :: rest /\
                       code (function c') = code (function c) ++ more)) as H.
    unfold runs in H. rewrite E in H. apply H; [exists c; auto|].
    intros _ s1 more (c1 & Hc1 & Hcd1). exists c1, more. auto.
Qed.




End Layout.

(** * The line table *)

Lemma ascending_app_one l x :
  ascending (l ++ [x]) <-> ascending l /\ Forall (fun y => y <= x) l.
Proof.
  induction l as [|a l IH]; simpl.
  - split; [intros _; split; [exact I|constructor]|intros _; split; auto].
  - rewrite IH. rewrite Forall_app. split.
    + intros ((Ha & Hx) & Hl & Hlx). repeat split; auto.
      constructor; [|exact Hlx]. now inversion Hx.
    + intros ((Ha & Hl) & Hx). inversion Hx; subst. repeat split; auto.
Qed.

Lemma ascending_later l x y :
  ascending (l ++ [x]) -> x <= y -> ascending (l ++ [y]).
Proof.
  rewrite !ascending_app_one. intros [Hl Hx] Hxy. split; [exact Hl|].
  eapply Forall_impl; [|exact Hx]. simpl. intros. lia.
Qed.

Lemma ascending_again l x :
  ascending (l ++ [x]) -> ascending ((l ++ [x]) ++ [x]).
Proof.
  intros H. apply ascending_app_one. split; [exact H|].
  apply ascending_app_one in H as [_ Hx].
  apply Forall_app. split; [exact Hx|]. constructor; [lia|constructor].
Qed.

Lemma ascending_init l x : ascending (l ++ [x]) -> ascending l.
Proof. intros H. now apply ascending_app_one in H. Qed.

Lemma linesUpTo_later ln ln' f : linesUpTo ln f -> ln <= ln' -> linesUpTo ln' f.
Proof.
  intros [Hl Hk] Hle. split; [|exact Hk]. now apply (ascending_later _ ln).
Qed.

Lemma linesUpTo_same ln f f' :
  linesUpTo ln f -> codeLines f' = codeLines f -> constants f' = constants f ->
  linesUpTo ln f'.
Proof. unfold linesUpTo. now intros H -> ->. Qed.

Lemma linesUpTo_emitted ln f byte :
  linesUpTo ln f -> linesUpTo ln (emitted f byte ln).
Proof.
  intros [Hl Hk]. split; [|exact Hk]. simpl. now apply ascending_again.
Qed.

Lemma linesUpTo_done ln f :
  linesUpTo ln f -> sound (fun g => ascending (codeLines g)) (ObjFun f).
Proof.
  intros [Hl Hk]. apply sound_function. split; [|exact Hk].
  now apply ascending_init in Hl.
Qed.

Lemma runs_keepsLines {A} (m : M A) s (Q : A -> State -> Prop) :
  keepsLines m -> linesOK s -> (forall a s', linesOK s' -> Q a s') ->
  runs True True m Q s.
Proof. intros Hm. apply Hm. Qed.

Lemma keepsLines_ret {A} (a : A) : keepsLines (ret a).
Proof. intros s Q L HQ. apply runs_ret. auto. Qed.

Lemma keepsLines_bind {A B} (m : M A) (k : A -> M B) :
  keepsLines m -> (forall a, keepsLines (k a)) -> keepsLines (bind m k).
Proof.
  intros Hm Hk s Q L HQ. apply runs_bind.
  apply (runs_keepsLines m s); auto.
  intros a s1 L1. apply (runs_keepsLines (k a) s1); auto.
Qed.

Lemma keepsLines_undefined {A} : keepsLines (@undefined A).
Proof. intros s Q L HQ. exact I. Qed.

Lemma keepsLines_outOfFuel {A} : keepsLines (@outOfFuel A).
Proof. intros s Q L HQ. exact I. Qed.

Lemma keepsLines_getParser : keepsLines getParser.
Proof. intros s Q L HQ. apply runs_getParser. auto. Qed.

Lemma keepsLines_getCompiler : keepsLines getCompiler.
Proof.
  intros s Q L HQ. apply runs_partial. intros c s' E.
  apply getCompiler_inv in E as (-> & _). auto.
Qed.

Lemma keepsLines_errorAt ln message : keepsLines (errorAt ln message).
Proof. intros s Q L HQ. apply HQ. exact L. Qed.

(** [advance] moves along the token lines. *)
Lemma keepsLines_advance : keepsLines advance.
Proof.
  intros s Q [Ht Hf] HQ.
  unfold runs, advance, bind, getParser, scanToken, setParser.
  unfold tokenLines in Ht.
  assert (Hle : line (previous (parser s)) <= line (current (parser s))).
  { destruct Ht as [Ht _]. now inversion Ht. }
  destruct (pending (scanner s)) as [|t ts] eqn:E; apply HQ; split;
    unfold tokenLines; simpl; try rewrite E; simpl.
  - destruct Ht as (_ & Hc & _). simpl in Hc.
    assert (line (current (parser s)) <= eofLine (scanner s))
      by now inversion Hc.
    repeat split; repeat constructor; lia.
  - eapply Forall_impl; [|exact Hf]. simpl. intros c Hc.
    now apply (linesUpTo_later (line (previous (parser s)))).
  - apply Ht.
  - eapply Forall_impl; [|exact Hf]. simpl. intros c Hc.
    now apply (linesUpTo_later (line (previous (parser s)))).
Qed.

Create HintDb lines.
#[export] Hint Resolve keepsLines_ret keepsLines_undefined
  keepsLines_outOfFuel keepsLines_getParser keepsLines_getCompiler
  keepsLines_errorAt keepsLines_advance : lines.

Ltac keepsLines_auto :=
  repeat first
    [ solve [auto with lines]
    | match goal with
      | |- keepsLines (bind _ _) => apply keepsLines_bind; [|intro]
      | |- keepsLines (if ?b then _ else _) => destruct b
      | |- keepsLines (let _ := _ in _) => cbv zeta
      | |- keepsLines (let '(_, _) := ?r in _) => destruct r
      | |- keepsLines (match ?x with _ => _ end) => destruct x
      end ].

Lemma keepsLines_tokens t message :
  keepsLines (error message) /\ keepsLines (check t) /\
  keepsLines (consume t message) /\ keepsLines (match_ t).
Proof.
  unfold match_, consume, check, error. repeat split; keepsLines_auto.
Qed.

Lemma keepsLines_error message : keepsLines (error message).
Proof. apply (keepsLines_tokens TOKEN_EOF). Qed.

Lemma keepsLines_check t : keepsLines (check t).
Proof. apply (keepsLines_tokens t EmptyString). Qed.

Lemma keepsLines_consume t message : keepsLines (consume t message).
Proof. apply keepsLines_tokens. Qed.

Lemma keepsLines_match t : keepsLines (match_ t).
Proof. apply (keepsLines_tokens t EmptyString). Qed.

#[export] Hint Resolve keepsLines_error keepsLines_check keepsLines_consume
  keepsLines_match : lines.

Lemma keepsLines_declareScan ls d t i : keepsLines (declareScan ls i d t).
Proof. induction i as [|i IH]; simpl; keepsLines_auto. Qed.
#[export] Hint Resolve keepsLines_declareScan : lines.

(** ** The emitter and the line table *)

Section LinesEmitter.
Context {ops : OpCodes}.

Lemma linesOK_top s c rest :
  linesOK s -> compiler s = c :: rest ->
  linesUpTo (line (previous (parser s))) (function c).
Proof.
  intros [_ Hf] E. rewrite E in Hf. now inversion Hf.
Qed.

(** A change of the current frame. *)
Lemma linesOK_frame s c c' rest :
  linesOK s -> compiler s = c :: rest ->
  linesUpTo (line (previous (parser s))) (function c') ->
  linesOK (withFrames s (c' :: rest)).
Proof.
  intros [Ht Hf] E Hc'. split; [exact Ht|]. simpl.
  rewrite E in Hf. inversion Hf; subst. constructor; assumption.
Qed.

Lemma runs_getCompiler_lines s (Q : Compiler -> State -> Prop) :
  (forall c rest, compiler s = c :: rest -> Q c s) ->
  runs True True getCompiler Q s.
Proof.
  intros HQ. apply runs_partial. intros c s' E.
  apply getCompiler_inv in E as (-> & rest & E). eauto.
Qed.

Lemma runs_setCompiler_lines c' s (Q : unit -> State -> Prop) :
  linesOK s ->
  linesUpTo (line (previous (parser s))) (function c') ->
  (forall s', linesOK s' -> Q tt s') ->
  runs True True (setCompiler c') Q s.
Proof.
  intros L Hc' HQ. unfold runs, setCompiler.
  destruct (compiler s) as [|c rest] eqn:E; [exact I|].
  apply HQ. exact (linesOK_frame s c c' rest L E Hc').
Qed.

Lemma runs_setFunction_lines f s (Q : unit -> State -> Prop) :
  linesOK s ->
  linesUpTo (line (previous (parser s))) f ->
  (forall s', linesOK s' -> Q tt s') ->
  runs True True (setFunction f) Q s.
Proof.
  intros L Hf HQ. unfold setFunction. apply runs_bind.
  apply runs_getCompiler_lines. intros c rest E.
  apply runs_setCompiler_lines; auto.
Qed.

Lemma keepsLines_emitByte byte : keepsLines (emitByte byte).
Proof.
  intros s Q L HQ. unfold emitByte. apply runs_bind.
  apply runs_getCompiler_lines. intros c rest E.
  apply runs_bind, runs_getParser. cbv zeta.
  apply runs_setFunction_lines; [exact L| |auto].
  apply (linesUpTo_emitted _ (function c) byte).
  exact (linesOK_top s c rest L E).
Qed.

Lemma keepsLines_addConstant v :
  sound (fun g => ascending (codeLines g)) v -> keepsLines (addConstant v).
Proof.
  intros Hv s Q L HQ. unfold runs.
  destruct (compiler s) as [|c rest] eqn:E.
  - unfold addConstant, bind, push, getCompiler. simpl. rewrite E. exact I.
  - rewrite (addConstant_Ok s c rest v E). apply HQ.
    apply (linesOK_frame s c _ rest L E).
    destruct (linesOK_top s c rest L E) as [Hl Hk].
    split; [exact Hl|]. simpl. apply Forall_app. split; [exact Hk|].
    constructor; [exact Hv|constructor].
Qed.

Lemma keepsLines_storeCode offset byte : keepsLines (storeCode offset byte).
Proof.
  intros s Q L HQ. unfold storeCode. apply runs_bind.
  apply runs_getCompiler_lines. intros c rest E. cbv zeta.
  destruct (_ && _); [|exact I].
  apply runs_setFunction_lines; [exact L| |auto].
  apply (linesUpTo_same _ (function c)); auto.
  exact (linesOK_top s c rest L E).
Qed.

Lemma keepsLines_beginCompiler : keepsLines beginCompiler.
Proof.
  intros s Q [Ht Hf] HQ. apply HQ. split; [exact Ht|]. simpl.
  constructor; [|exact Hf]. split; simpl; repeat constructor.
Qed.

Lemma keepsLines_beginScope : keepsLines beginScope.
Proof.
  intros s Q L HQ. unfold beginScope. apply runs_bind.
  apply runs_getCompiler_lines. intros c rest E.
  apply runs_setCompiler_lines; [exact L| |auto].
  exact (linesOK_top s c rest L E).
Qed.

Hint Resolve keepsLines_emitByte keepsLines_storeCode
  keepsLines_beginCompiler keepsLines_beginScope : lines.

Lemma keepsLines_endScopeLoop n : keepsLines (endScopeLoop n).
Proof.
  induction n as [|n IH]; simpl; [apply keepsLines_ret|].
  intros s Q L HQ. apply runs_bind.
  apply runs_getCompiler_lines. intros c rest E.
  destruct (nth_error _ _); [|apply runs_ret; auto].
  destruct (_ && _); [|apply runs_ret; auto].
  apply runs_bind. apply (runs_keepsLines _ s); auto with lines.
  intros _ s1 L1. apply runs_bind.
  apply runs_getCompiler_lines. intros c1 rest1 E1. apply runs_bind.
  apply runs_setCompiler_lines;
    [exact L1|exact (linesOK_top s1 c1 rest1 L1 E1)|].
  intros s2 L2. apply (runs_keepsLines _ s2); auto.
Qed.

Lemma keepsLines_endScope : keepsLines endScope.
Proof.
  intros s Q L HQ. unfold endScope. apply runs_bind.
  apply runs_getCompiler_lines. intros c rest E. apply runs_bind.
  apply runs_setCompiler_lines; [exact L|exact (linesOK_top s c rest L E)|].
  intros s1 L1. apply (runs_keepsLines _ s1); auto.
  apply keepsLines_endScopeLoop.
Qed.

(** [endCompiler] gives back a function whose line table is ascending. *)
Lemma runs_endCompiler_lines s (Q : option ObjFunction -> State -> Prop) :
  linesOK s ->
  (forall r s',
      linesOK s' ->
      sound (fun g => ascending (codeLines g)) (functionValue r) ->
      Q r s') ->
  runs True True endCompiler Q s.
Proof.
  intros L HQ. unfold runs.
  destruct (compiler s) as [|c rest] eqn:E.
  - unfold endCompiler, emitBytes, emitByte, bind, getCompiler.
    rewrite E. exact I.
  - rewrite (endCompiler_Ok s c rest E). apply HQ.
    + destruct L as [Ht Hf]. split; [exact Ht|]. simpl.
      rewrite E in Hf. now inversion Hf.
    + destruct (hadError (parser s)); simpl.
      * intros g [].
      * apply (linesUpTo_done (line (previous (parser s)))).
        apply linesUpTo_emitted, linesUpTo_emitted.
        exact (linesOK_top s c rest L E).
Qed.

Lemma keepsLines_atom v :
  functionsOfValue v = [] -> keepsLines (addConstant v).
Proof.
  intros E. apply keepsLines_addConstant. intros g Hg. rewrite E in Hg.
  destruct Hg.
Qed.

Hint Resolve keepsLines_endScope : lines.
Hint Extern 1 (keepsLines (addConstant _)) =>
  (apply keepsLines_atom; reflexivity) : lines.

Ltac unfold_lines :=
  unfold statementBody, ifStatement, whileStatement,
    returnStatement, varStatement, block, parsePrecedenceBody, callParseFn,
    and_, binary, boolean, call, grouping, null_, number, or_, string_,
    unary, variable, expression, parseVariable, resolveLocal,
    emitConstant, nameConstant, patchJump, emitJump, emitLoop, emitBytes.

Lemma keepsLines_emitters byte1 byte2 offset message constant :
  keepsLines (emitBytes byte1 byte2) /\ keepsLines (emitJump byte1) /\
  keepsLines (emitLoop offset) /\ keepsLines (patchJump offset) /\
  keepsLines nameConstant /\ keepsLines (parseVariable message constant).
Proof. unfold_lines. repeat split; keepsLines_auto. Qed.

Lemma keepsLines_declareVariable t constant :
  keepsLines (declareVariable t constant).
Proof.
  intros s Q L HQ. unfold declareVariable. apply runs_bind.
  apply runs_getCompiler_lines. intros c rest E.
  destruct (_ =? _).
  - apply (runs_keepsLines _ s); auto.
    apply (keepsLines_emitters _ _ 0 EmptyString 0).
  - apply runs_bind. apply (runs_keepsLines _ s); auto with lines.
    intros _ s1 L1. apply runs_bind.
    apply runs_getCompiler_lines. intros c1 rest1 E1.
    destruct (_ <? _); [|exact I].
    apply runs_setCompiler_lines; [exact L1| |auto].
    exact (linesOK_top s1 c1 rest1 L1 E1).
Qed.

Hint Resolve keepsLines_declareVariable : lines.

Section Expressions.
Variable pp : Precedence -> M unit.
Hypothesis keepsLines_pp : forall precedence, keepsLines (pp precedence).

Hint Resolve keepsLines_pp : lines.

Lemma keepsLines_callArguments fuel :
  forall argCount, keepsLines (callArguments pp fuel argCount).
Proof.
  induction fuel as [|fuel IH]; intros argCount; simpl; unfold_lines;
    keepsLines_auto.
Qed.
Hint Resolve keepsLines_callArguments : lines.

Lemma keepsLines_callParseFn fuel fn canAssign :
  keepsLines (callParseFn pp fuel fn canAssign).
Proof. unfold_lines. keepsLines_auto. Qed.
Hint Resolve keepsLines_callParseFn : lines.

Lemma keepsLines_infixLoop fuel :
  forall precedence canAssign,
    keepsLines (infixLoop pp fuel precedence canAssign).
Proof.
  induction fuel as [|fuel IH]; intros precedence canAssign; simpl;
    keepsLines_auto.
Qed.
Hint Resolve keepsLines_infixLoop : lines.

Lemma keepsLines_parsePrecedenceBody fuel precedence :
  keepsLines (parsePrecedenceBody pp fuel precedence).
Proof. unfold parsePrecedenceBody. keepsLines_auto. Qed.

End Expressions.

Lemma keepsLines_parsePrecedence fuel :
  forall precedence, keepsLines (parsePrecedence fuel precedence).
Proof.
  induction fuel as [|fuel IH]; intros precedence; simpl.
  - apply keepsLines_outOfFuel.
  - apply keepsLines_parsePrecedenceBody. exact IH.
Qed.
Hint Resolve keepsLines_parsePrecedence : lines.

Lemma keepsLines_parameters fuel :
  forall paramConstant, keepsLines (parameters fuel paramConstant).
Proof.
  induction fuel as [|fuel IH]; intros paramConstant; simpl;
    [apply keepsLines_outOfFuel|].
  apply keepsLines_bind; [apply (keepsLines_emitters 0 0 0)|].
  intros [param constant].
  apply keepsLines_bind; [auto with lines|]. intros _.
  intros s Q L HQ. apply runs_bind.
  apply runs_getCompiler_lines. intros c rest E. cbv zeta.
  apply runs_bind.
  apply runs_setFunction_lines;
    [exact L
    |apply (linesUpTo_same _ (function c)); auto;
     exact (linesOK_top s c rest L E)|].
  intros s1 L1. apply (runs_keepsLines _ s1); auto. keepsLines_auto.
Qed.
Hint Resolve keepsLines_parameters : lines.

Section Statements.
Variable st : M unit.
Hypothesis keepsLines_st : keepsLines st.

Hint Resolve keepsLines_st : lines.

Lemma keepsLines_blockLoop fuel : keepsLines (blockLoop st fuel).
Proof. induction fuel as [|fuel IH]; simpl; keepsLines_auto. Qed.
Hint Resolve keepsLines_blockLoop : lines.

Lemma keepsLines_funStatement fuel : keepsLines (funStatement st fuel).
Proof.
  unfold funStatement.
  apply keepsLines_bind; [apply (keepsLines_emitters 0 0 0)|].
  intros [tok nameConstant].
  do 8 (apply keepsLines_bind; [unfold_lines; keepsLines_auto|intro]).
  intros s Q L HQ. apply runs_bind.
  apply runs_endCompiler_lines; [exact L|]. intros r s1 L1 Hr.
  apply runs_bind. unfold emitConstant. apply runs_bind.
  apply (runs_keepsLines _ s1 _ (keepsLines_addConstant _ Hr) L1).
  intros constant s2 L2.
  apply (runs_keepsLines _ s2); auto. unfold_lines. keepsLines_auto.
  intros _ s3 L3. apply (runs_keepsLines _ s3); auto with lines.
Qed.
Hint Resolve keepsLines_funStatement : lines.

Lemma keepsLines_statementBody fuel : keepsLines (statementBody st fuel).
Proof. unfold_lines. keepsLines_auto. Qed.

End Statements.

Lemma keepsLines_statement fuel : keepsLines (statement fuel).
Proof.
  induction fuel as [|fuel IH]; simpl.
  - apply keepsLines_outOfFuel.
  - apply keepsLines_statementBody. exact IH.
Qed.
Hint Resolve keepsLines_statement : lines.

Lemma keepsLines_compileLoop fuel : keepsLines (compileLoop fuel).
Proof. induction fuel as [|fuel IH]; simpl; keepsLines_auto. Qed.

(** X20: The line table is ascending.  If the scanner hands out the tokens
    in the order of their lines, the line of the EOF token being the last,
    then in every function [compile] returns, and in every function in its
    constant pools, the entries of [codeLines] never decrease.  The parser
    is assumed to start with a look-ahead token whose line is not after
    the first line, as it is when zero-initialised, and with no frame. *)
Theorem line_table_ascending fuel source s f s' :
  compile fuel source s = Ok (Some f) s' ->
  compiler s = [] ->
  ascending (line (current (parser s))
             :: map line (pending source) ++ [eofLine source]) ->
  forall g, In g (functionsOf f) -> ascending (codeLines g).
Proof.
  intros E Hc Ht.
  assert (H : runs True True (compile fuel source)
                   (fun r _ =>
                      sound (fun g => ascending (codeLines g))
                            (functionValue r)) s).
  { unfold compile.
    apply runs_bind. unfold runs at 1, initScanner at 1.
    apply runs_bind. unfold runs at 1, beginCompiler at 1.
    apply runs_bind, runs_getParser.
    apply runs_bind. unfold runs at 1, setParser at 1. simpl.
    apply runs_bind.
    unfold runs at 1, advance, bind, getParser, scanToken, setParser.
    simpl.
    match goal with
    | |- match ?r with _ => _ end =>
        assert (Hr : exists s2, r = Ok tt s2 /\ linesOK s2)
    end.
    { destruct (pending source) as [|t ts] eqn:Ep; eexists;
        (split; [reflexivity|]); split; unfold tokenLines; simpl;
        rewrite ?Hc, ?Ep; simpl.
      - simpl in Ht. destruct Ht as (Ha & _).
        assert (line (current (parser s)) <= eofLine source)
          by now inversion Ha.
        repeat split; repeat constructor; lia.
      - repeat constructor.
      - exact Ht.
      - repeat constructor. }
    destruct Hr as (s2 & -> & L2).
    apply runs_bind. apply (runs_keepsLines _ s2); auto with lines.
    intros atEof s3 L3. apply runs_bind.
    apply (runs_keepsLines _ s3); auto.
    { destruct (negb atEof); [apply keepsLines_compileLoop|].
      apply keepsLines_ret. }
    intros _ s4 L4. apply runs_endCompiler_lines; auto. }
  unfold runs in H. rewrite E in H. exact H.
Qed.

End LinesEmitter.

(** * NULL constants

    [funStatement] stores the function [endCompiler] returns in the constant
    pool, and [endCompiler] returns NULL after an error.  An error is never
    forgotten, so a function that [compile] returns has no such constant. *)

Lemma runs_keepsNullSafe {A} (m : M A) s (Q : A -> State -> Prop) :
  keepsNullSafe m -> nullSafe s -> (forall a s', nullSafe s' -> Q a s') ->
  runs True True m Q s.
Proof. intros Hm. apply Hm. Qed.

Lemma keepsNullSafe_ret {A} (a : A) : keepsNullSafe (ret a).
Proof. intros s Q N HQ. apply runs_ret. auto. Qed.

Lemma keepsNullSafe_bind {A B} (m : M A) (k : A -> M B) :
  keepsNullSafe m -> (forall a, keepsNullSafe (k a)) ->
  keepsNullSafe (bind m k).
Proof.
  intros Hm Hk s Q N HQ. apply runs_bind.
  apply (runs_keepsNullSafe m s); auto.
  intros a s1 N1. apply (runs_keepsNullSafe (k a) s1); auto.
Qed.

Lemma keepsNullSafe_undefined {A} : keepsNullSafe (@undefined A).
Proof. intros s Q N HQ. exact I. Qed.

Lemma keepsNullSafe_outOfFuel {A} : keepsNullSafe (@outOfFuel A).
Proof. intros s Q N HQ. exact I. Qed.

(** An operation of the token stream: it leaves the frames alone and does
    not forget an error. *)
Lemma keepsNullSafe_tokens {A} (m : M A) :
  framesUnchanged m -> tracks m -> keepsNullSafe m.
Proof.
  intros Hf Ht s Q N HQ. apply runs_partial. intros a s' E. apply HQ.
  destruct N as [N|N].
  - left. destruct (Ht s a s' E) as (_ & _ & _ & printed & _ & ->).
    now rewrite N.
  - right. unfold invariant. now rewrite (Hf s a s' E).
Qed.

Create HintDb nulls.
#[export] Hint Resolve keepsNullSafe_ret keepsNullSafe_undefined
  keepsNullSafe_outOfFuel : nulls.
#[export] Hint Extern 2 (keepsNullSafe _) =>
  apply keepsNullSafe_tokens;
  [solve [auto with frames]|solve [auto with tracks]] : nulls.

Ltac keepsNullSafe_auto :=
  repeat first
    [ solve [auto with nulls]
    | match goal with
      | |- keepsNullSafe (bind _ _) => apply keepsNullSafe_bind; [|intro]
      | |- keepsNullSafe (if ?b then _ else _) => destruct b
      | |- keepsNullSafe (let _ := _ in _) => cbv zeta
      | |- keepsNullSafe (let '(_, _) := ?r in _) => destruct r
      | |- keepsNullSafe (match ?x with _ => _ end) => destruct x
      end ].

Lemma keepsNullSafe_adapter t message :
  keepsNullSafe (error message) /\ keepsNullSafe (check t) /\
  keepsNullSafe (consume t message) /\ keepsNullSafe (match_ t).
Proof.
  unfold match_, consume, check, error. repeat split; keepsNullSafe_auto.
Qed.

Lemma keepsNullSafe_error message : keepsNullSafe (error message).
Proof. apply (keepsNullSafe_adapter TOKEN_EOF). Qed.

Lemma keepsNullSafe_check t : keepsNullSafe (check t).
Proof. apply (keepsNullSafe_adapter t EmptyString). Qed.

Lemma keepsNullSafe_consume t message : keepsNullSafe (consume t message).
Proof. apply keepsNullSafe_adapter. Qed.

Lemma keepsNullSafe_match t : keepsNullSafe (match_ t).
Proof. apply (keepsNullSafe_adapter t EmptyString). Qed.

#[export] Hint Resolve keepsNullSafe_error keepsNullSafe_check
  keepsNullSafe_consume keepsNullSafe_match : nulls.

Lemma keepsNullSafe_declareScan ls d t i :
  keepsNullSafe (declareScan ls i d t).
Proof. induction i as [|i IH]; simpl; keepsNullSafe_auto. Qed.
#[export] Hint Resolve keepsNullSafe_declareScan : nulls.

Lemma nullFree_sound f f' :
  constants f' = constants f ->
  sound nullFree (ObjFun f) -> sound nullFree (ObjFun f').
Proof.
  intros E H. apply sound_function in H as [Hf Hk].
  apply sound_function. unfold nullFree in *. rewrite E. auto.
Qed.

Section NullConstants.
Context {ops : OpCodes}.

(** A change of the current frame. *)
Lemma nullSafe_frame s c c' rest :
  nullSafe s -> compiler s = c :: rest ->
  (hadError (parser s) = false ->
   sound nullFree (ObjFun (function c)) ->
   sound nullFree (ObjFun (function c'))) ->
  nullSafe (withFrames s (c' :: rest)).
Proof.
  intros N E H. destruct (hadError (parser s)) eqn:Herr.
  - left. exact Herr.
  - right. destruct N as [N|N]; [congruence|].
    unfold invariant in *. simpl. rewrite E in N. inversion N; subst.
    constructor; auto.
Qed.

Lemma runs_setCompiler_null c' s (Q : unit -> State -> Prop) :
  nullSafe s ->
  (forall c rest, compiler s = c :: rest ->
     hadError (parser s) = false ->
     sound nullFree (ObjFun (function c)) ->
     sound nullFree (ObjFun (function c'))) ->
  (forall s', nullSafe s' -> Q tt s') ->
  runs True True (setCompiler c') Q s.
Proof.
  intros N H HQ. unfold runs, setCompiler.
  destruct (compiler s) as [|c rest] eqn:E; [exact I|].
  apply HQ. exact (nullSafe_frame s c c' rest N E (H c rest eq_refl)).
Qed.

(** Writing a function with the constants of the current one. *)
Lemma runs_setFunction_null f s (Q : unit -> State -> Prop) :
  nullSafe s ->
  (forall c rest, compiler s = c :: rest -> constants f = constants (function c)) ->
  (forall s', nullSafe s' -> Q tt s') ->
  runs True True (setFunction f) Q s.
Proof.
  intros N H HQ. unfold setFunction. apply runs_bind.
  apply runs_getCompiler_lines. intros c rest E.
  apply runs_setCompiler_null; auto.
  intros c0 rest0 E0 _. rewrite E in E0. injection E0 as <- <-.
  apply nullFree_sound. simpl. exact (H c rest E).
Qed.

Lemma keepsNullSafe_getCompiler : keepsNullSafe getCompiler.
Proof.
  intros s Q N HQ. apply runs_getCompiler_lines. intros c rest E. auto.
Qed.

Lemma keepsNullSafe_emitByte byte : keepsNullSafe (emitByte byte).
Proof.
  intros s Q N HQ. unfold emitByte. apply runs_bind.
  apply runs_getCompiler_lines. intros c rest E.
  apply runs_bind, runs_getParser. cbv zeta.
  apply runs_setFunction_null; auto.
  intros c0 rest0 E0. rewrite E in E0. now injection E0 as <- <-.
Qed.

Lemma keepsNullSafe_storeCode offset byte :
  keepsNullSafe (storeCode offset byte).
Proof.
  intros s Q N HQ. unfold storeCode. apply runs_bind.
  apply runs_getCompiler_lines. intros c rest E. cbv zeta.
  destruct (_ && _); [|exact I].
  apply runs_setFunction_null; auto.
  intros c0 rest0 E0. rewrite E in E0. now injection E0 as <- <-.
Qed.

(** A constant may be NULL only after an error. *)
Lemma runs_addConstant_null v s (Q : Z -> State -> Prop) :
  nullSafe s ->
  (hadError (parser s) = false -> v <> NullValue /\ sound nullFree v) ->
  (forall a s', nullSafe s' -> Q a s') ->
  runs True True (addConstant v) Q s.
Proof.
  intros N Hv HQ. unfold runs.
  destruct (compiler s) as [|c rest] eqn:E.
  - unfold addConstant, bind, push, getCompiler. simpl. rewrite E. exact I.
  - rewrite (addConstant_Ok s c rest v E). apply HQ.
    apply (nullSafe_frame s c _ rest N E). intros Herr Hc.
    destruct (Hv Herr) as [Hnull Hsound].
    apply sound_function in Hc as [Hf Hk].
    apply sound_function. simpl. split.
    + unfold nullFree in *. simpl. rewrite in_app_iff.
      intros [H|[H|[]]]; [auto|congruence].
    + apply Forall_app. split; [exact Hk|]. constructor; [exact Hsound|].
      constructor.
Qed.

Lemma keepsNullSafe_atom v :
  v <> NullValue -> functionsOfValue v = [] -> keepsNullSafe (addConstant v).
Proof.
  intros Hv E s Q N HQ. apply runs_addConstant_null; auto.
  intros _. split; [exact Hv|]. intros g Hg. rewrite E in Hg. destruct Hg.
Qed.

Lemma keepsNullSafe_beginCompiler : keepsNullSafe beginCompiler.
Proof.
  intros s Q N HQ. apply HQ. destruct N as [N|N]; [left; exact N|right].
  unfold invariant. simpl. constructor; [|exact N].
  apply sound_function. simpl. split; [intros []|constructor].
Qed.

Lemma keepsNullSafe_beginScope : keepsNullSafe beginScope.
Proof.
  intros s Q N HQ. unfold beginScope. apply runs_bind.
  apply runs_getCompiler_lines. intros c rest E.
  apply runs_setCompiler_null; auto.
  intros c0 rest0 E0 _. rewrite E in E0. now injection E0 as <- <-.
Qed.

Hint Resolve keepsNullSafe_getCompiler keepsNullSafe_emitByte
  keepsNullSafe_storeCode keepsNullSafe_beginCompiler
  keepsNullSafe_beginScope : nulls.
Hint Extern 1 (keepsNullSafe (addConstant _)) =>
  (apply keepsNullSafe_atom; [discriminate|reflexivity]) : nulls.

Lemma keepsNullSafe_endScopeLoop n : keepsNullSafe (endScopeLoop n).
Proof.
  induction n as [|n IH]; simpl; [apply keepsNullSafe_ret|].
  intros s Q N HQ. apply runs_bind.
  apply runs_getCompiler_lines. intros c rest E.
  destruct (nth_error _ _); [|apply runs_ret; auto].
  destruct (_ && _); [|apply runs_ret; auto].
  apply runs_bind. apply (runs_keepsNullSafe _ s); auto with nulls.
  intros _ s1 N1. apply runs_bind.
  apply runs_getCompiler_lines. intros c1 rest1 E1. apply runs_bind.
  apply runs_setCompiler_null; [exact N1| |].
  - intros c0 rest0 E0 _. rewrite E1 in E0. now injection E0 as <- <-.
  - intros s2 N2. apply (runs_keepsNullSafe _ s2); auto.
Qed.

Lemma keepsNullSafe_endScope : keepsNullSafe endScope.
Proof.
  intros s Q N HQ. unfold endScope. apply runs_bind.
  apply runs_getCompiler_lines. intros c rest E. apply runs_bind.
  apply runs_setCompiler_null; [exact N| |].
  - intros c0 rest0 E0 _. rewrite E in E0. now injection E0 as <- <-.
  - intros s1 N1. apply (runs_keepsNullSafe _ s1); auto.
    apply keepsNullSafe_endScopeLoop.
Qed.

(** [endCompiler] returns NULL only after an error, and otherwise a
    function without NULL constants. *)
Lemma runs_endCompiler_null s (Q : option ObjFunction -> State -> Prop) :
  nullSafe s ->
  (forall r s',
      nullSafe s' ->
      (hadError (parser s') = false ->
       functionValue r <> NullValue /\ sound nullFree (functionValue r)) ->
      Q r s') ->
  runs True True endCompiler Q s.
Proof.
  intros N HQ. unfold runs.
  destruct (compiler s) as [|c rest] eqn:E.
  - unfold endCompiler, emitBytes, emitByte, bind, getCompiler.
    rewrite E. exact I.
  - rewrite (endCompiler_Ok s c rest E). apply HQ.
    + destruct N as [N|N]; [left; exact N|right].
      unfold invariant in *. simpl. rewrite E in N. now inversion N.
    + simpl. intros Herr. rewrite Herr. simpl. split; [discriminate|].
      destruct N as [N|N]; [congruence|].
      unfold invariant in N. rewrite E in N. inversion N; subst.
      eapply nullFree_sound; [|eassumption]. reflexivity.
Qed.

Hint Resolve keepsNullSafe_endScope : nulls.

Ltac unfold_nulls :=
  unfold statementBody, ifStatement, whileStatement,
    returnStatement, varStatement, block, parsePrecedenceBody, callParseFn,
    and_, binary, boolean, call, grouping, null_, number, or_, string_,
    unary, variable, expression, parseVariable, resolveLocal,
    emitConstant, nameConstant, patchJump, emitJump, emitLoop, emitBytes,
    newString, newNumber, newBool.

Lemma keepsNullSafe_emitters byte1 byte2 offset message constant :
  keepsNullSafe (emitBytes byte1 byte2) /\ keepsNullSafe (emitJump byte1) /\
  keepsNullSafe (emitLoop offset) /\ keepsNullSafe (patchJump offset) /\
  keepsNullSafe nameConstant /\
  keepsNullSafe (parseVariable message constant).
Proof. unfold_nulls. repeat split; keepsNullSafe_auto. Qed.

Lemma keepsNullSafe_declareVariable t constant :
  keepsNullSafe (declareVariable t constant).
Proof.
  intros s Q N HQ. unfold declareVariable. apply runs_bind.
  apply runs_getCompiler_lines. intros c rest E.
  destruct (_ =? _).
  - apply (runs_keepsNullSafe _ s); auto.
    apply (keepsNullSafe_emitters _ _ 0 EmptyString 0).
  - apply runs_bind. apply (runs_keepsNullSafe _ s); auto with nulls.
    intros _ s1 N1. apply runs_bind.
    apply runs_getCompiler_lines. intros c1 rest1 E1.
    destruct (_ <? _); [|exact I].
    apply runs_setCompiler_null; [exact N1| |auto].
    intros c0 rest0 E0 _. rewrite E1 in E0. now injection E0 as <- <-.
Qed.

Hint Resolve keepsNullSafe_declareVariable : nulls.

Section Expressions.
Variable pp : Precedence -> M unit.
Hypothesis keepsNullSafe_pp : forall precedence, keepsNullSafe (pp precedence).

Hint Resolve keepsNullSafe_pp : nulls.

Lemma keepsNullSafe_callArguments fuel :
  forall argCount, keepsNullSafe (callArguments pp fuel argCount).
Proof.
  induction fuel as [|fuel IH]; intros argCount; simpl; unfold_nulls;
    keepsNullSafe_auto.
Qed.
Hint Resolve keepsNullSafe_callArguments : nulls.

Lemma keepsNullSafe_callParseFn fuel fn canAssign :
  keepsNullSafe (callParseFn pp fuel fn canAssign).
Proof. unfold_nulls. keepsNullSafe_auto. Qed.
Hint Resolve keepsNullSafe_callParseFn : nulls.

Lemma keepsNullSafe_infixLoop fuel :
  forall precedence canAssign,
    keepsNullSafe (infixLoop pp fuel precedence canAssign).
Proof.
  induction fuel as [|fuel IH]; intros precedence canAssign; simpl;
    keepsNullSafe_auto.
Qed.
Hint Resolve keepsNullSafe_infixLoop : nulls.

Lemma keepsNullSafe_parsePrecedenceBody fuel precedence :
  keepsNullSafe (parsePrecedenceBody pp fuel precedence).
Proof. unfold parsePrecedenceBody. keepsNullSafe_auto. Qed.

End Expressions.

Lemma keepsNullSafe_parsePrecedence fuel :
  forall precedence, keepsNullSafe (parsePrecedence fuel precedence).
Proof.
  induction fuel as [|fuel IH]; intros precedence; simpl.
  - apply keepsNullSafe_outOfFuel.
  - apply keepsNullSafe_parsePrecedenceBody. exact IH.
Qed.
Hint Resolve keepsNullSafe_parsePrecedence : nulls.

Lemma keepsNullSafe_parameters fuel :
  forall paramConstant, keepsNullSafe (parameters fuel paramConstant).
Proof.
  induction fuel as [|fuel IH]; intros paramConstant; simpl;
    [apply keepsNullSafe_outOfFuel|].
  apply keepsNullSafe_bind; [apply (keepsNullSafe_emitters 0 0 0)|].
  intros [param constant].
  apply keepsNullSafe_bind; [auto with nulls|]. intros _.
  intros s Q N HQ. apply runs_bind.
  apply runs_getCompiler_lines. intros c rest E. cbv zeta.
  apply runs_bind.
  apply runs_setFunction_null; [exact N| |].
  - intros c0 rest0 E0. rewrite E in E0. now injection E0 as <- <-.
  - intros s1 N1. apply (runs_keepsNullSafe _ s1); auto.
    keepsNullSafe_auto.
Qed.
Hint Resolve keepsNullSafe_parameters : nulls.

Section Statements.
Variable st : M unit.
Hypothesis keepsNullSafe_st : keepsNullSafe st.

Hint Resolve keepsNullSafe_st : nulls.

Lemma keepsNullSafe_blockLoop fuel : keepsNullSafe (blockLoop st fuel).
Proof. induction fuel as [|fuel IH]; simpl; keepsNullSafe_auto. Qed.
Hint Resolve keepsNullSafe_blockLoop : nulls.

(** The function constant of a declaration is NULL only after an error. *)
Lemma keepsNullSafe_funStatement fuel : keepsNullSafe (funStatement st fuel).
Proof.
  unfold funStatement.
  apply keepsNullSafe_bind; [apply (keepsNullSafe_emitters 0 0 0)|].
  intros [tok nameConstant].
  do 8 (apply keepsNullSafe_bind; [unfold_nulls; keepsNullSafe_auto|intro]).
  intros s Q N HQ. apply runs_bind.
  apply runs_endCompiler_null; [exact N|]. intros r s1 N1 Hr.
  apply runs_bind. unfold emitConstant. apply runs_bind.
  apply runs_addConstant_null; [exact N1|exact Hr|].
  intros constant s2 N2.
  apply (runs_keepsNullSafe _ s2); auto.
  - apply (keepsNullSafe_emitters _ _ 0 EmptyString 0).
  - intros _ s3 N3. apply (runs_keepsNullSafe _ s3); auto with nulls.
Qed.
Hint Resolve keepsNullSafe_funStatement : nulls.

Lemma keepsNullSafe_statementBody fuel :
  keepsNullSafe (statementBody st fuel).
Proof. unfold_nulls. keepsNullSafe_auto. Qed.

End Statements.

Lemma keepsNullSafe_statement fuel : keepsNullSafe (statement fuel).
Proof.
  induction fuel as [|fuel IH]; simpl.
  - apply keepsNullSafe_outOfFuel.
  - apply keepsNullSafe_statementBody. exact IH.
Qed.
Hint Resolve keepsNullSafe_statement : nulls.

Lemma keepsNullSafe_compileLoop fuel : keepsNullSafe (compileLoop fuel).
Proof. induction fuel as [|fuel IH]; simpl; keepsNullSafe_auto. Qed.

(** X21: No NULL constant.  A function that [compile] returns, and every
    function in its constant pools, has no NULL among its constants: each
    constant is a string, a number, a boolean or a function.
    ([funStatement] does store NULL as a constant when the function it has
    compiled had an error, but then [compile] returns NULL itself.) *)
Theorem no_null_constant fuel source s f s' :
  compile fuel source s = Ok (Some f) s' ->
  compiler s = [] ->
  forall g, In g (functionsOf f) -> ~ In NullValue (constants g).
Proof.
  intros E Hc.
  assert (H : runs True True (compile fuel source)
                   (fun r _ => forall f, r = Some f ->
                                         sound nullFree (ObjFun f)) s).
  { unfold compile.
    apply runs_bind. unfold runs at 1, initScanner at 1.
    apply runs_bind. unfold runs at 1, beginCompiler at 1.
    apply runs_bind, runs_getParser.
    apply runs_bind. unfold runs at 1, setParser at 1. simpl.
    match goal with
    | |- runs _ _ _ _ ?s1 => assert (N1 : nullSafe s1)
    end.
    { right. unfold invariant. simpl. rewrite Hc.
      constructor; [|constructor].
      apply sound_function. simpl. split; [intros []|constructor]. }
    apply runs_bind.
    apply (runs_keepsNullSafe advance _ _ ltac:(auto with nulls) N1).
    intros _ s2 N2. apply runs_bind.
    apply (runs_keepsNullSafe _ s2); auto with nulls.
    intros atEof s3 N3. apply runs_bind.
    apply (runs_keepsNullSafe _ s3); auto.
    { destruct (negb atEof); [apply keepsNullSafe_compileLoop|].
      apply keepsNullSafe_ret. }
    intros _ s4 N4. unfold runs.
    destruct (compiler s4) as [|c rest] eqn:E4.
    - unfold endCompiler, emitBytes, emitByte, bind, getCompiler.
      rewrite E4. exact I.
    - rewrite (endCompiler_Ok s4 c rest E4).
      intros f0 Hf0. destruct (hadError (parser s4)) eqn:Herr;
        [discriminate|]. injection Hf0 as <-.
      destruct N4 as [N4|N4]; [congruence|].
      unfold invariant in N4. rewrite E4 in N4. inversion N4; subst.
      eapply nullFree_sound; [|eassumption]. reflexivity. }
  unfold runs in H. rewrite E in H. intros g Hg.
  exact (H f eq_refl g Hg).
Qed.

End NullConstants.

(** * Instances of the further properties *)

Lemma compile_fails_iff_diagnostic_witness :
  exists r s',
    compile 20 redeclareSource initialState = Ok r s' /\
    vmStack s' = [] /\
    (exists consumed,
        pending redeclareSource = consumed ++ pending (scanner s')) /\
    exists printed,
      stderr s' = [] ++ printed /\
      (r = None <-> printed <> []) /\
      hadError (parser s') = nonEmpty printed.
Proof.
  destruct (compile 20 redeclareSource initialState) as [r s'| |] eqn:E;
    try (exfalso; vm_compute in E; discriminate).
  exists r, s'. split; [reflexivity|].
  exact (compile_fails_iff_diagnostic 20 redeclareSource initialState r s' E).
Defined.

Lemma hadError_is_sticky_witness :
  exists s',
    statement 20 (primed redeclareSource) = Ok tt s' /\
    exists printed,
      stderr s' = [] ++ printed /\
      hadError (parser s') = false || nonEmpty printed.
Proof.
  destruct (statement 20 (primed redeclareSource)) as [[] s'| |] eqn:E;
    try (exfalso; vm_compute in E; discriminate).
  exists s'. split; [reflexivity|].
  exact (proj1 hadError_is_sticky 20%nat (primed redeclareSource) s' E).
Defined.

Lemma stack_and_tokens_preserved_witness :
  exists s',
    statement 20 (primed arithmeticSource) = Ok tt s' /\
    vmStack s' = [] /\
    exists consumed,
      tl (pending arithmeticSource) = consumed ++ pending (scanner s').
Proof.
  destruct (statement 20 (primed arithmeticSource)) as [[] s'| |] eqn:E;
    try (exfalso; vm_compute in E; discriminate).
  exists s'. split; [reflexivity|].
  exact (proj1 stack_and_tokens_preserved 20%nat (primed arithmeticSource)
               s' E).
Defined.

Lemma resolveLocal_innermost_witness :
  exists r,
    resolveLocal secondA blockState = Ok r blockState /\
    -1 <= r < 1 /\
    (r = -1 <->
     forall l, In l [localA] -> lexeme (name l) <> lexeme secondA) /\
    (r <> -1 ->
     exists l,
       nth_error [localA] (Z.to_nat r) = Some l /\
       lexeme (name l) = lexeme secondA /\
       forall k l', (Z.to_nat r < k)%nat ->
                    nth_error [localA] k = Some l' ->
                    lexeme (name l') <> lexeme secondA).
Proof. exact (resolveLocal_innermost blockState _ [] secondA eq_refl). Defined.

Lemma patchJump_writes_two_bytes_witness :
  exists f',
    patchJump 1 jumpState
    = Ok tt (withFrames jumpState
               (withFunction (mkCompiler (mkFunction
                    [OP_JUMP_IF_FALSE; 255; 255; OP_POP; OP_POP]
                    [1; 1; 1; 1; 1] 8 [] 0) [] (-1)) f' :: [])) /\
    List.length (code f') = 5%nat /\
    (forall i, i <> 1%nat -> i <> 2%nat ->
               nth i (code f') 0
               = nth i [OP_JUMP_IF_FALSE; 255; 255; OP_POP; OP_POP] 0) /\
    codeLines f' = [1; 1; 1; 1; 1] /\
    codeCapacity f' = 8 /\
    constants f' = [] /\
    arity f' = 0.
Proof.
  apply (patchJump_writes_two_bytes jumpState _ [] 1 eq_refl);
    unfold codeCount; simpl; lia.
Defined.

Lemma expression_is_safe_witness :
  parsePrecedence 20 PREC_ASSIGNMENT (primed arithmeticSource) <> Undefined /\
  forall s',
    parsePrecedence 20 PREC_ASSIGNMENT (primed arithmeticSource) = Ok tt s' ->
    exists f',
      compiler s' = mkCompiler f' [] (-1) :: [] /\
      (exists more, constants f' = [] ++ more) /\
      0 <= codeCount f' /\
      arity f' = 0.
Proof.
  apply (expression_is_safe 20 PREC_ASSIGNMENT (primed arithmeticSource)
                            (mkCompiler newFunction [] (-1)) []).
  - unfold PREC_ASSIGNMENT. lia.
  - reflexivity.
Defined.

Lemma nestedState_sorted : depthsSorted [localA; localB].
Proof.
  intros i j li lj le Hi Hj.
  destruct i as [|[|i]]; destruct j as [|[|j]]; simpl in *;
    try lia;
    try (inversion Hi; inversion Hj; subst; simpl; lia);
    try (destruct i; discriminate); try (destruct j; discriminate).
Defined.

Lemma endScope_pops_inner_locals_witness :
  exists f',
    endScope nestedState
    = Ok tt (withFrames nestedState (mkCompiler f' [localA] 0 :: [])) /\
    code f' = [] ++ repeat OP_POP 1 /\
    codeLines f' = [] ++ repeat 0 1 /\
    constants f' = [] /\
    arity f' = 0.
Proof.
  exact (endScope_pops_inner_locals nestedState _ [] eq_refl
           nestedState_sorted).
Defined.

Lemma statement_keeps_frames_witness :
  exists s' c',
    statement 20 (primed funSource) = Ok tt s' /\
    compiler s' = c' :: [] /\
    scopeDepth c' = -1 /\
    (exists more, constants (function c') = [] ++ more) /\
    0 <= codeCount (function c').
Proof.
  destruct (statement 20 (primed funSource)) as [[] s'| |] eqn:E;
    try (exfalso; vm_compute in E; discriminate).
  destruct (statement_keeps_frames 20 (primed funSource) s' _ [] eq_refl E)
    as (c' & H).
  exists s', c'. split; [reflexivity|exact H].
Defined.

Lemma compile_restores_frames_witness :
  exists r s',
    compile 20 funSource initialState = Ok r s' /\ compiler s' = [].
Proof.
  destruct (compile 20 funSource initialState) as [r s'| |] eqn:E;
    try (exfalso; vm_compute in E; discriminate).
  exists r, s'. split; [reflexivity|].
  exact (compile_restores_frames 20 funSource initialState r s' E).
Defined.

Lemma parsePrecedence_stops_witness :
  exists s',
    parsePrecedence 20 PREC_ASSIGNMENT (primed arithmeticSource) = Ok tt s' /\
    (prefix (getRule TOKEN_NUMBER) <> None ->
     rulePrecedence (getRule (type (current (parser s')))) < PREC_ASSIGNMENT).
Proof.
  destruct (parsePrecedence 20 PREC_ASSIGNMENT (primed arithmeticSource))
    as [[] s'| |] eqn:E;
    try (exfalso; vm_compute in E; discriminate).
  exists s'. split; [reflexivity|].
  exact (proj1 (parsePrecedence_stops 20 PREC_ASSIGNMENT
                  (primed arithmeticSource) s' E)).
Defined.

Lemma compile_terminates_witness :
  exists r s',
    compile 24 funSource initialState = Ok r s' /\
    type (previous (parser s')) = TOKEN_EOF.
Proof.
  pose proof (compile_terminates 24 funSource initialState) as H.
  destruct (compile 24 funSource initialState) as [r s'| |] eqn:E;
    try (exfalso; vm_compute in E; discriminate).
  exists r, s'. split; [reflexivity|]. apply H. vm_compute. discriminate.
Defined.

Lemma statement_makes_progress_witness :
  exists s',
    statement 23 (primed funSource) = Ok tt s' /\
    remaining s' + step (primed funSource) <= remaining (primed funSource).
Proof.
  pose proof (statement_makes_progress 23 (primed funSource) _ [] eq_refl)
    as H.
  destruct (statement 23 (primed funSource)) as [[] s'| |] eqn:E;
    try (exfalso; vm_compute in E; discriminate).
  exists s'. split; [reflexivity|]. apply H. vm_compute. discriminate.
Defined.

Lemma statement_scoping_witness :
  exists s' c',
    statement 20 (inBlock redeclareSource) = Ok tt s' /\
    compiler s' = [c'] /\
    scopeDepth c' = 1 /\
    locals c' = [localA; localB].
Proof.
  destruct (statement 20 (inBlock redeclareSource)) as [[] s'| |] eqn:E;
    try (exfalso; vm_compute in E; discriminate).
  destruct (statement_scoping 20 (inBlock redeclareSource) s' _ [] E eq_refl
              nestedState_sorted)
    as (c' & Hc & Hd & Hl).
  - repeat constructor; vm_compute; discriminate.
  - exists s', c'. repeat split; assumption.
Defined.

Lemma code_within_capacity_witness :
  exists f s',
    compile 24 funSource initialState = Ok (Some f) s' /\
    forall g, In g (functionsOf f) ->
      codeCount g <= codeCapacity g < 2 * codeCount g + 4.
Proof.
  destruct (compile 24 funSource initialState) as [[f|] s'| |] eqn:E;
    try (exfalso; vm_compute in E; discriminate).
  exists f, s'. split; [reflexivity|].
  apply (code_within_capacity 24 funSource initialState f s' E).
  constructor.
Defined.

Lemma code_is_append_only_witness :
  exists s' c' more,
    statement 20 (primed funSource) = Ok tt s' /\
    compiler s' = [c'] /\
    code (function c') = [] ++ more.
Proof.
  destruct (statement 20 (primed funSource)) as [[] s'| |] eqn:E;
    try (exfalso; vm_compute in E; discriminate).
  destruct (proj1 (code_is_append_only 20) (primed funSource) s' _ [] E
              eq_refl)
    as (c' & more & H).
  exists s', c', more. split; [reflexivity|exact H].
Defined.




Lemma line_table_ascending_witness :
  exists f s',
    compile 24 funSource initialState = Ok (Some f) s' /\
    forall g, In g (functionsOf f) -> ascending (codeLines g).
Proof.
  destruct (compile 24 funSource initialState) as [[f|] s'| |] eqn:E;
    try (exfalso; vm_compute in E; discriminate).
  exists f, s'. split; [reflexivity|].
  apply (line_table_ascending 24 funSource initialState f s' E eq_refl).
  vm_compute. repeat split; repeat constructor; discriminate.
Defined.

Lemma no_null_constant_witness :
  exists f s',
    compile 24 funSource initialState = Ok (Some f) s' /\
    forall g, In g (functionsOf f) -> ~ In NullValue (constants g).
Proof.
  destruct (compile 24 funSource initialState) as [[f|] s'| |] eqn:E;
    try (exfalso; vm_compute in E; discriminate).
  exists f, s'. split; [reflexivity|].
  exact (no_null_constant 24 funSource initialState f s' E eq_refl).
Defined.
